(* ===================================================================== *)
(*  Local development container: file-system sandbox, cache store,       *)
(*  cached file-system layer, terminal multiplexer, preview orchestrator *)
(*                                                                       *)
(*  Shallow embedding of                                                 *)
(*    file-system.ts            (NodeFileSystem)                         *)
(*    cache-manager.ts          (CacheManager)                           *)
(*    optimized-file-system.ts  (OptimizedFileSystem)                    *)
(*    terminal-manager.ts       (TerminalManager)                        *)
(*    preview-manager.ts        (PreviewManager)                         *)
(*    performance-monitor.ts    (PerformanceMonitor)                     *)
(*  JavaScript numbers that hold integers (epoch milliseconds, ports,    *)
(*  pids, counters) are Z; the eviction score, which divides by 1000, is *)
(*  computed in IEEE 754 binary64 (SpecFloat), as the source computes    *)
(*  it.  A JS Map iterated in insertion order is an association list; a  *)
(*  Map or Set only probed by key is a gmap / gset.  Every evaluation of *)
(*  Date.now(), the operating system and the dev-server supervisor are   *)
(*  inputs of the operations that consult them.                          *)
(* ===================================================================== *)

From Stdlib Require Import Ascii String ZArith SpecFloat Lia.
From stdpp Require Import base decidable option list strings gmap pretty.

Local Open Scope Z_scope.
Local Open Scope string_scope.
Local Open Scope list_scope.

(* --------------------------------------------------------------------- *)
(*  Thrown values                                                        *)
(* --------------------------------------------------------------------- *)

(** [new Error(message)], and rejections coming from the platform. *)
Inductive error : Type :=
  | Error (message : string)
  | OsError (code : string).

Inductive result (A : Type) : Type :=
  | Ok (a : A)
  | Throw (e : error).
Arguments Ok {A} a.
Arguments Throw {A} e.

Definition is_ok {A} (r : result A) : bool :=
  match r with Ok _ => true | Throw _ => false end.

(* --------------------------------------------------------------------- *)
(*  JavaScript's [a || b] on strings                                     *)
(* --------------------------------------------------------------------- *)

(** A string that may be undefined is falsy when it is undefined or
    empty. *)
Definition truthy (s : option string) : option string :=
  match s with
  | Some x => if bool_decide (x = "") then None else Some x
  | None => None
  end.

(** [s || d] *)
Definition or_else (s : option string) (d : string) : string :=
  match truthy s with Some x => x | None => d end.

(* --------------------------------------------------------------------- *)
(*  node:path, POSIX flavour                                             *)
(* --------------------------------------------------------------------- *)

Module Path.

Definition slash : ascii := "/"%char.
Definition dot : ascii := "."%char.

Definition charAt (s : string) (i : nat) : option ascii := String.get i s.

Definition isSlashAt (s : string) (i : nat) : bool :=
  match charAt s i with
  | Some c => bool_decide (c = slash)
  | None => false
  end.

(** path.isAbsolute *)
Definition isAbsolute (p : string) : bool := isSlashAt p 0.

(** The segments of a path between separators: "a//b" is a, "", b. *)
Fixpoint segments_from (cur : string) (s : string) : list string :=
  match s with
  | EmptyString => [cur]
  | String c r =>
      if bool_decide (c = slash) then cur :: segments_from "" r
      else segments_from (cur +:+ String c "") r
  end.

Definition segments (s : string) : list string := segments_from "" s.

(** One segment of normalizeString; [res] is the stack of kept
    segments, innermost first. *)
Definition normalize_step (allowAboveRoot : bool)
    (res : list string) (seg : string) : list string :=
  if bool_decide (seg = "" ∨ seg = ".") then res
  else if bool_decide (seg = "..") then
    match res with
    | last :: rest =>
        if bool_decide (last = "..")
        then (if allowAboveRoot then ".." :: res else res)
        else rest
    | [] => if allowAboveRoot then [".."] else []
    end
  else seg :: res.

Definition normalizeSegments (allowAboveRoot : bool) (p : string)
    : list string :=
  rev (fold_left (normalize_step allowAboveRoot) (segments p) []).

Definition normalizeString (allowAboveRoot : bool) (p : string) : string :=
  String.concat "/" (normalizeSegments allowAboveRoot p).

(** The right-to-left loop of path.resolve: arguments are prepended
    until one of them is absolute; the working directory comes last. *)
Fixpoint resolve_loop (cwd : string) (rargs : list string)
    (resolvedPath : string) : string * bool :=
  match rargs with
  | [] =>
      if bool_decide (cwd = "") then (resolvedPath, false)
      else (cwd +:+ "/" +:+ resolvedPath, isAbsolute cwd)
  | p :: rest =>
      if bool_decide (p = "") then resolve_loop cwd rest resolvedPath
      else
        let rp := p +:+ "/" +:+ resolvedPath in
        if isAbsolute p then (rp, true) else resolve_loop cwd rest rp
  end.

(** path.resolve(...args) in a process whose working directory is [cwd]. *)
Definition resolve (cwd : string) (args : list string) : string :=
  let '(rp, resolvedAbsolute) := resolve_loop cwd (rev args) "" in
  let n := normalizeString (negb resolvedAbsolute) rp in
  if resolvedAbsolute then "/" +:+ n
  else if bool_decide (n = "") then "." else n.

(** The loop of path.dirname, from index [i] down to 1; the result is
    the variable [end], [None] standing for -1. *)
Fixpoint dirname_loop (p : string) (i : nat) (matchedSlash : bool)
    : option nat :=
  match i with
  | O => None
  | S i' =>
      if isSlashAt p i then
        (if matchedSlash then dirname_loop p i' true else Some i)
      else dirname_loop p i' false
  end.

Definition dirname (p : string) : string :=
  if bool_decide (p = "") then "."
  else
    let hasRoot := isAbsolute p in
    match dirname_loop p (String.length p - 1) true with
    | None => if hasRoot then "/" else "."
    | Some e =>
        if hasRoot && bool_decide (e = 1%nat) then "//"
        else substring 0 e p
    end.

(** The loop state of path.extname; -1 is [None]. *)
Record ext_state : Type := {
  startDot : option nat;
  startPart : nat;
  end_ : option nat;
  matchedSlash : bool;
  preDotState : Z
}.

Definition with_preDotState (v : Z) (st : ext_state) : ext_state :=
  {| startDot := startDot st; startPart := startPart st; end_ := end_ st;
     matchedSlash := matchedSlash st; preDotState := v |}.

(** The body of the loop of path.extname at index [j], where the
    character is [code]; the boolean is true when the loop breaks. *)
Definition extname_body (j : nat) (code : ascii) (st : ext_state)
    : ext_state * bool :=
  if bool_decide (code = slash) then
    if negb (matchedSlash st) then
      ({| startDot := startDot st; startPart := S j; end_ := end_ st;
          matchedSlash := matchedSlash st; preDotState := preDotState st |},
       true)
    else (st, false)
  else
    let st1 :=
      match end_ st with
      | None =>
          {| startDot := startDot st; startPart := startPart st;
             end_ := Some (S j); matchedSlash := false;
             preDotState := preDotState st |}
      | Some _ => st
      end in
    let st2 :=
      if bool_decide (code = dot) then
        match startDot st1 with
        | None =>
            {| startDot := Some j; startPart := startPart st1;
               end_ := end_ st1; matchedSlash := matchedSlash st1;
               preDotState := preDotState st1 |}
        | Some _ =>
            if bool_decide (preDotState st1 ≠ 1) then with_preDotState 1 st1
            else st1
        end
      else
        match startDot st1 with
        | Some _ => with_preDotState (-1) st1
        | None => st1
        end in
    (st2, false).

(** The loop of path.extname over indices [i-1] down to 0. *)
Fixpoint extname_loop (p : string) (i : nat) (st : ext_state) : ext_state :=
  match i with
  | O => st
  | S j =>
      match charAt p j with
      | None => extname_loop p j st
      | Some code =>
          let '(st', stop) := extname_body j code st in
          if stop then st' else extname_loop p j st'
      end
  end.

(** The loop variables before the first iteration. *)
Definition ext_initial : ext_state :=
  {| startDot := None; startPart := 0; end_ := None;
     matchedSlash := true; preDotState := 0 |}.

(** path.extname *)
Definition extname (p : string) : string :=
  let st := extname_loop p (String.length p) ext_initial in
  match startDot st, end_ st with
  | Some sd, Some e =>
      if bool_decide (preDotState st = 0)
         || (bool_decide (preDotState st = 1)
             && bool_decide (sd = (e - 1)%nat)
             && bool_decide (sd = (startPart st + 1)%nat))
      then ""
      else substring sd (e - sd) p
  | _, _ => ""
  end.

(** Strings without separator and without dot. *)
Definition plain (s : string) : Prop :=
  ∀ k code, charAt s k = Some code → code ≠ slash ∧ code ≠ dot.

(** The loop variables of extname on a path of length [len] once a run
    of plain characters at its end has been read. *)
Definition ext_tail (len : nat) : ext_state :=
  {| startDot := None; startPart := 0; end_ := Some len;
     matchedSlash := false; preDotState := 0 |}.

(** The loop variables once the dot at index [sd] before that run, and
    the character [c] before the dot, have been read. *)
Definition ext_stem (sd len : nat) (c : ascii) : ext_state :=
  with_preDotState (if bool_decide (c = dot) then 1 else -1)
    {| startDot := Some sd; startPart := 0; end_ := Some len;
       matchedSlash := false; preDotState := 0 |}.

End Path.


(* --------------------------------------------------------------------- *)
(*  The platform below the file-system adapter (node:fs/promises)        *)
(* --------------------------------------------------------------------- *)

Record FileStats : Type := {
  isFile : bool;
  isDirectory : bool;
  size : Z;
  mtime : Z
}.

(** What the adapter needs from the operating system.  [disk] is the
    state of the host file system; a rejected promise is [Throw]. *)
Record Os : Type := {
  disk : Type;
  os_readFile : string → disk → result string;
  os_writeFile : string → string → disk → result unit * disk;
  os_mkdir : string → bool → disk → result unit * disk;
  os_readdir : string → disk → result (list string);
  os_access : string → disk → result unit;
  os_stat : string → disk → result FileStats;
  os_rmdir : string → disk → result unit * disk;
  os_unlink : string → disk → result unit * disk
}.

(** Awaited calls that can reject and that change the disk. *)
Definition io (S A : Type) : Type := S → result A * S.

Definition io_ret {S A} (a : A) : io S A := λ s, (Ok a, s).
Definition io_throw {S A} (e : error) : io S A := λ s, (Throw e, s).
Definition io_bind {S A B} (m : io S A) (k : A → io S B) : io S B :=
  λ s, match m s with
       | (Ok a, s') => k a s'
       | (Throw e, s') => (Throw e, s')
       end.
Definition io_lift {S A} (r : S → result A) : io S A := λ s, (r s, s).
Definition io_of_result {S A} (r : result A) : io S A := λ s, (r, s).

#[export] Instance io_mret {S} : MRet (io S) := λ A a, io_ret a.
#[export] Instance io_mbind {S} : MBind (io S) := λ A B k m, io_bind m k.

(* --------------------------------------------------------------------- *)
(*  file-system.ts : NodeFileSystem                                      *)
(* --------------------------------------------------------------------- *)

Module NodeFS.

Record NodeFileSystem : Type := { basePath : string }.

Section WithProcess.
(** process.cwd() *)
Variable cwd : string.

(** constructor *)
Definition new (base : string) : NodeFileSystem :=
  {| basePath := Path.resolve cwd [base] |}.

Definition resolvePath (fs : NodeFileSystem) (filePath : string)
    : result string :=
  let resolved := Path.resolve cwd [basePath fs; filePath] in
  if negb (String.prefix (basePath fs) resolved) then
    Throw (Error ("Path " +:+ filePath +:+ " is outside of allowed directory"))
  else Ok resolved.

Section WithOs.
Variable os : Os.

Definition readFile (fs : NodeFileSystem) (filePath : string)
    : io (disk os) string :=
  fullPath ← io_of_result (resolvePath fs filePath);
  io_lift (os_readFile os fullPath).

Definition writeFile (fs : NodeFileSystem) (filePath content : string)
    : io (disk os) unit :=
  fullPath ← io_of_result (resolvePath fs filePath);
  let dir := Path.dirname fullPath in
  _ ← os_mkdir os dir true;
  os_writeFile os fullPath content.

Definition readdir (fs : NodeFileSystem) (dirPath : string)
    : io (disk os) (list string) :=
  fullPath ← io_of_result (resolvePath fs dirPath);
  io_lift (os_readdir os fullPath).

Definition mkdir (fs : NodeFileSystem) (dirPath : string)
    (recursive : bool) : io (disk os) unit :=
  fullPath ← io_of_result (resolvePath fs dirPath);
  os_mkdir os fullPath recursive.

Definition exists_ (fs : NodeFileSystem) (filePath : string)
    : io (disk os) bool :=
  λ d, match (fullPath ← io_of_result (resolvePath fs filePath);
              io_lift (os_access os fullPath)) d with
       | (Ok _, d') => (Ok true, d')
       | (Throw _, d') => (Ok false, d')
       end.

Definition remove (fs : NodeFileSystem) (filePath : string)
    : io (disk os) unit :=
  fullPath ← io_of_result (resolvePath fs filePath);
  stats ← io_lift (os_stat os fullPath);
  if isDirectory stats then os_rmdir os fullPath
  else os_unlink os fullPath.

Definition stat (fs : NodeFileSystem) (filePath : string)
    : io (disk os) FileStats :=
  fullPath ← io_of_result (resolvePath fs filePath);
  io_lift (os_stat os fullPath).

End WithOs.
End WithProcess.

(** Directory containment, component by component: the root itself and
    everything below it. *)
Definition components (p : string) : list string :=
  filter (λ s, s ≠ "") (Path.segments p).

Definition isWithin (root p : string) : bool :=
  bool_decide (components root `prefix_of` components p).

End NodeFS.

(** A small host used to run the operations: regular files only, every
    directory exists. *)
Module MemOs.

Definition enoent {A} : result A := Throw (OsError "ENOENT").

Definition statOf (content : string) : FileStats :=
  {| isFile := true; isDirectory := false;
     size := Z.of_nat (String.length content); mtime := 0 |}.

Definition os : Os := {|
  disk := gmap string string;
  os_readFile := λ p d, match d !! p with Some c => Ok c | None => enoent end;
  os_writeFile := λ p c d, (Ok tt, <[p := c]> d);
  os_mkdir := λ _ _ d, (Ok tt, d);
  os_readdir := λ _ _, enoent;
  os_access := λ p d, match d !! p with Some _ => Ok tt | None => enoent end;
  os_stat := λ p d, match d !! p with Some c => Ok (statOf c) | None => enoent end;
  os_rmdir := λ _ d, (enoent, d);
  os_unlink := λ p d, (Ok tt, delete p d)
|}.

End MemOs.


(* --------------------------------------------------------------------- *)
(*  A JS Map iterated in insertion order                                 *)
(* --------------------------------------------------------------------- *)

Section OrderedMap.
Context {V : Type}.

(** Map.prototype.get *)
Fixpoint al_lookup (k : string) (l : list (string * V)) : option V :=
  match l with
  | [] => None
  | (k', v) :: r => if bool_decide (k' = k) then Some v else al_lookup k r
  end.

(** Map.prototype.set: an existing key keeps its position, a new key
    goes last. *)
Fixpoint al_set (k : string) (v : V) (l : list (string * V))
    : list (string * V) :=
  match l with
  | [] => [(k, v)]
  | (k', v') :: r =>
      if bool_decide (k' = k) then (k, v) :: r else (k', v') :: al_set k v r
  end.

(** Map.prototype.delete *)
Definition al_delete (k : string) (l : list (string * V))
    : list (string * V) :=
  filter (λ kv, kv.1 ≠ k) l.

Definition al_keys (l : list (string * V)) : list string := l.*1.

End OrderedMap.

(* --------------------------------------------------------------------- *)
(*  JavaScript numbers in arithmetic: IEEE 754 binary64                  *)
(* --------------------------------------------------------------------- *)

Module Double.

Definition add : spec_float → spec_float → spec_float := SFadd 53 1024.
Definition sub : spec_float → spec_float → spec_float := SFsub 53 1024.
Definition div : spec_float → spec_float → spec_float := SFdiv 53 1024.

(** [x < y] and [x <= y] *)
Definition lt : spec_float → spec_float → bool := SFltb.
Definition le : spec_float → spec_float → bool := SFleb.

(** Number.POSITIVE_INFINITY *)
Definition POSITIVE_INFINITY : spec_float := S754_infinity false.

(** Number.MAX_SAFE_INTEGER + 1 = 2^53 *)
Definition safe : Z := 9007199254740992.

(** The double of a counter or of a clock value held as the integer [z].
    Counting by ++ stops at 2^53 (2^53 + 1 rounds back to 2^53) and
    Date.now() is a time value, at most 8.64e15 in magnitude, so these
    integers lie between -2^53 and 2^53, where [number] is exact; it
    saturates outside that range. *)
Definition number (z : Z) : spec_float :=
  binary_normalize 53 1024 (Z.max (- safe) (Z.min safe z)) 0 false.

(** [x] is a zero or a finite number below 2^K in magnitude. *)
Definition within (K : Z) (x : spec_float) : Prop :=
  match x with
  | S754_zero _ => True
  | S754_finite _ m e => Zpos (digits2_pos m) + e <= K
  | _ => False
  end.

End Double.

(* --------------------------------------------------------------------- *)
(*  cache-manager.ts : CacheManager                                      *)
(* --------------------------------------------------------------------- *)

Module Cache.

Record CacheEntry (T : Type) : Type := {
  value : T;
  timestamp : Z;
  ttl : Z;
  hits : Z
}.
Arguments value {T} _.
Arguments timestamp {T} _.
Arguments ttl {T} _.
Arguments hits {T} _.

(** this.emit(name, ...) *)
Inductive CacheEvent (T : Type) : Type :=
  | EvSet (key : string) (v : T)
  | EvHit (key : string)
  | EvMiss (key : string)
  | EvExpired (key : string)
  | EvDelete (key : string)
  | EvClear
  | EvEvicted (key : string)
  | EvCleanup (count : Z).
Arguments EvSet {T} key v.
Arguments EvHit {T} key.
Arguments EvMiss {T} key.
Arguments EvExpired {T} key.
Arguments EvDelete {T} key.
Arguments EvClear {T}.
Arguments EvEvicted {T} key.
Arguments EvCleanup {T} count.

Record CacheManager (T : Type) : Type := {
  cache : list (string * CacheEntry T);
  maxSize : Z;
  defaultTTL : Z;
  emitted : list (CacheEvent T)
}.
Arguments cache {T} _.
Arguments maxSize {T} _.
Arguments defaultTTL {T} _.
Arguments emitted {T} _.

Section WithValue.
Context {T : Type}.

Definition with_cache (l : list (string * CacheEntry T))
    (c : CacheManager T) : CacheManager T :=
  {| cache := l; maxSize := maxSize c; defaultTTL := defaultTTL c;
     emitted := emitted c |}.

Definition emit (ev : CacheEvent T) (c : CacheManager T) : CacheManager T :=
  {| cache := cache c; maxSize := maxSize c; defaultTTL := defaultTTL c;
     emitted := emitted c ++ [ev] |}.

(** constructor(maxSize = 1000, defaultTTL = 300000) *)
Definition new (maxSize defaultTTL : Z) : CacheManager T :=
  {| cache := []; maxSize := maxSize; defaultTTL := defaultTTL;
     emitted := [] |}.

(** this.cache.size *)
Definition size (c : CacheManager T) : Z := Z.of_nat (length (cache c)).

(** entry.hits + (Date.now() - entry.timestamp) / 1000 in binary64, with
    [now] the value of Date.now() *)
Definition score (now : Z) (entry : CacheEntry T) : spec_float :=
  Double.add (Double.number (hits entry))
    (Double.div
       (Double.sub (Double.number now) (Double.number (timestamp entry)))
       (Double.number 1000)).

(** The for-of loop of evictOldest.  Date.now() is evaluated in every
    iteration: [clock i] is its value in the i-th iteration from here. *)
Fixpoint scanOldest (clock : nat → Z) (entries : list (string * CacheEntry T))
    (oldestKey : option string) (oldestScore : spec_float) : option string :=
  match entries with
  | [] => oldestKey
  | (key, entry) :: rest =>
      let s := score (clock 0%nat) entry in
      if Double.lt s oldestScore
      then scanOldest (λ i, clock (S i)) rest (Some key) s
      else scanOldest (λ i, clock (S i)) rest oldestKey oldestScore
  end.

Definition evictOldest (clock : nat → Z) (c : CacheManager T)
    : CacheManager T :=
  match scanOldest clock (cache c) None Double.POSITIVE_INFINITY with
  | Some oldestKey =>
      (* if (oldestKey): the empty string is falsy *)
      if bool_decide (oldestKey ≠ "") then
        emit (EvEvicted oldestKey)
             (with_cache (al_delete oldestKey (cache c)) c)
      else c
  | None => c
  end.

(** [ttl || this.defaultTTL] *)
Definition ttl_or_default (t : option Z) (c : CacheManager T) : Z :=
  match t with
  | Some t => if bool_decide (t = 0) then defaultTTL c else t
  | None => defaultTTL c
  end.

(** [clock] gives the values of Date.now() in the loop of evictOldest,
    [now] its value when the entry is built. *)
Definition set (clock : nat → Z) (now : Z) (key : string) (v : T)
    (t : option Z) (c : CacheManager T) : CacheManager T :=
  let c1 := if bool_decide (size c >= maxSize c) then evictOldest clock c
            else c in
  let entry := {| value := v; timestamp := now;
                  ttl := ttl_or_default t c1; hits := 0 |} in
  emit (EvSet key v) (with_cache (al_set key entry (cache c1)) c1).

Definition bump (entry : CacheEntry T) : CacheEntry T :=
  {| value := value entry; timestamp := timestamp entry;
     ttl := ttl entry; hits := hits entry + 1 |}.

Definition get (now : Z) (key : string) (c : CacheManager T)
    : option T * CacheManager T :=
  match al_lookup key (cache c) with
  | None => (None, emit (EvMiss key) c)
  | Some entry =>
      if bool_decide (now - timestamp entry > ttl entry) then
        (None, emit (EvExpired key)
                    (with_cache (al_delete key (cache c)) c))
      else
        (Some (value entry),
         emit (EvHit key)
              (with_cache (al_set key (bump entry) (cache c)) c))
  end.

Definition has (now : Z) (key : string) (c : CacheManager T)
    : bool * CacheManager T :=
  match al_lookup key (cache c) with
  | None => (false, c)
  | Some entry =>
      if bool_decide (now - timestamp entry > ttl entry) then
        (false, with_cache (al_delete key (cache c)) c)
      else (true, c)
  end.

Definition delete (key : string) (c : CacheManager T)
    : bool * CacheManager T :=
  match al_lookup key (cache c) with
  | Some _ =>
      (true, emit (EvDelete key) (with_cache (al_delete key (cache c)) c))
  | None => (false, c)
  end.

Definition clear (c : CacheManager T) : CacheManager T :=
  emit EvClear (with_cache [] c).

(** The first loop of cleanup. *)
Definition expiredKeys (now : Z) (c : CacheManager T) : list string :=
  (filter (λ kv, now - timestamp kv.2 > ttl kv.2) (cache c)).*1.

(** The second loop of cleanup. *)
Definition sweep_keys (keys : list string) (c : CacheManager T)
    : CacheManager T :=
  fold_left
    (λ acc key,
       emit (EvExpired key) (with_cache (al_delete key (cache acc)) acc))
    keys c.

(** The sweep run by the interval timer. *)
Definition cleanup (now : Z) (c : CacheManager T) : CacheManager T :=
  let keys := expiredKeys now c in
  let c1 := sweep_keys keys c in
  if bool_decide (Z.of_nat (length keys) > 0)
  then emit (EvCleanup (Z.of_nat (length keys))) c1
  else c1.

(** One call on the store by a client or by the timer. *)
Inductive op : Type :=
  | OpSet (clock : nat → Z) (now : Z) (key : string) (v : T) (t : option Z)
  | OpGet (now : Z) (key : string)
  | OpHas (now : Z) (key : string)
  | OpDelete (key : string)
  | OpClear
  | OpCleanup (now : Z).

Definition step (c : CacheManager T) (o : op) : CacheManager T :=
  match o with
  | OpSet clock now key v t => set clock now key v t c
  | OpGet now key => (get now key c).2
  | OpHas now key => (has now key c).2
  | OpDelete key => (delete key c).2
  | OpClear => clear c
  | OpCleanup now => cleanup now c
  end.

Definition run (c : CacheManager T) (ops : list op) : CacheManager T :=
  fold_left step ops c.


(** The list stands for a Map: no key occurs twice. *)
Definition wf (c : CacheManager T) : Prop := NoDup (al_keys (cache c)).


End WithValue.

End Cache.

(* --------------------------------------------------------------------- *)
(*  optimized-file-system.ts : OptimizedFileSystem                       *)
(* --------------------------------------------------------------------- *)

Module OptFS.

(** The adapter it extends, the two caches, and the operation types
    passed to performanceMonitor.recordFileOperation (durations are not
    kept; the logger is not modelled). *)
Record OptimizedFileSystem : Type := {
  base : NodeFS.NodeFileSystem;
  cache : Cache.CacheManager string;
  statsCache : Cache.CacheManager FileStats;
  recorded : list string
}.

Definition with_cache (c : Cache.CacheManager string)
    (fs : OptimizedFileSystem) : OptimizedFileSystem :=
  {| base := base fs; cache := c; statsCache := statsCache fs;
     recorded := recorded fs |}.

Definition with_statsCache (c : Cache.CacheManager FileStats)
    (fs : OptimizedFileSystem) : OptimizedFileSystem :=
  {| base := base fs; cache := cache fs; statsCache := c;
     recorded := recorded fs |}.

Definition record (operationType : string) (fs : OptimizedFileSystem)
    : OptimizedFileSystem :=
  {| base := base fs; cache := cache fs; statsCache := statsCache fs;
     recorded := recorded fs ++ [operationType] |}.

Section WithHost.
Variable cwd : string.
Variable os : Os.

(** constructor *)
Definition new (basePath : string) : OptimizedFileSystem :=
  {| base := NodeFS.new cwd basePath;
     cache := Cache.new 500 60000;
     statsCache := Cache.new 1000 30000;
     recorded := [] |}.

(** [now] is the clock at the cache lookup, [now'] the clock when the
    awaited read has returned and its content is cached, [clock] the
    readings of the eviction scan that caching may run. *)
Definition readFile (clock : nat → Z) (now now' : Z) (filePath : string)
    (fs : OptimizedFileSystem) (d : disk os)
    : result string * OptimizedFileSystem * disk os :=
  let '(cached, cache1) := Cache.get now filePath (cache fs) in
  let fs1 := with_cache cache1 fs in
  match cached with
  | Some content => (Ok content, record "read_cached" fs1, d)
  | None =>
      match NodeFS.readFile cwd os (base fs) filePath d with
      | (Ok content, d') =>
          (Ok content,
           record "read"
             (with_cache (Cache.set clock now' filePath content None cache1)
                fs1),
           d')
      | (Throw e, d') => (Throw e, record "read_error" fs1, d')
      end
  end.

(** [now] is the clock when the awaited write has returned, [clock] the
    readings of the eviction scan that caching may run. *)
Definition writeFile (clock : nat → Z) (now : Z) (filePath content : string)
    (fs : OptimizedFileSystem) (d : disk os)
    : result unit * OptimizedFileSystem * disk os :=
  match NodeFS.writeFile cwd os (base fs) filePath content d with
  | (Ok _, d') =>
      let fs1 :=
        with_cache (Cache.set clock now filePath content None (cache fs)) fs in
      let fs2 := with_statsCache (Cache.delete filePath (statsCache fs1)).2 fs1 in
      (Ok tt, record "write" fs2, d')
  | (Throw e, d') => (Throw e, record "write_error" fs, d')
  end.

Definition stat (clock : nat → Z) (now now' : Z) (filePath : string)
    (fs : OptimizedFileSystem) (d : disk os)
    : result FileStats * OptimizedFileSystem * disk os :=
  let '(cached, cache1) := Cache.get now filePath (statsCache fs) in
  let fs1 := with_statsCache cache1 fs in
  match cached with
  | Some stats => (Ok stats, record "stat_cached" fs1, d)
  | None =>
      match NodeFS.stat cwd os (base fs) filePath d with
      | (Ok stats, d') =>
          (Ok stats,
           record "stat"
             (with_statsCache (Cache.set clock now' filePath stats None cache1)
                fs1),
           d')
      | (Throw e, d') => (Throw e, record "stat_error" fs1, d')
      end
  end.

Definition remove (filePath : string)
    (fs : OptimizedFileSystem) (d : disk os)
    : result unit * OptimizedFileSystem * disk os :=
  match NodeFS.remove cwd os (base fs) filePath d with
  | (Ok _, d') =>
      let fs1 := with_cache (Cache.delete filePath (cache fs)).2 fs in
      let fs2 := with_statsCache (Cache.delete filePath (statsCache fs1)).2 fs1 in
      (Ok tt, record "remove" fs2, d')
  | (Throw e, d') => (Throw e, record "remove_error" fs, d')
  end.

Definition clearCache (fs : OptimizedFileSystem) : OptimizedFileSystem :=
  with_statsCache (Cache.clear (statsCache fs))
    (with_cache (Cache.clear (cache fs)) fs).

(** One call on the adapter, with the clock readings it makes, or a
    change of the disk made by somebody else. *)
Inductive op : Type :=
  | OpReadFile (clock : nat → Z) (now now' : Z) (filePath : string)
  | OpWriteFile (clock : nat → Z) (now : Z) (filePath content : string)
  | OpStat (clock : nat → Z) (now now' : Z) (filePath : string)
  | OpRemove (filePath : string)
  | OpClearCache
  | OpOutside (change : disk os → disk os).

Definition step (st : OptimizedFileSystem * disk os) (o : op)
    : OptimizedFileSystem * disk os :=
  match o with
  | OpReadFile clock now now' p =>
      let r := readFile clock now now' p st.1 st.2 in (r.1.2, r.2)
  | OpWriteFile clock now p c =>
      let r := writeFile clock now p c st.1 st.2 in (r.1.2, r.2)
  | OpStat clock now now' p =>
      let r := stat clock now now' p st.1 st.2 in (r.1.2, r.2)
  | OpRemove p =>
      let r := remove p st.1 st.2 in (r.1.2, r.2)
  | OpClearCache => (clearCache st.1, st.2)
  | OpOutside change => (st.1, change st.2)
  end.

Definition run (st : OptimizedFileSystem * disk os) (ops : list op)
    : OptimizedFileSystem * disk os :=
  fold_left step ops st.

(** The calls that report to performanceMonitor.recordFileOperation. *)
Definition isFileOperation (o : op) : bool :=
  match o with
  | OpReadFile _ _ _ _ | OpWriteFile _ _ _ _ | OpStat _ _ _ _
  | OpRemove _ => true
  | OpClearCache | OpOutside _ => false
  end.

(** The keys held by the content cache and by the metadata cache. *)
Definition cachedKeys (fs : OptimizedFileSystem) : list string :=
  al_keys (Cache.cache (cache fs)) ++ al_keys (Cache.cache (statsCache fs)).

(** The adapter keeps the root it was built with, and holds cache
    entries only for paths that pass the root check. *)
Definition checked (root : NodeFS.NodeFileSystem)
    (fs : OptimizedFileSystem) : Prop :=
  base fs = root
  ∧ ∀ k, k ∈ cachedKeys fs →
      is_ok (NodeFS.resolvePath cwd root k) = true.

End WithHost.

End OptFS.

(* --------------------------------------------------------------------- *)
(*  terminal-manager.ts : TerminalManager                                *)
(* --------------------------------------------------------------------- *)

Module Terminal.

(** A child process handed out by NodeTerminal.spawn; its streams are
    not modelled. *)
Record Process : Type := {
  pid : Z;
  command : string;
  args : list string;
  spawnCwd : string
}.

Record TerminalSession : Type := {
  id : string;
  terminal : string;            (* the NodeTerminal's workingDirectory *)
  processes : gmap Z Process;
  history : list string;
  cwd : string
}.

Record TerminalManager : Type := {
  sessions : gmap string TerminalSession;
  workingDirectory : string
}.

(** What a call does to the world outside the manager. *)
Inductive effect : Type :=
  | Spawned (p : Process)
  | Killed (pid : Z) (signal : string)
  | ConsoleLog (line : string)
  | ConsoleError (line : string).

(** The process the manager runs in. *)
Record Host : Type := {
  host_cwd : string;                              (* process.cwd() *)
  host_HOME : option string;                      (* process.env.HOME *)
  host_isDirectory : string → option bool;        (* fs.access, fs.stat *)
  host_spawn : string → list string → string → result Z  (* pid *)
}.

(** What executeCommand resolves to: the pid of the process it returns
    (-1 for the mock process of a built-in). *)
Record Execution : Type := {
  exec_pid : Z;
  exec_builtin : bool
}.

Definition new (workingDirectory : string) : TerminalManager :=
  {| sessions := ∅; workingDirectory := workingDirectory |}.

Definition with_sessions (ss : gmap string TerminalSession)
    (m : TerminalManager) : TerminalManager :=
  {| sessions := ss; workingDirectory := workingDirectory m |}.

Definition with_processes (ps : gmap Z Process) (s : TerminalSession)
    : TerminalSession :=
  {| id := id s; terminal := terminal s; processes := ps;
     history := history s; cwd := cwd s |}.

Definition with_history (h : list string) (s : TerminalSession)
    : TerminalSession :=
  {| id := id s; terminal := terminal s; processes := processes s;
     history := h; cwd := cwd s |}.

Definition with_cwd (d : string) (s : TerminalSession) : TerminalSession :=
  {| id := id s; terminal := terminal s; processes := processes s;
     history := history s; cwd := d |}.

(** [generated] is the value generateSessionId() would return. *)
Definition createSession (generated : string) (sessionId : option string)
    (m : TerminalManager) : TerminalSession * TerminalManager :=
  let id := or_else sessionId generated in
  let session := {| id := id; terminal := workingDirectory m;
                    processes := ∅; history := [];
                    cwd := workingDirectory m |} in
  (session, with_sessions (<[id := session]> (sessions m)) m).

Definition getSession (sessionId : string) (m : TerminalManager)
    : option TerminalSession :=
  sessions m !! sessionId.

Section WithHost.
Variable host : Host.

Definition handleCdCommand (m : TerminalManager) (session : TerminalSession)
    (args : list string) : TerminalSession * list effect :=
  let targetDir :=
    or_else (args !! 0%nat) (or_else (host_HOME host) (workingDirectory m)) in
  let targetDir :=
    if negb (Path.isAbsolute targetDir)
    then Path.resolve (host_cwd host) [cwd session; targetDir]
    else targetDir in
  match host_isDirectory host targetDir with
  | Some true =>
      (with_cwd targetDir session,
       [ConsoleLog ("Changed directory to: " +:+ targetDir)])
  | Some false =>
      (session, [ConsoleError ("cd: " +:+ targetDir +:+ ": Not a directory")])
  | None =>
      (session,
       [ConsoleError ("cd: " +:+ targetDir +:+ ": No such file or directory")])
  end.

(** [None] when the command is not a built-in. *)
Definition handleBuiltinCommand (m : TerminalManager)
    (session : TerminalSession) (command : string) (args : list string)
    : option (TerminalSession * list effect) :=
  if bool_decide (command = "cd") then Some (handleCdCommand m session args)
  else if bool_decide (command = "pwd") then
    Some (session, [ConsoleLog (cwd session)])
  else if bool_decide (command = "clear") then Some (session, [])
  else None.

Definition notFound (sessionId : string) : error :=
  Error ("Terminal session " +:+ sessionId +:+ " not found").

Definition executeCommand (sessionId command : string) (args : list string)
    (m : TerminalManager)
    : result Execution * TerminalManager * list effect :=
  match getSession sessionId m with
  | None => (Throw (notFound sessionId), m, [])
  | Some session =>
      let session :=
        with_history
          (history session ++ [command +:+ " " +:+ String.concat " " args])
          session in
      match handleBuiltinCommand m session command args with
      | Some (session', effects) =>
          (Ok {| exec_pid := -1; exec_builtin := true |},
           with_sessions (<[sessionId := session']> (sessions m)) m,
           effects)
      | None =>
          (* NodeTerminal.spawn: options.cwd || this.workingDirectory *)
          let dir := or_else (Some (cwd session)) (terminal session) in
          match host_spawn host command args dir with
          | Throw e =>
              (Throw e,
               with_sessions (<[sessionId := session]> (sessions m)) m, [])
          | Ok pid =>
              let process := {| pid := pid; command := command;
                                args := args; spawnCwd := dir |} in
              let session' :=
                with_processes (<[pid := process]> (processes session))
                               session in
              (Ok {| exec_pid := pid; exec_builtin := false |},
               with_sessions (<[sessionId := session']> (sessions m)) m,
               [Spawned process])
          end
      end
  end.

(** A client that issues one command after another on a session. *)
Definition executeAll (sessionId : string)
    (commands : list (string * list string)) (m : TerminalManager)
    : TerminalManager :=
  fold_left (λ m c, (executeCommand sessionId c.1 c.2 m).1.2) commands m.

End WithHost.

(** The callback registered with process.onExit by executeCommand. *)
Definition onExit (sessionId : string) (pid : Z) (m : TerminalManager)
    : TerminalManager :=
  with_sessions
    (alter (λ s, with_processes (delete pid (processes s)) s)
           sessionId (sessions m))
    m.

(** process.kill() with no argument sends SIGTERM (NodeTerminal.spawn). *)
Definition killProcess (sessionId : string) (pid : Z) (m : TerminalManager)
    : bool * TerminalManager * list effect :=
  match getSession sessionId m with
  | None => (false, m, [])
  | Some session =>
      match processes session !! pid with
      | None => (false, m, [])
      | Some process =>
          (true,
           with_sessions
             (<[sessionId :=
                  with_processes (delete pid (processes session)) session]>
                (sessions m))
             m,
           [Killed (Terminal.pid process) "SIGTERM"])
      end
  end.

Definition getSessionHistory (sessionId : string) (m : TerminalManager)
    : list string :=
  match getSession sessionId m with
  | Some session => history session
  | None => []
  end.

Definition destroySession (sessionId : string) (m : TerminalManager)
    : bool * TerminalManager * list effect :=
  match getSession sessionId m with
  | None => (false, m, [])
  | Some session =>
      (true,
       with_sessions (delete sessionId (sessions m)) m,
       (λ kv : Z * Process, Killed (pid kv.2) "SIGTERM")
         <$> map_to_list (processes session))
  end.

(** A host with one directory besides the root, whose spawn always
    succeeds with pid 4242. *)
Definition sample_host : Host :=
  {| host_cwd := "/work";
     host_HOME := Some "/home/u";
     host_isDirectory := λ p,
       if bool_decide (p = "/tmp") then Some true
       else if bool_decide (p = "/work") then Some true else None;
     host_spawn := λ _ _ _, Ok 4242 |}.

End Terminal.

(* --------------------------------------------------------------------- *)
(*  preview-manager.ts : PreviewManager                                  *)
(* --------------------------------------------------------------------- *)

Module Preview.

Inductive Status : Type :=
  | StatusStarting
  | StatusRunning
  | StatusStopped
  | StatusError.

(** The [server] field is the instance's own LocalDevServer; calls on it
    are logged under the instance id. *)
Record PreviewInstance : Type := {
  id : string;
  port : Z;
  url : string;
  status : Status;
  projectPath : string;
  lastActivity : Z
}.

(** The fields of the configuration that the manager reads for its own
    state; [env] is copied into process.env, which is not modelled. *)
Record PreviewConfig : Type := {
  config_port : option Z;
  config_host : option string
}.

(** this.emit(name, ...) *)
Inductive event : Type :=
  | previewStarted (id : string)
  | previewError (id : string) (e : error)
  | previewStopped (id : string)
  | previewRestarted (id : string)
  | fileChanged (id : string) (path : string).

(** Calls made on dev-server supervisors. *)
Inductive serverCall : Type :=
  | ServerStart (id : string) (port : Z)
  | ServerStop (id : string).

Record PreviewManager : Type := {
  previews : gmap string PreviewInstance;
  portRange : Z * Z;                       (* min, max *)
  usedPorts : gset Z;
  emitted : list event;
  serverCalls : list serverCall;
  watching : gset string                   (* instances with a file watcher *)
}.

Definition new : PreviewManager :=
  {| previews := ∅; portRange := (3000, 9000); usedPorts := ∅;
     emitted := []; serverCalls := []; watching := ∅ |}.

Definition with_previews (ps : gmap string PreviewInstance)
    (m : PreviewManager) : PreviewManager :=
  {| previews := ps; portRange := portRange m; usedPorts := usedPorts m;
     emitted := emitted m; serverCalls := serverCalls m;
     watching := watching m |}.

Definition with_usedPorts (us : gset Z) (m : PreviewManager)
    : PreviewManager :=
  {| previews := previews m; portRange := portRange m; usedPorts := us;
     emitted := emitted m; serverCalls := serverCalls m;
     watching := watching m |}.

Definition emit (ev : event) (m : PreviewManager) : PreviewManager :=
  {| previews := previews m; portRange := portRange m;
     usedPorts := usedPorts m; emitted := emitted m ++ [ev];
     serverCalls := serverCalls m; watching := watching m |}.

Definition call (c : serverCall) (m : PreviewManager) : PreviewManager :=
  {| previews := previews m; portRange := portRange m;
     usedPorts := usedPorts m; emitted := emitted m;
     serverCalls := serverCalls m ++ [c]; watching := watching m |}.

Definition watch (id : string) (m : PreviewManager) : PreviewManager :=
  {| previews := previews m; portRange := portRange m;
     usedPorts := usedPorts m; emitted := emitted m;
     serverCalls := serverCalls m; watching := {[id]} ∪ watching m |}.

Definition with_status (st : Status) (p : PreviewInstance) : PreviewInstance :=
  {| id := id p; port := port p; url := url p; status := st;
     projectPath := projectPath p; lastActivity := lastActivity p |}.

Definition with_lastActivity (t : Z) (p : PreviewInstance) : PreviewInstance :=
  {| id := id p; port := port p; url := url p; status := status p;
     projectPath := projectPath p; lastActivity := t |}.

(** preview.status = st, on the instance registered under [id] *)
Definition setStatus (id : string) (st : Status) (m : PreviewManager)
    : PreviewManager :=
  with_previews (alter (with_status st) id (previews m)) m.

(** preview.lastActivity = new Date() *)
Definition touch (id : string) (now : Z) (m : PreviewManager)
    : PreviewManager :=
  with_previews (alter (with_lastActivity now) id (previews m)) m.

(** [config.port || ...]: 0 and undefined are falsy *)
Definition explicitPort (config : PreviewConfig) : option Z :=
  match config_port config with
  | Some p => if bool_decide (p = 0) then None else Some p
  | None => None
  end.

Definition noPorts : error := Error "No available ports in range".

(** The for loop of findAvailablePort from [port], with [count]
    iterations left; [isPortAvailable] is the outcome of the bind test. *)
Fixpoint findAvailablePort_from (used : gset Z) (isPortAvailable : Z → bool)
    (port : Z) (count : nat) : result Z :=
  match count with
  | O => Throw noPorts
  | S n =>
      if negb (bool_decide (port ∈ used)) && isPortAvailable port then Ok port
      else findAvailablePort_from used isPortAvailable (port + 1) n
  end.

Definition rangeCount (m : PreviewManager) : nat :=
  Z.to_nat ((portRange m).2 - (portRange m).1 + 1).

Definition findAvailablePort (isPortAvailable : Z → bool)
    (m : PreviewManager) : result Z :=
  findAvailablePort_from (usedPorts m) isPortAvailable
    (portRange m).1 (rangeCount m).

(** [config.port || (await this.findAvailablePort())] *)
Definition allocatePort (config : PreviewConfig) (isPortAvailable : Z → bool)
    (m : PreviewManager) : result Z :=
  match explicitPort config with
  | Some p => Ok p
  | None => findAvailablePort isPortAvailable m
  end.

Definition instance (id : string) (now : Z) (projectPath : string)
    (config : PreviewConfig) (port : Z) : PreviewInstance :=
  {| id := id; port := port;
     url := "http://" +:+ or_else (config_host config) "localhost"
            +:+ ":" +:+ pretty port;
     status := StatusStarting; projectPath := projectPath;
     lastActivity := now |}.

(** createPreview from the construction of the supervisor up to the call
    of server.start(). *)
Definition register (id : string) (now : Z) (projectPath : string)
    (config : PreviewConfig) (port : Z) (m : PreviewManager)
    : PreviewManager :=
  call (ServerStart id port)
    (with_usedPorts ({[port]} ∪ usedPorts m)
       (with_previews
          (<[id := instance id now projectPath config port]> (previews m)) m)).

(** createPreview after server.start() has resolved; the watcher is
    attached when readdir(projectPath) resolves. *)
Definition started (id : string) (readdirOk : bool) (m : PreviewManager)
    : PreviewManager :=
  let m1 := emit (previewStarted id) (setStatus id StatusRunning m) in
  if readdirOk then watch id m1 else m1.

(** createPreview after server.start() has rejected. *)
Definition startFailed (id : string) (e : error) (m : PreviewManager)
    : PreviewManager :=
  emit (previewError id e) (setStatus id StatusError m).

(** [id] is the value of generatePreviewId(), [now] the clock,
    [isPortAvailable] the outcome of the bind tests, [startResult] how
    server.start() settles. *)
Definition createPreview (id : string) (now : Z) (projectPath : string)
    (config : PreviewConfig) (isPortAvailable : Z → bool)
    (startResult : result unit) (readdirOk : bool) (m : PreviewManager)
    : result PreviewInstance * PreviewManager :=
  match allocatePort config isPortAvailable m with
  | Throw e => (Throw e, m)
  | Ok port =>
      let m1 := register id now projectPath config port m in
      match startResult with
      | Ok _ =>
          (Ok (with_status StatusRunning
                 (instance id now projectPath config port)),
           started id readdirOk m1)
      | Throw e => (Throw e, startFailed id e m1)
      end
  end.

Definition stopPreview (previewId : string) (stopResult : result unit)
    (m : PreviewManager) : bool * PreviewManager :=
  match previews m !! previewId with
  | None => (false, m)
  | Some preview =>
      let m1 := call (ServerStop previewId) m in
      match stopResult with
      | Ok _ =>
          (true,
           emit (previewStopped previewId)
             (with_previews (delete previewId (previews m1))
                (with_usedPorts (usedPorts m1 ∖ {[port preview]}) m1)))
      | Throw e => (false, emit (previewError previewId e) m1)
      end
  end.

Definition restartPreview (previewId : string) (now : Z)
    (stopResult startResult : result unit) (m : PreviewManager)
    : bool * PreviewManager :=
  match previews m !! previewId with
  | None => (false, m)
  | Some preview =>
      let m1 := call (ServerStop previewId) m in
      match stopResult with
      | Throw e =>
          (false, emit (previewError previewId e)
                    (setStatus previewId StatusError m1))
      | Ok _ =>
          let m2 := call (ServerStart previewId (port preview))
                      (setStatus previewId StatusStarting m1) in
          match startResult with
          | Throw e =>
              (false, emit (previewError previewId e)
                        (setStatus previewId StatusError m2))
          | Ok _ =>
              (true,
               emit (previewRestarted previewId)
                 (touch previewId now (setStatus previewId StatusRunning m2)))
          end
      end
  end.

Definition getPreview (previewId : string) (m : PreviewManager)
    : option PreviewInstance :=
  previews m !! previewId.

Definition autoRestartExtensions : list string :=
  [".js"; ".ts"; ".json"; ".env"].

Definition shouldAutoRestart (filePath : string) : bool :=
  bool_decide (Path.extname filePath ∈ autoRestartExtensions).

(** The "change" listener that setupActivityMonitoring gives the watcher
    of instance [id]; [now'] is the clock when the restart completes. *)
Definition onChange (id : string) (now now' : Z) (path : string)
    (stopResult startResult : result unit) (m : PreviewManager)
    : PreviewManager :=
  let m1 := emit (fileChanged id path) (touch id now m) in
  if shouldAutoRestart path
  then (restartPreview id now' stopResult startResult m1).2
  else m1.

(** A change notification from the watcher of instance [id], if it has
    one. *)
Definition fileChange (id : string) (now now' : Z) (path : string)
    (stopResult startResult : result unit) (m : PreviewManager)
    : PreviewManager :=
  if bool_decide (id ∈ watching m)
  then onChange id now now' path stopResult startResult m
  else m.

(** createPreview as the event loop runs it: one piece at a time, other
    work being free to run wherever the call awaits. *)
Record Call : Type := {
  call_id : string;
  call_now : Z;
  call_projectPath : string;
  call_config : PreviewConfig
}.

Inductive phase : Type :=
  | NotStarted
  | Probing (port : Z) (left : nat)   (* awaiting isPortAvailable(port) *)
  | Starting (port : Z)               (* awaiting server.start() *)
  | Finished (r : result unit).

(** What wakes a call up: the first run of its body, the answer of the
    operating system to a bind test, or the settling of server.start(). *)
Inductive resumption : Type :=
  | Begin
  | BindTested (free : bool)
  | StartSettled (r : result unit) (readdirOk : bool).

(** The loop of findAvailablePort runs without suspending over the ports
    found in usedPorts, up to the first port it has to bind-test. *)
Fixpoint nextCandidate (used : gset Z) (port : Z) (count : nat)
    : option (Z * nat) :=
  match count with
  | O => None
  | S n =>
      if bool_decide (port ∈ used) then nextCandidate used (port + 1) n
      else Some (port, n)
  end.

Definition probe (m : PreviewManager) (port : Z) (count : nat) : phase :=
  match nextCandidate (usedPorts m) port count with
  | Some (p, n) => Probing p n
  | None => Finished (Throw noPorts)
  end.

(** One uninterrupted piece of createPreview.  A call woken up by a
    successful bind test returns the port from findAvailablePort and
    registers it without reading usedPorts again; after a failed test the
    loop goes on from the next port against the set as it is then. *)
Definition advance (c : Call) (ph : phase) (r : resumption)
    (m : PreviewManager) : phase * PreviewManager :=
  match ph, r with
  | NotStarted, Begin =>
      match explicitPort (call_config c) with
      | Some p =>
          (Starting p,
           register (call_id c) (call_now c) (call_projectPath c)
                    (call_config c) p m)
      | None => (probe m (portRange m).1 (rangeCount m), m)
      end
  | Probing p n, BindTested true =>
      (Starting p,
       register (call_id c) (call_now c) (call_projectPath c)
                (call_config c) p m)
  | Probing p n, BindTested false => (probe m (p + 1) n, m)
  | Starting p, StartSettled (Ok _) readdirOk =>
      (Finished (Ok tt), started (call_id c) readdirOk m)
  | Starting p, StartSettled (Throw e) _ =>
      (Finished (Throw e), startFailed (call_id c) e m)
  | _, _ => (ph, m)
  end.

(** Two calls in flight over one manager. *)
Record Pair : Type := {
  first : phase;
  second : phase;
  manager : PreviewManager
}.

Inductive turn : Type :=
  | First (r : resumption)
  | Second (r : resumption).

Definition schedule_step (c1 c2 : Call) (s : Pair) (t : turn) : Pair :=
  match t with
  | First r =>
      let '(ph, m) := advance c1 (first s) r (manager s) in
      {| first := ph; second := second s; manager := m |}
  | Second r =>
      let '(ph, m) := advance c2 (second s) r (manager s) in
      {| first := first s; second := ph; manager := m |}
  end.

Definition schedule (c1 c2 : Call) (turns : list turn) (m : PreviewManager)
    : Pair :=
  fold_left (schedule_step c1 c2) turns
    {| first := NotStarted; second := NotStarted; manager := m |}.

(** A call is woken by a successful bind test of a port that is in
    usedPorts by then: the port was added while the call was suspended,
    and the call goes on to register it without looking again. *)
Definition stale (ph : phase) (r : resumption) (m : PreviewManager) : bool :=
  match ph, r with
  | Probing p _, BindTested true => bool_decide (p ∈ usedPorts m)
  | _, _ => false
  end.

Definition staleAt (s : Pair) (t : turn) : bool :=
  match t with
  | First r => stale (first s) r (manager s)
  | Second r => stale (second s) r (manager s)
  end.

(** Some turn of the schedule, run from [s], is such a wake-up. *)
Fixpoint staleProbe (c1 c2 : Call) (s : Pair) (turns : list turn) : bool :=
  match turns with
  | [] => false
  | t :: rest =>
      staleAt s t || staleProbe c1 c2 (schedule_step c1 c2 s t) rest
  end.

(** What one call knows about the registry between its pieces: its own
    instance holds a used port; it has no instance before it registers;
    and the port in whose bind test it is suspended is in usedPorts only
    if the other call has registered it in the meantime. *)
Definition call_inv (id id' : string) (ph : phase) (m : PreviewManager)
    : Prop :=
  (∀ i, previews m !! id = Some i → port i ∈ usedPorts m)
  ∧ match ph with
    | NotStarted | Probing _ _ => previews m !! id = None
    | _ => True
    end
  ∧ ∀ p n, ph = Probing p n → p ∈ usedPorts m →
      ∃ i', previews m !! id' = Some i' ∧ port i' = p.

(** Both calls have an instance, on the same port. *)
Definition clash (id id' : string) (m : PreviewManager) : Prop :=
  ∃ i i', previews m !! id = Some i ∧ previews m !! id' = Some i'
          ∧ port i = port i'.

(** The two calls are suspended in the bind test of one and the same
    port. *)
Definition sameProbe (s : Pair) : bool :=
  match first s, second s with
  | Probing p _, Probing q _ => bool_decide (p = q)
  | _, _ => false
  end.

(** [s], or a later state of the schedule run from [s], is such a
    state. *)
Fixpoint everSameProbe (c1 c2 : Call) (s : Pair) (turns : list turn)
    : bool :=
  match turns with
  | [] => sameProbe s
  | t :: rest =>
      sameProbe s || everSameProbe c1 c2 (schedule_step c1 c2 s t) rest
  end.

(** One call run alone to completion. *)
Fixpoint drive (fuel : nat) (c : Call) (isPortAvailable : Z → bool)
    (startResult : result unit) (readdirOk : bool)
    (ph : phase) (m : PreviewManager) : phase * PreviewManager :=
  match fuel with
  | O => (ph, m)
  | S fuel' =>
      match ph with
      | Finished _ => (ph, m)
      | NotStarted =>
          let '(ph', m') := advance c ph Begin m in
          drive fuel' c isPortAvailable startResult readdirOk ph' m'
      | Probing p _ =>
          let '(ph', m') := advance c ph (BindTested (isPortAvailable p)) m in
          drive fuel' c isPortAvailable startResult readdirOk ph' m'
      | Starting _ =>
          let '(ph', m') :=
            advance c ph (StartSettled startResult readdirOk) m in
          drive fuel' c isPortAvailable startResult readdirOk ph' m'
      end
  end.

Definition noPort : PreviewConfig :=
  {| config_port := None; config_host := None |}.

(** One call on the manager run to completion, or a change notification
    from a watcher, with what the outside world answers. *)
Inductive op : Type :=
  | OpCreate (id : string) (now : Z) (projectPath : string)
      (config : PreviewConfig) (isPortAvailable : Z → bool)
      (startResult : result unit) (readdirOk : bool)
  | OpStop (previewId : string) (stopResult : result unit)
  | OpRestart (previewId : string) (now : Z)
      (stopResult startResult : result unit)
  | OpFileChange (id : string) (now now' : Z) (path : string)
      (stopResult startResult : result unit).

Definition step (m : PreviewManager) (o : op) : PreviewManager :=
  match o with
  | OpCreate id now projectPath config isPortAvailable startResult readdirOk =>
      (createPreview id now projectPath config isPortAvailable startResult
         readdirOk m).2
  | OpStop previewId stopResult => (stopPreview previewId stopResult m).2
  | OpRestart previewId now stopResult startResult =>
      (restartPreview previewId now stopResult startResult m).2
  | OpFileChange id now now' path stopResult startResult =>
      fileChange id now now' path stopResult startResult m
  end.

Definition run (m : PreviewManager) (ops : list op) : PreviewManager :=
  fold_left step ops m.

(** The call leaves the choice of the port to the manager. *)
Definition managedPort (o : op) : Prop :=
  match o with
  | OpCreate _ _ _ config _ _ _ => explicitPort config = None
  | _ => True
  end.

(** Every registered instance holds a used port within the range, and no
    two instances hold the same port. *)
Definition portsDistinct (m : PreviewManager) : Prop :=
  (∀ k p, previews m !! k = Some p →
     port p ∈ usedPorts m
     ∧ (portRange m).1 <= port p <= (portRange m).2)
  ∧ ∀ k1 k2 p1 p2,
      k1 ≠ k2 → previews m !! k1 = Some p1 → previews m !! k2 = Some p2 →
      port p1 ≠ port p2.

(** [m'] has instances of [m] only, on the ports they had, and the same
    used ports and range. *)
Definition keepsPorts (m m' : PreviewManager) : Prop :=
  usedPorts m' = usedPorts m
  ∧ portRange m' = portRange m
  ∧ ∀ k p, previews m' !! k = Some p →
      ∃ p0, previews m !! k = Some p0 ∧ port p0 = port p.

End Preview.

(* --------------------------------------------------------------------- *)
(*  performance-monitor.ts : PerformanceMonitor                          *)
(* --------------------------------------------------------------------- *)

Module Monitor.

(** Array.prototype.slice(-n) for a positive n: the last n elements. *)
Definition lastN {A} (n : nat) (l : list A) : list A :=
  drop (length l - n) l.

(** [arr.push(x); if (arr.length > cap) arr = arr.slice(-cap)], the
    pattern of recordMetric and recordFileOperation. *)
Definition pushCapped {A} (cap : nat) (x : A) (l : list A) : list A :=
  let l' := l ++ [x] in
  if bool_decide (cap < length l')%nat then lastN cap l' else l'.

Definition maxMetrics : nat := 1000.
Definition maxFileOperationTimes : nat := 100.

Section WithNumber.
(** The type of JavaScript numbers, with the two constants the monitor
    uses itself. *)
Context {V : Type} (zero one : V).

Record PerformanceMetric : Type := {
  name : string;
  value : V;
  timestamp : Z;
  tags : option (list (string * string))
}.

(** The timer and the system metrics it collects are not modelled;
    [emitted] holds the payloads of the "metric" events. *)
Record PerformanceMonitor : Type := {
  metrics : list PerformanceMetric;
  fileOperations : Z;
  fileOperationTimes : list V;
  terminalCommands : Z;
  activeSessions : V;
  emitted : list PerformanceMetric
}.

Definition new : PerformanceMonitor :=
  {| metrics := []; fileOperations := 0; fileOperationTimes := [];
     terminalCommands := 0; activeSessions := zero; emitted := [] |}.

(** [now] is the value of Date.now(). *)
Definition recordMetric (now : Z) (name : string) (value : V)
    (tags : option (list (string * string))) (m : PerformanceMonitor)
    : PerformanceMonitor :=
  let metric := {| name := name; value := value; timestamp := now;
                   tags := tags |} in
  {| metrics := pushCapped maxMetrics metric (metrics m);
     fileOperations := fileOperations m;
     fileOperationTimes := fileOperationTimes m;
     terminalCommands := terminalCommands m;
     activeSessions := activeSessions m;
     emitted := emitted m ++ [metric] |}.

Definition recordFileOperation (now : Z) (operationType : string)
    (duration : V) (m : PerformanceMonitor) : PerformanceMonitor :=
  let m1 :=
    {| metrics := metrics m;
       fileOperations := fileOperations m + 1;
       fileOperationTimes :=
         pushCapped maxFileOperationTimes duration (fileOperationTimes m);
       terminalCommands := terminalCommands m;
       activeSessions := activeSessions m;
       emitted := emitted m |} in
  recordMetric now "file_operation" duration
    (Some [("type", operationType)]) m1.

Definition recordTerminalCommand (now : Z) (m : PerformanceMonitor)
    : PerformanceMonitor :=
  let m1 :=
    {| metrics := metrics m;
       fileOperations := fileOperations m;
       fileOperationTimes := fileOperationTimes m;
       terminalCommands := terminalCommands m + 1;
       activeSessions := activeSessions m;
       emitted := emitted m |} in
  recordMetric now "terminal_command" one None m1.

Definition setActiveSessions (now : Z) (count : V) (m : PerformanceMonitor)
    : PerformanceMonitor :=
  let m1 :=
    {| metrics := metrics m;
       fileOperations := fileOperations m;
       fileOperationTimes := fileOperationTimes m;
       terminalCommands := terminalCommands m;
       activeSessions := count;
       emitted := emitted m |} in
  recordMetric now "active_sessions" count None m1.

(** getMetrics(name?, since?): an absent or empty name and an absent or
    zero since do not filter. *)
Definition getMetrics (metricName : option string) (since : option Z)
    (m : PerformanceMonitor) : list PerformanceMetric :=
  let filtered := metrics m in
  let filtered :=
    match truthy metricName with
    | Some n => filter (λ x, name x = n) filtered
    | None => filtered
    end in
  match since with
  | Some s =>
      if bool_decide (s = 0) then filtered
      else filter (λ x, timestamp x >= s) filtered
  | None => filtered
  end.

(** One recording call, with the clock reading it makes. *)
Inductive op : Type :=
  | OpRecordMetric (now : Z) (name : string) (value : V)
      (tags : option (list (string * string)))
  | OpRecordFileOperation (now : Z) (operationType : string) (duration : V)
  | OpRecordTerminalCommand (now : Z)
  | OpSetActiveSessions (now : Z) (count : V).

Definition step (m : PerformanceMonitor) (o : op) : PerformanceMonitor :=
  match o with
  | OpRecordMetric now name value tags => recordMetric now name value tags m
  | OpRecordFileOperation now operationType duration =>
      recordFileOperation now operationType duration m
  | OpRecordTerminalCommand now => recordTerminalCommand now m
  | OpSetActiveSessions now count => setActiveSessions now count m
  end.

Definition run (m : PerformanceMonitor) (ops : list op) : PerformanceMonitor :=
  fold_left step ops m.

(** The durations passed to recordFileOperation, in call order. *)
Definition durations (ops : list op) : list V :=
  omap (λ o, match o with
             | OpRecordFileOperation _ _ duration => Some duration
             | _ => None
             end) ops.

End WithNumber.

End Monitor.

(* --------------------------------------------------------------------- *)
(*  Sample states                                                        *)
(* --------------------------------------------------------------------- *)

(** A full store of two entries: "a" was hit five times and is two
    seconds old at time 2000 (score 7), "b" was never hit and is one
    second old (score 1). *)
Definition two_entries : Cache.CacheManager string :=
  {| Cache.cache :=
       [("a", {| Cache.value := "A"; Cache.timestamp := 0;
                 Cache.ttl := 60000; Cache.hits := 5 |});
        ("b", {| Cache.value := "B"; Cache.timestamp := 1000;
                 Cache.ttl := 60000; Cache.hits := 0 |})];
     Cache.maxSize := 2; Cache.defaultTTL := 60000; Cache.emitted := [] |}.





(** A full store whose two entries have the same exact score at time
    1118, 1118/1000 and 1 + 118/1000, but not the same double: the second
    sum is rounded down to 1.1179999999999999. *)
Definition rounded_entries : Cache.CacheManager string :=
  {| Cache.cache :=
       [("p", {| Cache.value := "P"; Cache.timestamp := 0;
                 Cache.ttl := 60000; Cache.hits := 0 |});
        ("q", {| Cache.value := "Q"; Cache.timestamp := 1000;
                 Cache.ttl := 60000; Cache.hits := 1 |})];
     Cache.maxSize := 2; Cache.defaultTTL := 60000; Cache.emitted := [] |}.

(** A full store whose three entries all score 2 at time 2000: "x" was
    never hit and is two seconds old, "y" was hit once and is one second
    old, "z" was hit twice and is new. *)
Definition tied_entries : Cache.CacheManager string :=
  {| Cache.cache :=
       [("x", {| Cache.value := "X"; Cache.timestamp := 0;
                 Cache.ttl := 60000; Cache.hits := 0 |});
        ("y", {| Cache.value := "Y"; Cache.timestamp := 1000;
                 Cache.ttl := 60000; Cache.hits := 1 |});
        ("z", {| Cache.value := "Z"; Cache.timestamp := 2000;
                 Cache.ttl := 60000; Cache.hits := 2 |})];
     Cache.maxSize := 3; Cache.defaultTTL := 60000; Cache.emitted := [] |}.

(* --------------------------------------------------------------------- *)
(*  Shapes of paths                                                      *)
(* --------------------------------------------------------------------- *)

(** A string without separator. *)
Fixpoint slashFree (s : string) : bool :=
  match s with
  | EmptyString => true
  | String c r => negb (bool_decide (c = Path.slash)) && slashFree r
  end.

(** A segment that normalizeString keeps as it is: a name other than the
    empty string, "." and "..". *)
Definition properSegment (s : string) : bool :=
  slashFree s
  && negb (bool_decide (s = ""))
  && negb (bool_decide (s = "."))
  && negb (bool_decide (s = "..")).

(** The segments of a relative path that name something: all but the
    empty ones and ".". *)
Definition namedSegments (p : string) : list string :=
  filter (λ s, s ≠ "" ∧ s ≠ ".") (Path.segments p).

(* ===================================================================== *)
(*  Properties                                                           *)
(* ===================================================================== *)

Example resolve_ex1 : Path.resolve "/home/u" ["proj"; "../x/./y//z/"] = "/home/u/x/y/z".
Proof. vm_compute. reflexivity. Qed.
Example resolve_ex2 : Path.resolve "/home/u" ["/a/b"; "../../../c"] = "/c".
Proof. vm_compute. reflexivity. Qed.
Example dirname_ex1 : Path.dirname "/a/b/c.txt" = "/a/b".
Proof. vm_compute. reflexivity. Qed.
Example dirname_ex2 : Path.dirname "/a" = "/".
Proof. vm_compute. reflexivity. Qed.
Example extname_ex1 : Path.extname "src/index.ts" = ".ts".
Proof. vm_compute. reflexivity. Qed.
Example extname_ex2 : Path.extname "dir/.env" = "".
Proof. vm_compute. reflexivity. Qed.
Example extname_ex3 : Path.extname "a.b/.." = "".
Proof. vm_compute. reflexivity. Qed.
Example extname_ex4 : Path.extname "x/..a.md/" = ".md".
Proof. vm_compute. reflexivity. Qed.
Example resolvePath_inside :
  NodeFS.resolvePath "/" (NodeFS.new "/" "/work") "a/../b.txt" = Ok "/work/b.txt".
Proof. vm_compute. reflexivity. Qed.
Example resolvePath_parent :
  is_ok (NodeFS.resolvePath "/" (NodeFS.new "/" "/work") "../etc/passwd") = false.
Proof. vm_compute. reflexivity. Qed.
Example resolvePath_sibling :
  NodeFS.resolvePath "/" (NodeFS.new "/" "/work") "../work2/secret" = Ok "/work2/secret".
Proof. vm_compute. reflexivity. Qed.
Example isWithin_sibling : NodeFS.isWithin "/work" "/work2/secret" = false.
Proof. vm_compute. reflexivity. Qed.
Example isWithin_child : NodeFS.isWithin "/work" "/work/a/b" = true.
Proof. vm_compute. reflexivity. Qed.

(* --------------------------------------------------------------------- *)
(*  path.extname on a file name with an extension                        *)
(* --------------------------------------------------------------------- *)

Lemma append_nil_l s : "" +:+ s = s.
Proof. reflexivity. Qed.

Lemma append_cons a pre s : String a pre +:+ s = String a (pre +:+ s).
Proof. reflexivity. Qed.

Lemma append_cons_mid pre a s :
  pre +:+ String a s = (pre +:+ String a "") +:+ s.
Proof.
  induction pre as [|b pre IH]; [done|]. by rewrite !append_cons, IH.
Qed.

Lemma charAt_app_r pre s k :
  Path.charAt (pre +:+ s) (k + String.length pre) = Path.charAt s k.
Proof.
  unfold Path.charAt. induction pre as [|a pre IH].
  - rewrite append_nil_l. simpl. by rewrite Nat.add_0_r.
  - rewrite append_cons. simpl. by rewrite Nat.add_succ_r.
Qed.

Lemma length_app pre s :
  String.length (pre +:+ s) = (String.length s + String.length pre)%nat.
Proof.
  induction pre as [|a pre IH].
  - rewrite append_nil_l. simpl. lia.
  - rewrite append_cons. simpl. lia.
Qed.

Lemma substring_app_r pre s n :
  substring (String.length pre) n (pre +:+ s) = substring 0 n s.
Proof.
  induction pre as [|a pre IH]; [done|]. by rewrite append_cons.
Qed.

Lemma substring_all s : substring 0 (String.length s) s = s.
Proof. induction s as [|a s IH]; simpl; [done | by rewrite IH]. Qed.

Lemma charAt_lt s k :
  (k < String.length s)%nat → ∃ code, Path.charAt s k = Some code.
Proof.
  unfold Path.charAt. revert k.
  induction s as [|a s IH]; intros k Hk; simpl in *; [lia|].
  destruct k as [|k]; [by eexists|]. apply IH. lia.
Qed.

(** Once a dot with something before it has been seen, the rest of the
    loop keeps the extension found. *)
Lemma extname_loop_settled p : ∀ i st sd e,
  Path.startDot st = Some sd → Path.end_ st = Some e →
  Path.matchedSlash st = false → Path.preDotState st ≠ 0 →
  Path.startDot (Path.extname_loop p i st) = Some sd
  ∧ Path.end_ (Path.extname_loop p i st) = Some e
  ∧ Path.preDotState (Path.extname_loop p i st) ≠ 0.
Proof.
  induction i as [|i IH]; intros st sd e Hsd He Hm Hpd; [done|].
  cbn [Path.extname_loop].
  destruct (Path.charAt p i) as [code|]; [|by apply IH].
  unfold Path.extname_body. rewrite Hm, He, Hsd. simpl.
  case_bool_decide; [done|].
  case_bool_decide.
  - case_bool_decide; apply IH; done.
  - apply IH; done.
Qed.

Section ExtnameOfSuffix.
Variables (pre : string) (c : ascii) (dotless : string).
Hypothesis Hc : c ≠ Path.slash.
Hypothesis Hplain : Path.plain dotless.
Hypothesis Hne : dotless ≠ "".

Local Abbreviation p := (pre +:+ String c (String Path.dot dotless)).
Local Abbreviation L := (String.length pre).
Local Abbreviation D := (String.length dotless).

Lemma suffix_length : String.length p = (D + 2 + L)%nat.
Proof. rewrite length_app. simpl. lia. Qed.

Lemma suffix_at_stem : Path.charAt p L = Some c.
Proof. exact (charAt_app_r pre (String c (String Path.dot dotless)) 0). Qed.

Lemma suffix_at_dot : Path.charAt p (S L) = Some Path.dot.
Proof. exact (charAt_app_r pre (String c (String Path.dot dotless)) 1). Qed.

Lemma suffix_at_tail k : Path.charAt p (k + 2 + L) = Path.charAt dotless k.
Proof.
  replace (k + 2 + L)%nat with (S (S k) + L)%nat by lia.
  by rewrite charAt_app_r.
Qed.

Lemma suffix_nonempty : (1 ≤ D)%nat.
Proof using Hne.
  assert (H : ∀ s, s ≠ "" → (1 ≤ String.length s)%nat).
  { intros [|a s] Hs; [done | simpl; lia]. }
  by apply H.
Qed.

(** Reading the last [n] characters only fixes the end of the name. *)
Lemma extname_loop_tail : ∀ n, (1 ≤ n ≤ D)%nat →
  Path.extname_loop p (D + 2 + L) Path.ext_initial
  = Path.extname_loop p (D - n + 2 + L) (Path.ext_tail (D + 2 + L)).
Proof using Hplain.
  induction n as [|n IH]; intros Hn; [lia|].
  destruct (decide (n = 0)%nat) as [->|Hn0].
  - replace (D + 2 + L)%nat with (S (D - 1 + 2 + L)) at 1 by lia.
    cbn [Path.extname_loop]. rewrite suffix_at_tail.
    destruct (charAt_lt dotless (D - 1)) as [code Hcode]; [lia|].
    rewrite Hcode. destruct (Hplain _ _ Hcode) as [Hs Hd].
    unfold Path.extname_body.
    rewrite (bool_decide_eq_false_2 _ Hs), (bool_decide_eq_false_2 _ Hd).
    simpl. unfold Path.ext_tail. repeat f_equal. lia.
  - rewrite IH by lia.
    replace (D - n + 2 + L)%nat with (S (D - S n + 2 + L)) by lia.
    cbn [Path.extname_loop]. rewrite suffix_at_tail.
    destruct (charAt_lt dotless (D - S n)) as [code Hcode]; [lia|].
    rewrite Hcode. destruct (Hplain _ _ Hcode) as [Hs Hd].
    unfold Path.extname_body.
    by rewrite (bool_decide_eq_false_2 _ Hs), (bool_decide_eq_false_2 _ Hd).
Qed.

(** The loop down to the character before the dot. *)
Lemma extname_loop_stem :
  Path.extname_loop p (String.length p) Path.ext_initial
  = Path.extname_loop p L (Path.ext_stem (S L) (D + 2 + L) c).
Proof using Hc Hplain Hne.
  pose proof suffix_nonempty as HD.
  rewrite suffix_length, (extname_loop_tail D) by lia.
  replace (D - D + 2 + L)%nat with (S (S L)) by lia.
  cbn [Path.extname_loop]. rewrite suffix_at_dot.
  unfold Path.extname_body at 1.
  rewrite bool_decide_eq_false_2 by done.
  rewrite bool_decide_eq_true_2 by done.
  cbn [Path.ext_tail Path.end_ Path.startDot Path.startPart
       Path.matchedSlash Path.preDotState].
  rewrite suffix_at_stem. unfold Path.extname_body.
  rewrite (bool_decide_eq_false_2 _ Hc).
  cbn [Path.end_ Path.startDot Path.startPart Path.matchedSlash
       Path.preDotState].
  unfold Path.ext_stem. case_bool_decide; [|done].
  by rewrite bool_decide_eq_true_2.
Qed.

(** A name that ends in a dot and a non-empty run of plain characters,
    with at least one character of the same component before the dot, has
    that dot and run as its extension. *)
Lemma extname_suffix : Path.extname p = String Path.dot dotless.
Proof using Hc Hplain Hne.
  pose proof suffix_nonempty as HD.
  destruct (extname_loop_settled p L (Path.ext_stem (S L) (D + 2 + L) c)
              (S L) (D + 2 + L)%nat) as (Hsd & He & Hpd); try done.
  { unfold Path.ext_stem. simpl. by case_bool_decide. }
  rewrite <- extname_loop_stem in Hsd, He, Hpd.
  unfold Path.extname. rewrite Hsd, He.
  rewrite (bool_decide_eq_false_2 _ Hpd).
  rewrite (bool_decide_eq_false_2 (S L = (D + 2 + L - 1)%nat)) by lia.
  rewrite andb_false_r. simpl orb. cbv iota.
  replace (D + 2 + L - S L)%nat with (S D) by lia.
  rewrite append_cons_mid.
  replace (S L) with (String.length (pre +:+ String c ""))
    by (rewrite length_app; simpl; lia).
  rewrite substring_app_r. simpl. by rewrite substring_all.
Qed.

End ExtnameOfSuffix.

Lemma plain_ts : Path.plain "ts".
Proof.
  intros k code. unfold Path.charAt.
  destruct k as [|[|k]]; simpl; intros [= <-]; done.
Qed.

Lemma plain_md : Path.plain "md".
Proof.
  intros k code. unfold Path.charAt.
  destruct k as [|[|k]]; simpl; intros [= <-]; done.
Qed.

(* --------------------------------------------------------------------- *)
(*  NodeFileSystem: the sandbox check                                    *)
(* --------------------------------------------------------------------- *)

Section SandboxCheck.
Variable cwd : string.

Lemma resolvePath_Ok_prefix fs filePath resolved :
  NodeFS.resolvePath cwd fs filePath = Ok resolved →
  String.prefix (NodeFS.basePath fs) resolved = true
  ∧ resolved = Path.resolve cwd [NodeFS.basePath fs; filePath].
Proof.
  unfold NodeFS.resolvePath.
  destruct (String.prefix _ _) eqn:Hp; simpl; intros H; [|discriminate].
  injection H as <-. done.
Qed.

Lemma resolvePath_Throw_no_os (os : Os) fs filePath e (d : disk os) :
  NodeFS.resolvePath cwd fs filePath = Throw e →
  NodeFS.readFile cwd os fs filePath d = (Throw e, d)
  ∧ (∀ c, NodeFS.writeFile cwd os fs filePath c d = (Throw e, d))
  ∧ NodeFS.readdir cwd os fs filePath d = (Throw e, d)
  ∧ (∀ r, NodeFS.mkdir cwd os fs filePath r d = (Throw e, d))
  ∧ NodeFS.remove cwd os fs filePath d = (Throw e, d)
  ∧ NodeFS.stat cwd os fs filePath d = (Throw e, d).
Proof.
  intros H.
  unfold NodeFS.readFile, NodeFS.writeFile, NodeFS.readdir, NodeFS.mkdir,
    NodeFS.remove, NodeFS.stat, mbind, io_mbind, io_bind, io_of_result.
  rewrite H. done.
Qed.

End SandboxCheck.

(** C1: a path that resolves outside the root must be rejected before any
    operating-system call.  The check is a string prefix test, so with
    root /work the path ../work2/secret, which resolves to the sibling
    /work2/secret, is accepted and handed to the operating system by all
    six operations. *)
Theorem resolvePath_accepts_sibling_of_root :
  let fs := NodeFS.new "/" "/work" in
  let p := "../work2/secret" in
  NodeFS.basePath fs = "/work"
  ∧ NodeFS.resolvePath "/" fs p = Ok "/work2/secret"
  ∧ NodeFS.isWithin (NodeFS.basePath fs) "/work2/secret" = false
  ∧ ∀ (os : Os) (d : disk os),
      NodeFS.readFile "/" os fs p d = (os_readFile os "/work2/secret" d, d)
      ∧ (∀ c, NodeFS.writeFile "/" os fs p c d =
              io_bind (os_mkdir os "/work2" true)
                      (λ _, os_writeFile os "/work2/secret" c) d)
      ∧ NodeFS.readdir "/" os fs p d = (os_readdir os "/work2/secret" d, d)
      ∧ (∀ r, NodeFS.mkdir "/" os fs p r d = os_mkdir os "/work2/secret" r d)
      ∧ NodeFS.remove "/" os fs p d =
          io_bind (io_lift (os_stat os "/work2/secret"))
                  (λ stats, if isDirectory stats then os_rmdir os "/work2/secret"
                            else os_unlink os "/work2/secret") d
      ∧ NodeFS.stat "/" os fs p d = (os_stat os "/work2/secret" d, d).
Proof.
  assert (Hr : NodeFS.resolvePath "/" (NodeFS.new "/" "/work") "../work2/secret"
               = Ok "/work2/secret") by (vm_compute; reflexivity).
  assert (Hd : Path.dirname "/work2/secret" = "/work2") by (vm_compute; reflexivity).
  cbv zeta. split; [vm_compute; reflexivity|].
  split; [exact Hr|]. split; [vm_compute; reflexivity|].
  intros os d.
  unfold NodeFS.readFile, NodeFS.writeFile, NodeFS.readdir, NodeFS.mkdir,
    NodeFS.remove, NodeFS.stat.
  unfold mbind, io_mbind, io_bind, io_of_result.
  rewrite Hr, Hd. repeat split; done.
Qed.

(* --------------------------------------------------------------------- *)
(*  Insertion-ordered maps                                               *)
(* --------------------------------------------------------------------- *)

Section OrderedMapFacts.
Context {V : Type}.
Implicit Types (l : list (string * V)) (k : string) (v : V).

Lemma al_lookup_set_eq k v l : al_lookup k (al_set k v l) = Some v.
Proof.
  induction l as [|[k' v'] r IH]; simpl.
  - by rewrite bool_decide_eq_true_2.
  - destruct (bool_decide (k' = k)) eqn:E; simpl.
    + by rewrite bool_decide_eq_true_2.
    + by rewrite E.
Qed.

Lemma al_lookup_set_ne k k' v l :
  k ≠ k' → al_lookup k' (al_set k v l) = al_lookup k' l.
Proof.
  intros Hne. induction l as [|[k0 v0] r IH]; simpl.
  - by rewrite bool_decide_eq_false_2.
  - destruct (bool_decide (k0 = k)) eqn:E; simpl.
    + apply bool_decide_eq_true in E as ->.
      by rewrite !bool_decide_eq_false_2.
    + by rewrite IH.
Qed.

Lemma al_lookup_filter (P : string → Prop) `{Hdec : ∀ k, Decision (P k)} k l :
  al_lookup k (filter (λ kv, P kv.1) l)
  = if decide (P k) then al_lookup k l else None.
Proof.
  induction l as [|[k0 v0] r IH]; simpl.
  - by destruct (decide (P k)).
  - rewrite filter_cons. simpl.
    destruct (decide (P k0)) as [Hk0|Hk0]; simpl.
    + destruct (bool_decide (k0 = k)) eqn:E; [|exact IH].
      apply bool_decide_eq_true in E as <-. by rewrite decide_True.
    + rewrite IH. destruct (decide (P k)) as [Hk|]; [|done].
      rewrite bool_decide_eq_false_2; [done|congruence].
Qed.

Lemma al_lookup_delete k k' l :
  al_lookup k' (al_delete k l) = if decide (k = k') then None else al_lookup k' l.
Proof.
  unfold al_delete. induction l as [|[k0 v0] r IH]; simpl.
  - by destruct (decide (k = k')).
  - rewrite filter_cons. simpl.
    destruct (decide (k0 ≠ k)) as [Hk0|Hk0]; simpl.
    + rewrite IH. destruct (decide (k = k')) as [<-|Hne].
      * by rewrite bool_decide_eq_false_2.
      * done.
    + assert (k0 = k) as -> by (by destruct (decide (k0 = k))).
      rewrite IH. destruct (decide (k = k')) as [<-|Hne]; [done|].
      by rewrite bool_decide_eq_false_2.
Qed.

Lemma al_lookup_delete_eq k l : al_lookup k (al_delete k l) = None.
Proof. rewrite al_lookup_delete. by rewrite decide_True. Qed.

Lemma al_lookup_delete_ne k k' l :
  k ≠ k' → al_lookup k' (al_delete k l) = al_lookup k' l.
Proof. intros Hne. rewrite al_lookup_delete. by rewrite decide_False. Qed.

Lemma al_lookup_Some_elem k v l : al_lookup k l = Some v → (k, v) ∈ l.
Proof.
  induction l as [|[k0 v0] r IH]; simpl; [done|].
  destruct (bool_decide (k0 = k)) eqn:E.
  - apply bool_decide_eq_true in E as ->. intros [= ->]. left.
  - intros Hl. right. by apply IH.
Qed.

Lemma al_lookup_None_keys k l : al_lookup k l = None ↔ k ∉ al_keys l.
Proof.
  unfold al_keys. induction l as [|[k0 v0] r IH]; simpl.
  - split; [intros _; apply not_elem_of_nil | done].
  - rewrite not_elem_of_cons.
    destruct (bool_decide (k0 = k)) eqn:E.
    + apply bool_decide_eq_true in E as ->. split; [done | intros [? _]; done].
    + apply bool_decide_eq_false in E. rewrite IH. split; [|tauto].
      intros Hn. split; [congruence | done].
Qed.

Lemma al_lookup_elem_NoDup k v l :
  NoDup (al_keys l) → (k, v) ∈ l → al_lookup k l = Some v.
Proof.
  unfold al_keys. induction l as [|[k0 v0] r IH]; simpl.
  - intros _ Hin. by apply elem_of_nil in Hin.
  - intros Hnd Hin. apply NoDup_cons in Hnd as [Hk0 Hnd].
    apply elem_of_cons in Hin as [[= <- <-]|Hin].
    + by rewrite bool_decide_eq_true_2.
    + rewrite bool_decide_eq_false_2; [by apply IH|].
      intros ->. apply Hk0. apply list_elem_of_fmap. by exists (k, v).
Qed.

Lemma al_keys_set k v l :
  al_keys (al_set k v l) = if bool_decide (k ∈ al_keys l) then al_keys l
                           else al_keys l ++ [k].
Proof.
  unfold al_keys. induction l as [|[k0 v0] r IH]; simpl; [done|].
  destruct (bool_decide (k0 = k)) eqn:E.
  - apply bool_decide_eq_true in E as ->.
    rewrite bool_decide_eq_true_2; [done | left].
  - apply bool_decide_eq_false in E. rewrite fmap_cons, IH. simpl.
    destruct (bool_decide (k ∈ r.*1)) eqn:E2.
    + apply bool_decide_eq_true in E2.
      rewrite bool_decide_eq_true_2; [done | by right].
    + apply bool_decide_eq_false in E2.
      rewrite bool_decide_eq_false_2; [done|].
      rewrite elem_of_cons. intros [->|?]; done.
Qed.

Lemma al_set_NoDup k v l : NoDup (al_keys l) → NoDup (al_keys (al_set k v l)).
Proof.
  intros Hnd. rewrite al_keys_set. case_bool_decide as Hin; [done|].
  apply NoDup_app. split; [done|]. split; [|apply NoDup_singleton].
  intros x Hx Hx'. apply list_elem_of_singleton in Hx' as ->. done.
Qed.

Lemma al_keys_filter (P : string * V → Prop) `{∀ x, Decision (P x)} l :
  al_keys (filter P l) `sublist_of` al_keys l.
Proof. unfold al_keys. apply fmap_sublist, sublist_filter. Qed.

Lemma al_delete_NoDup k l : NoDup (al_keys l) → NoDup (al_keys (al_delete k l)).
Proof. intros Hnd. eapply sublist_NoDup; [done | apply al_keys_filter]. Qed.




Lemma al_keys_delete_subseteq k l : al_keys (al_delete k l) ⊆ al_keys l.
Proof. apply sublist_subseteq, al_keys_filter. Qed.

Lemma al_keys_set_subseteq k v l x :
  x ∈ al_keys (al_set k v l) → x = k ∨ x ∈ al_keys l.
Proof.
  rewrite al_keys_set. case_bool_decide; [by right|].
  rewrite elem_of_app, list_elem_of_singleton. tauto.
Qed.

End OrderedMapFacts.

(* --------------------------------------------------------------------- *)
(*  CacheManager                                                         *)
(* --------------------------------------------------------------------- *)

Section DoubleFacts.
Local Open Scope Z_scope.


Lemma digits2_pos_bounds p :
  2 ^ (Zpos (digits2_pos p) - 1) <= Zpos p < 2 ^ Zpos (digits2_pos p).
Proof.
  induction p as [p IH|p IH|]; simpl digits2_pos.
  - rewrite Pos2Z.inj_succ.
    replace (Z.succ (Zpos (digits2_pos p)) - 1) with (Z.succ (Zpos (digits2_pos p) - 1)) by lia.
    rewrite !Z.pow_succ_r by lia. lia.
  - rewrite Pos2Z.inj_succ.
    replace (Z.succ (Zpos (digits2_pos p)) - 1) with (Z.succ (Zpos (digits2_pos p) - 1)) by lia.
    rewrite !Z.pow_succ_r by lia. lia.
  - simpl. lia.
Qed.

(** A non-negative integer has at most [d] binary digits exactly when it
    is below 2^d. *)
Lemma Zdigits2_le m d :
  0 <= m → 0 <= d → (Zdigits2 m <= d ↔ m < 2 ^ d).
Proof.
  intros Hm Hd. destruct m as [|p|p]; [|simpl|lia].
  - simpl. split; [intros _; apply Z.pow_pos_nonneg; lia | lia].
  - pose proof (digits2_pos_bounds p) as [Hlo Hhi]. split.
    + intros Hle. eapply Z.lt_le_trans; [exact Hhi|].
      apply Z.pow_le_mono_r; lia.
    + intros Hlt.
      destruct (Z_lt_le_dec d (Zpos (digits2_pos p))) as [Hgt|]; [|done].
      exfalso. assert (2 ^ d <= 2 ^ (Zpos (digits2_pos p) - 1))
        by (apply Z.pow_le_mono_r; lia). lia.
Qed.

Lemma Zdigits2_nonneg m : 0 <= Zdigits2 m.
Proof. destruct m; simpl; lia. Qed.

Lemma Zdigits2_mono a b : 0 <= a <= b → Zdigits2 a <= Zdigits2 b.
Proof.
  intros [Ha Hab]. apply Zdigits2_le; [done | apply Zdigits2_nonneg|].
  eapply Z.le_lt_trans; [exact Hab|].
  apply Zdigits2_le; [lia | apply Zdigits2_nonneg | lia].
Qed.

Lemma Zdigits2_succ m : 0 <= m → Zdigits2 (m + 1) <= Zdigits2 m + 1.
Proof.
  intros Hm. pose proof (Zdigits2_nonneg m).
  apply Zdigits2_le; [lia | lia|].
  assert (m < 2 ^ Zdigits2 m) by (apply Zdigits2_le; lia).
  rewrite Z.pow_add_r by lia. lia.
Qed.

Lemma Zdigits2_add a b d :
  0 <= a → 0 <= b → 0 <= d → Zdigits2 a <= d → Zdigits2 b <= d →
  Zdigits2 (a + b) <= d + 1.
Proof.
  intros Ha Hb Hd Hda Hdb. apply Zdigits2_le; [lia | lia|].
  apply Zdigits2_le in Hda; [|lia|lia]. apply Zdigits2_le in Hdb; [|lia|lia].
  rewrite Z.pow_add_r by lia. lia.
Qed.

Lemma Zdigits2_shift p d :
  Zpos (digits2_pos (Pos.iter xO p d)) = Zpos (digits2_pos p) + Zpos d.
Proof.
  induction d as [|d IH] using Pos.peano_ind.
  - simpl. lia.
  - rewrite Pos.iter_succ. simpl digits2_pos. lia.
Qed.




Lemma within_mono K K' x : K <= K' → Double.within K x → Double.within K' x.
Proof. destruct x; simpl; try done. lia. Qed.

Lemma shr_1_digits mrs :
  0 <= shr_m mrs →
  0 <= shr_m (shr_1 mrs)
  ∧ Zdigits2 (shr_m (shr_1 mrs)) = Z.max 0 (Zdigits2 (shr_m mrs) - 1).
Proof.
  destruct mrs as [m r s]. simpl shr_m at 1 2. intros Hm.
  destruct m as [|[p|p|]|p]; simpl; try lia.
Qed.

Lemma iter_shr_1_digits p : ∀ mrs,
  0 <= shr_m mrs →
  0 <= shr_m (SpecFloat.iter_pos shr_1 p mrs)
  ∧ Zdigits2 (shr_m (SpecFloat.iter_pos shr_1 p mrs))
    = Z.max 0 (Zdigits2 (shr_m mrs) - Zpos p).
Proof.
  induction p as [p IH|p IH|]; intros mrs Hm; simpl SpecFloat.iter_pos.
  - destruct (shr_1_digits mrs Hm) as [H1 D1].
    destruct (IH _ H1) as [H2 D2]. destruct (IH _ H2) as [H3 D3].
    split; [done|]. rewrite D3, D2, D1. lia.
  - destruct (IH _ Hm) as [H2 D2]. destruct (IH _ H2) as [H3 D3].
    split; [done|]. rewrite D3, D2. lia.
  - destruct (shr_1_digits mrs Hm) as [H1 D1]. split; [done|]. by rewrite D1.
Qed.

Lemma shr_record_of_loc_m m l : shr_m (shr_record_of_loc m l) = m.
Proof. by destruct l as [|[]]. Qed.

Lemma shr_fexp_bound m e l K :
  0 <= m → Zdigits2 m + e <= K → -1074 <= K →
  0 <= shr_m (shr_fexp 53 1024 m e l).1
  ∧ (shr_fexp 53 1024 m e l).2 <= K
  ∧ Zdigits2 (shr_m (shr_fexp 53 1024 m e l).1) + (shr_fexp 53 1024 m e l).2
    <= K.
Proof.
  intros Hm HK Hmin. pose proof (Zdigits2_nonneg m) as HD.
  unfold shr_fexp, shr, fexp, emin.
  destruct (Z.max (Zdigits2 m + e - 53) (3 - 1024 - 53) - e) as [|p|p] eqn:Hn;
    simpl; rewrite ?shr_record_of_loc_m; try (split; [done|lia]).
  destruct (iter_shr_1_digits p (shr_record_of_loc m l)) as [H1 D1];
    [by rewrite shr_record_of_loc_m|].
  rewrite shr_record_of_loc_m in D1. split; [done|]. rewrite D1. lia.
Qed.

Lemma round_nearest_even_bound m l :
  0 <= m →
  0 <= round_nearest_even m l
  ∧ Zdigits2 (round_nearest_even m l) <= Zdigits2 m + 1.
Proof.
  intros Hm. pose proof (Zdigits2_succ m Hm). pose proof (Zdigits2_nonneg m).
  destruct l as [|[]]; simpl; try (split; lia).
  destruct (Z.even m); split; lia.
Qed.

Lemma binary_round_aux_within sx mx ex lx K :
  0 <= mx → Zdigits2 mx + ex <= K → -1074 <= K → K + 1 <= 971 →
  Double.within (K + 1) (binary_round_aux 53 1024 sx mx ex lx).
Proof.
  intros Hm HK Hmin Hmax. unfold binary_round_aux.
  destruct (shr_fexp_bound mx ex lx K Hm HK Hmin) as (H1 & E1 & D1).
  destruct (shr_fexp 53 1024 mx ex lx) as [mrs' e']. simpl in H1, E1, D1.
  destruct (round_nearest_even_bound (shr_m mrs') (loc_of_shr_record mrs') H1)
    as [H2 D2].
  destruct (shr_fexp_bound (round_nearest_even (shr_m mrs')
                              (loc_of_shr_record mrs')) e' loc_Exact (K + 1)
              H2 ltac:(lia) ltac:(lia)) as (H3 & E3 & D3).
  destruct (shr_fexp 53 1024 _ e' loc_Exact) as [mrs'' e'']. simpl in H3, E3, D3.
  destruct (shr_m mrs'') as [|m|m]; simpl; [done| |lia].
  replace (e'' <=? 1024 - 53) with true by (symmetry; apply Z.leb_le; lia).
  simpl in D3. simpl. lia.
Qed.

Lemma shl_align_digits mx ex ex' :
  Zpos (digits2_pos (shl_align mx ex ex').1) + (shl_align mx ex ex').2
  = Zpos (digits2_pos mx) + ex.
Proof.
  unfold shl_align. destruct (ex' - ex) as [|d|d] eqn:Hd; simpl; try done.
  rewrite Zdigits2_shift. lia.
Qed.

Lemma shl_align_fst mx ex ez :
  ez <= ex →
  Zpos (digits2_pos (fst (shl_align mx ex ez))) = Zpos (digits2_pos mx) + (ex - ez).
Proof.
  intros Hle. unfold shl_align. destruct (ez - ex) as [|d|d] eqn:Hd; simpl.
  - lia.
  - lia.
  - rewrite Zdigits2_shift. lia.
Qed.

Lemma binary_round_within sx mx ex K :
  Zpos (digits2_pos mx) + ex <= K → -1074 <= K → K + 1 <= 971 →
  Double.within (K + 1) (binary_round 53 1024 sx mx ex).
Proof.
  intros HK Hmin Hmax. unfold binary_round.
  pose proof (shl_align_digits mx ex
                (fexp 53 1024 (Zpos (digits2_pos mx) + ex))) as Hd.
  destruct (shl_align mx ex _) as [mz ez]. simpl in Hd.
  apply binary_round_aux_within; [lia | simpl; lia | done | done].
Qed.

Lemma binary_normalize_within m e sz K :
  Zdigits2 m + e <= K → -1074 <= K → K + 1 <= 971 →
  Double.within (K + 1) (binary_normalize 53 1024 m e sz).
Proof.
  intros HK Hmin Hmax. destruct m as [|p|p]; simpl; [done| |];
    by apply binary_round_within.
Qed.

Lemma Zdigits2_abs m : Zdigits2 m = Zdigits2 (Z.abs m).
Proof. by destruct m. Qed.

Lemma number_within z : Double.within 55 (Double.number z).
Proof.
  unfold Double.number.
  change (- Double.safe) with (-9007199254740992).
  change Double.safe with 9007199254740992.
  apply (binary_normalize_within _ 0 false 54); [|lia|lia].
  rewrite Zdigits2_abs.
  assert (Zdigits2 (Z.abs (Z.max (-9007199254740992)
                             (Z.min 9007199254740992 z))) <= 54); [|lia].
  apply Zdigits2_le; [lia | lia|].
  change (2 ^ 54) with 18014398509481984. lia.
Qed.

(** The sum or difference of two aligned mantissas. *)
Lemma aligned_sum_within sx mx ex sy my ey (sub : bool) sz K :
  Zpos (digits2_pos mx) + ex <= K → Zpos (digits2_pos my) + ey <= K →
  -1074 <= K → K + 2 <= 971 →
  let ez := Z.min ex ey in
  let a := cond_Zopp sx (Zpos (fst (shl_align mx ex ez))) in
  let b := cond_Zopp sy (Zpos (fst (shl_align my ey ez))) in
  Double.within (K + 2)
    (binary_normalize 53 1024 (if sub then a - b else a + b) ez sz).
Proof.
  intros Hx Hy Hmin Hmax ez a b.
  replace (K + 2) with (K + 1 + 1) by lia.
  apply (binary_normalize_within _ _ _ (K + 1)); [|lia|lia].
  pose proof (shl_align_fst mx ex ez ltac:(lia)) as Dx.
  pose proof (shl_align_fst my ey ez ltac:(lia)) as Dy.
  set (x := fst (shl_align mx ex ez)) in *.
  set (y := fst (shl_align my ey ez)) in *.
  assert (Hsum : Zdigits2 (Zpos x + Zpos y) <= K - ez + 1).
  { apply Zdigits2_add; simpl; lia. }
  rewrite Zdigits2_abs.
  assert (Zdigits2 (Z.abs (if sub then a - b else a + b))
          <= Zdigits2 (Zpos x + Zpos y)); [|lia].
  apply Zdigits2_mono. subst a b. destruct sub, sx, sy; simpl cond_Zopp; lia.
Qed.

Lemma SFadd_within K x y :
  Double.within K x → Double.within K y → -1074 <= K → K + 2 <= 971 →
  Double.within (K + 2) (SFadd 53 1024 x y).
Proof.
  intros Hx Hy Hmin Hmax.
  destruct x as [sx| | |sx mx ex], y as [sy| | |sy my ey]; try done.
  - by destruct sx, sy.
  - simpl in *. lia.
  - simpl in *. lia.
  - apply (aligned_sum_within sx mx ex sy my ey false false K); done.
Qed.

Lemma SFsub_within K x y :
  Double.within K x → Double.within K y → -1074 <= K → K + 2 <= 971 →
  Double.within (K + 2) (SFsub 53 1024 x y).
Proof.
  intros Hx Hy Hmin Hmax.
  destruct x as [sx| | |sx mx ex], y as [sy| | |sy my ey]; try done.
  - by destruct sx, sy.
  - simpl in *. lia.
  - simpl in *. lia.
  - apply (aligned_sum_within sx mx ex sy my ey true false K); done.
Qed.

Lemma SFdiv_within K x sy my ey :
  Double.within K x → -1074 <= K - ey → K - ey + 1 <= 971 →
  Double.within (K - ey + 1) (SFdiv 53 1024 x (S754_finite sy my ey)).
Proof.
  intros Hx Hmin Hmax. destruct x as [sx| | |sx mx ex]; try done.
  simpl in Hx. unfold SFdiv, SFdiv_core_binary.
  set (e' := Z.min _ _).
  set (m' := match ex - ey - e' with
             | 0 => Zpos mx | Zpos _ => Z.shiftl (Zpos mx) (ex - ey - e')
             | Zneg _ => 0 end).
  assert (He' : e' <= ex - ey) by (subst e'; lia).
  assert (Hm' : 0 <= m' ∧ Zdigits2 m' + e' <= K - ey).
  { subst m'. destruct (ex - ey - e') as [|s|s] eqn:Hs.
    - simpl. split; lia.
    - split; [apply Z.shiftl_nonneg; lia|].
      assert (Zdigits2 (Z.shiftl (Zpos mx) (Zpos s))
              <= Zpos (digits2_pos mx) + Zpos s); [|lia].
      apply Zdigits2_le; [apply Z.shiftl_nonneg; lia | lia|].
      rewrite Z.shiftl_mul_pow2, Z.pow_add_r by lia.
      pose proof (digits2_pos_bounds mx) as [_ Hhi].
      apply Z.mul_lt_mono_pos_r; [apply Z.pow_pos_nonneg; lia | done].
    - simpl. pose proof (Pos2Z.is_pos (digits2_pos mx)). split; lia. }
  destruct Hm' as [Hm0 Hd].
  pose proof (Z.div_eucl_eq m' (Zpos my) ltac:(lia)) as Heq.
  pose proof (Z.mod_pos_bound m' (Zpos my) ltac:(lia)) as Hr.
  unfold Z.modulo in Hr.
  destruct (Z.div_eucl m' (Zpos my)) as [q r].
  assert (Hq : 0 <= q <= m') by nia.
  apply binary_round_aux_within; [lia | | done | done].
  pose proof (Zdigits2_mono q m' Hq). lia.
Qed.


Lemma within_below_infinity K x :
  Double.within K x → Double.lt x Double.POSITIVE_INFINITY = true.
Proof. by destruct x as [[]|[]| |[]]. Qed.

(** The comparisons of doubles. *)
Lemma compare_cont_Eq m1 m2 : Pos.compare_cont Eq m1 m2 = Pos.compare m1 m2.
Proof. reflexivity. Qed.

Ltac order_cases :=
  repeat match goal with
  | |- context [Z.compare ?a ?b] => destruct (Z.compare_spec a b); subst
  | |- context [Pos.compare_cont Eq ?a ?b] =>
      rewrite (compare_cont_Eq a b); destruct (Pos.compare_spec a b); subst
  | H : context [Z.compare ?a ?b] |- _ => destruct (Z.compare_spec a b); subst
  | H : context [Pos.compare_cont Eq ?a ?b] |- _ =>
      rewrite (compare_cont_Eq a b) in H; destruct (Pos.compare_spec a b); subst
  end; simpl in *; try discriminate; try reflexivity; try lia.

Lemma lt_trans x y z :
  Double.lt x y = true → Double.lt y z = true → Double.lt x z = true.
Proof.
  unfold Double.lt, SFltb, SFcompare.
  destruct x as [[]|[]| |[] m1 e1], y as [[]|[]| |[] m2 e2],
           z as [[]|[]| |[] m3 e3]; simpl; try discriminate; try reflexivity;
    intros H1 H2; order_cases.
Qed.

Lemma le_lt_trans x y z :
  Double.le x y = true → Double.lt y z = true → Double.lt x z = true.
Proof.
  unfold Double.le, Double.lt, SFleb, SFltb, SFcompare.
  destruct x as [[]|[]| |[] m1 e1], y as [[]|[]| |[] m2 e2],
           z as [[]|[]| |[] m3 e3]; simpl; try discriminate; try reflexivity;
    intros H1 H2; order_cases.
Qed.

Lemma lt_irrefl x : Double.lt x x = false.
Proof.
  unfold Double.lt, SFltb, SFcompare.
  destruct x as [[]|[]| |[] m e]; simpl; try reflexivity;
    by rewrite Z.compare_refl, compare_cont_Eq, Pos.compare_refl.
Qed.

(** Among ordinary numbers the order is total. *)
Lemma not_le_lt K K' x y :
  Double.within K x → Double.within K' y →
  Double.le x y = false → Double.lt y x = true.
Proof.
  unfold Double.le, Double.lt, SFleb, SFltb, SFcompare.
  destruct x as [[]|[]| |[] m1 e1], y as [[]|[]| |[] m2 e2]; simpl;
    try done; intros _ _ H; order_cases.
Qed.

Lemma not_lt_le K K' x y :
  Double.within K x → Double.within K' y →
  Double.lt x y = false → Double.le y x = true.
Proof.
  unfold Double.le, Double.lt, SFleb, SFltb, SFcompare.
  destruct x as [[]|[]| |[] m1 e1], y as [[]|[]| |[] m2 e2]; simpl;
    try done; intros _ _ H; order_cases.
Qed.

End DoubleFacts.

Section CacheFacts.
Context {T : Type}.
Implicit Types (c : Cache.CacheManager T) (e : Cache.CacheEntry T).
Implicit Types (k key : string) (now : Z) (clock : nat → Z).

(** Every score is an ordinary number: a zero or a finite double. *)
Lemma score_within now e : Double.within 103 (Cache.score now e).
Proof.
  unfold Cache.score, Double.add, Double.div, Double.sub.
  apply (SFadd_within 101).
  - apply (within_mono 55); [lia | apply number_within].
  - assert (H1000 : Double.number 1000
                    = S754_finite false 8796093022208000 (-43))
      by (vm_compute; reflexivity).
    rewrite H1000. apply (SFdiv_within 57).
    + apply (SFsub_within 55); try lia; apply number_within.
    + lia.
    + lia.
  - lia.
  - lia.
Qed.

Lemma score_below_infinity now e :
  Double.lt (Cache.score now e) Double.POSITIVE_INFINITY = true.
Proof. eapply within_below_infinity, score_within. Qed.

(** What the scan returns: either the key it started with, when no entry
    scores below the starting score, or the key of the first entry of
    least score, each entry being scored with the clock reading of its
    own iteration. *)
Lemma scanOldest_spec (l : list (string * Cache.CacheEntry T)) :
  ∀ clock oldestKey oldestScore,
    (Cache.scanOldest clock l oldestKey oldestScore = oldestKey
     ∧ ∀ j k e, l !! j = Some (k, e) →
         Double.lt (Cache.score (clock j) e) oldestScore = false)
    ∨ (∃ i k e, Cache.scanOldest clock l oldestKey oldestScore = Some k
         ∧ l !! i = Some (k, e)
         ∧ Double.lt (Cache.score (clock i) e) oldestScore = true
         ∧ (∀ j k' e', l !! j = Some (k', e') →
              Double.lt (Cache.score (clock j) e') (Cache.score (clock i) e)
              = false)
         ∧ (∀ j k' e', (j < i)%nat → l !! j = Some (k', e') →
              Double.le (Cache.score (clock j) e') (Cache.score (clock i) e)
              = false)).
Proof.
  induction l as [|[key entry] rest IH]; intros clock ok os; simpl.
  - left. split; [done|]. intros j k e Hj. by rewrite lookup_nil in Hj.
  - set (s0 := Cache.score (clock 0%nat) entry).
    destruct (Double.lt s0 os) eqn:Hb.
    + right.
      destruct (IH (λ i, clock (S i)) (Some key) s0)
        as [[Hr Hall]|(i & k & e & Hr & Hi & Hlt & Hmin & Hfirst)].
      * exists 0%nat, key, entry. split; [done|]. split; [done|].
        split; [done|]. split.
        -- intros [|j] k' e' Hj; simpl in Hj.
           ++ injection Hj as <- <-. apply lt_irrefl.
           ++ by apply (Hall j k').
        -- intros j k' e' Hji. lia.
      * exists (S i), k, e. split; [done|]. split; [done|].
        split; [by apply lt_trans with s0|]. split.
        -- intros [|j] k' e' Hj; simpl in Hj.
           ++ injection Hj as <- <-. fold s0.
              destruct (Double.lt s0 (Cache.score (clock (S i)) e)) eqn:E;
                [|done].
              pose proof (lt_trans _ _ _ E Hlt) as Hbad.
              by rewrite lt_irrefl in Hbad.
           ++ by apply (Hmin j k').
        -- intros [|j] k' e' Hji Hj; simpl in Hj.
           ++ injection Hj as <- <-. fold s0.
              destruct (Double.le s0 (Cache.score (clock (S i)) e)) eqn:E;
                [|done].
              pose proof (le_lt_trans _ _ _ E Hlt) as Hbad.
              by rewrite lt_irrefl in Hbad.
           ++ apply (Hfirst j k'); [lia | done].
    + destruct (IH (λ i, clock (S i)) ok os)
        as [[Hr Hall]|(i & k & e & Hr & Hi & Hlt & Hmin & Hfirst)].
      * left. split; [done|].
        intros [|j] k e Hj; simpl in Hj.
        -- by injection Hj as <- <-.
        -- by apply (Hall j k).
      * right. exists (S i), k, e. split; [done|]. split; [done|].
        split; [done|]. split.
        -- intros [|j] k' e' Hj; simpl in Hj.
           ++ injection Hj as <- <-. fold s0.
              destruct (Double.lt s0 (Cache.score (clock (S i)) e)) eqn:E;
                [|done].
              pose proof (lt_trans _ _ _ E Hlt) as Hbad. congruence.
           ++ by apply (Hmin j k').
        -- intros [|j] k' e' Hji Hj; simpl in Hj.
           ++ injection Hj as <- <-. fold s0.
              destruct (Double.le s0 (Cache.score (clock (S i)) e)) eqn:E;
                [|done].
              pose proof (le_lt_trans _ _ _ E Hlt) as Hbad. congruence.
           ++ apply (Hfirst j k'); [lia | done].
Qed.

(** From the initial state (null, +Infinity) the scan returns the key of
    the first entry of least score, and returns null only on an empty
    map. *)
Lemma scanOldest_initial clock (l : list (string * Cache.CacheEntry T)) :
  match Cache.scanOldest clock l None Double.POSITIVE_INFINITY with
  | None => l = []
  | Some k => ∃ i e, l !! i = Some (k, e)
      ∧ (∀ j k' e', l !! j = Some (k', e') →
           Double.lt (Cache.score (clock j) e') (Cache.score (clock i) e)
           = false)
      ∧ (∀ j k' e', (j < i)%nat → l !! j = Some (k', e') →
           Double.le (Cache.score (clock j) e') (Cache.score (clock i) e)
           = false)
  end.
Proof.
  destruct (scanOldest_spec l clock None Double.POSITIVE_INFINITY)
    as [[Hr Hall]|(i & k & e & Hr & Hi & _ & Hmin & Hfirst)].
  - rewrite Hr. destruct l as [|[k e] r]; [done|].
    specialize (Hall 0%nat k e eq_refl).
    by rewrite score_below_infinity in Hall.
  - rewrite Hr. by exists i, e.
Qed.

(** evictOldest either leaves the store alone or deletes one key of it. *)
Lemma evictOldest_cases clock c :
  Cache.evictOldest clock c = c
  ∨ ∃ i k e, k ≠ ""
      ∧ Cache.cache c !! i = Some (k, e)
      ∧ (∀ j k' e', Cache.cache c !! j = Some (k', e') →
           Double.lt (Cache.score (clock j) e') (Cache.score (clock i) e)
           = false)
      ∧ (∀ j k' e', (j < i)%nat → Cache.cache c !! j = Some (k', e') →
           Double.le (Cache.score (clock j) e') (Cache.score (clock i) e)
           = false)
      ∧ Cache.evictOldest clock c =
          Cache.emit (Cache.EvEvicted k)
            (Cache.with_cache (al_delete k (Cache.cache c)) c).
Proof.
  unfold Cache.evictOldest.
  pose proof (scanOldest_initial clock (Cache.cache c)) as Hs.
  destruct (Cache.scanOldest clock (Cache.cache c) None _) as [k|]; [|by left].
  case_bool_decide as Hk; [|by left].
  right. destruct Hs as (i & e & Hin & Hmin & Hfirst). by exists i, k, e.
Qed.

(** With a non-empty map whose keys are all non-empty strings, the first
    entry of least score is evicted. *)
Lemma evictOldest_evicts clock c :
  Cache.cache c ≠ [] → "" ∉ al_keys (Cache.cache c) →
  ∃ i k e, Cache.cache c !! i = Some (k, e)
    ∧ (∀ j k' e', Cache.cache c !! j = Some (k', e') →
         Double.lt (Cache.score (clock j) e') (Cache.score (clock i) e)
         = false)
    ∧ (∀ j k' e', (j < i)%nat → Cache.cache c !! j = Some (k', e') →
         Double.le (Cache.score (clock j) e') (Cache.score (clock i) e)
         = false)
    ∧ Cache.evictOldest clock c =
        Cache.emit (Cache.EvEvicted k)
          (Cache.with_cache (al_delete k (Cache.cache c)) c).
Proof.
  intros Hne Hkeys. unfold Cache.evictOldest.
  pose proof (scanOldest_initial clock (Cache.cache c)) as Hs.
  destruct (Cache.scanOldest clock (Cache.cache c) None _) as [k|]; [|done].
  destruct Hs as (i & e & Hin & Hmin & Hfirst).
  assert (Hk : k ∈ al_keys (Cache.cache c)).
  { unfold al_keys. apply list_elem_of_fmap. exists (k, e). split; [done|].
    by eapply list_elem_of_lookup_2. }
  rewrite bool_decide_eq_true_2; [by exists i, k, e|].
  intros ->. done.
Qed.



End CacheFacts.

(** Closed decidable facts are settled by evaluating their decision
    procedure. *)
Ltac by_compute := apply (bool_decide_unpack _); vm_compute; exact I.
Ltac by_compute_false H :=
  apply (bool_decide_pack _) in H; vm_compute in H; exact H.

Section CacheSweep.
Context {T : Type}.
Implicit Types (c : Cache.CacheManager T) (e : Cache.CacheEntry T).
Implicit Types (k key : string) (now : Z).

Lemma cleanup_cache now c :
  Cache.cache (Cache.cleanup now c)
  = Cache.cache (Cache.sweep_keys (Cache.expiredKeys now c) c).
Proof. unfold Cache.cleanup. by case_bool_decide. Qed.

Lemma sweep_keys_cons k0 ks c :
  Cache.sweep_keys (k0 :: ks) c
  = Cache.sweep_keys ks
      (Cache.emit (Cache.EvExpired k0)
         (Cache.with_cache (al_delete k0 (Cache.cache c)) c)).
Proof. reflexivity. Qed.



Lemma sweep_keys_lookup keys : ∀ c k,
  al_lookup k (Cache.cache (Cache.sweep_keys keys c))
  = if decide (k ∈ keys) then None else al_lookup k (Cache.cache c).
Proof.
  induction keys as [|k0 ks IH]; intros c k.
  - destruct (decide (k ∈ [])) as [H|_]; [by apply elem_of_nil in H | done].
  - rewrite sweep_keys_cons, IH. simpl. rewrite al_lookup_delete.
    destruct (decide (k ∈ ks)) as [Hin|Hnin].
    + rewrite decide_True; [done | by right].
    + destruct (decide (k0 = k)) as [->|Hne].
      * rewrite decide_True; [done | left].
      * rewrite decide_False; [done|].
        rewrite elem_of_cons. intros [->|?]; done.
Qed.

Lemma sweep_keys_sublist keys : ∀ c,
  Cache.cache (Cache.sweep_keys keys c) `sublist_of` Cache.cache c.
Proof.
  induction keys as [|k0 ks IH]; intros c; [done|].
  rewrite sweep_keys_cons. etrans; [apply IH|]. simpl. apply sublist_filter.
Qed.

Lemma expiredKeys_elem now c k :
  k ∈ Cache.expiredKeys now c ↔
  ∃ e, (k, e) ∈ Cache.cache c ∧ now - Cache.timestamp e > Cache.ttl e.
Proof.
  unfold Cache.expiredKeys. rewrite list_elem_of_fmap. split.
  - intros ([k0 e] & -> & Hin). apply list_elem_of_filter in Hin as [Hexp Hin].
    by exists e.
  - intros (e & Hin & Hexp). exists (k, e). split; [done|].
    by apply list_elem_of_filter.
Qed.

Lemma cleanup_lookup now c k e :
  Cache.wf c → al_lookup k (Cache.cache c) = Some e →
  al_lookup k (Cache.cache (Cache.cleanup now c))
  = if decide (now - Cache.timestamp e > Cache.ttl e) then None else Some e.
Proof.
  intros Hwf Hk. rewrite cleanup_cache, sweep_keys_lookup.
  destruct (decide (k ∈ Cache.expiredKeys now c)) as [Hin|Hnin].
  - apply expiredKeys_elem in Hin as (e0 & Hin & Hexp).
    apply (al_lookup_elem_NoDup _ _ _ Hwf) in Hin.
    assert (e0 = e) as -> by congruence. by rewrite decide_True.
  - rewrite decide_False; [done|]. intros Hexp. apply Hnin.
    apply expiredKeys_elem. exists e. split; [|done].
    by apply al_lookup_Some_elem.
Qed.

End CacheSweep.



Lemma two_entries_wf : Cache.wf two_entries.
Proof. by_compute. Defined.



(** C6: once now - timestamp exceeds the ttl of an entry, the lazy check
    of [get] and of [has] and the periodic sweep all treat it as gone:
    get returns undefined, has returns false, both delete it, and the
    sweep deletes it.  At every time the three paths agree on whether the
    entry is alive. *)
Theorem expired_entry_absent_on_every_path {T : Type} now k
    (e : Cache.CacheEntry T) (c : Cache.CacheManager T) :
  Cache.wf c →
  al_lookup k (Cache.cache c) = Some e →
  now - Cache.timestamp e > Cache.ttl e →
  (Cache.get now k c).1 = None
  ∧ al_lookup k (Cache.cache (Cache.get now k c).2) = None
  ∧ (Cache.has now k c).1 = false
  ∧ al_lookup k (Cache.cache (Cache.has now k c).2) = None
  ∧ al_lookup k (Cache.cache (Cache.cleanup now c)) = None
  ∧ ∀ now',
      ((Cache.has now' k c).1 = true ↔ is_Some (Cache.get now' k c).1)
      ∧ ((Cache.has now' k c).1 = true
         ↔ is_Some (al_lookup k (Cache.cache (Cache.cleanup now' c)))).
Proof.
  intros Hwf Hk Hexp.
  assert (Hget : ∀ n, Cache.get n k c =
            if bool_decide (n - Cache.timestamp e > Cache.ttl e)
            then (None, Cache.emit (Cache.EvExpired k)
                          (Cache.with_cache (al_delete k (Cache.cache c)) c))
            else (Some (Cache.value e),
                  Cache.emit (Cache.EvHit k)
                    (Cache.with_cache
                       (al_set k (Cache.bump e) (Cache.cache c)) c))).
  { intros n. unfold Cache.get. by rewrite Hk. }
  assert (Hhas : ∀ n, Cache.has n k c =
            if bool_decide (n - Cache.timestamp e > Cache.ttl e)
            then (false, Cache.with_cache (al_delete k (Cache.cache c)) c)
            else (true, c)).
  { intros n. unfold Cache.has. by rewrite Hk. }
  rewrite Hget, Hhas, (cleanup_lookup now c k e Hwf Hk).
  rewrite bool_decide_eq_true_2 by done. rewrite decide_True by done. simpl.
  rewrite al_lookup_delete_eq. repeat split; try done.
  - rewrite Hhas, Hget. case_bool_decide; simpl; [done | by eexists].
  - rewrite Hhas, Hget. case_bool_decide; simpl; [intros [? ?]|]; done.
  - rewrite Hhas, (cleanup_lookup now' c k e Hwf Hk).
    case_bool_decide; [done|]. rewrite decide_False by done. by eexists.
  - rewrite Hhas, (cleanup_lookup now' c k e Hwf Hk).
    case_bool_decide as Hd; [|done]. rewrite decide_True by done.
    intros [? ?]. done.
Qed.

Lemma expired_entry_absent_on_every_path_witness :
  (Cache.get 70000 "a" two_entries).1 = None
  ∧ (Cache.has 70000 "a" two_entries).1 = false
  ∧ al_lookup "a" (Cache.cache (Cache.cleanup 70000 two_entries)) = None
  ∧ ((Cache.has 100 "a" two_entries).1 = true
     ↔ is_Some (al_lookup "a" (Cache.cache (Cache.cleanup 100 two_entries)))).
Proof.
  destruct (expired_entry_absent_on_every_path 70000 "a"
              {| Cache.value := "A"; Cache.timestamp := 0;
                 Cache.ttl := 60000; Cache.hits := 5 |}
              two_entries two_entries_wf eq_refl
              ltac:(vm_compute; reflexivity))
    as (Hg & _ & Hh & _ & Hc & Hagree).
  split; [exact Hg|]. split; [exact Hh|]. split; [exact Hc|].
  exact (proj2 (Hagree 100)).
Defined.

Section CacheCapacity.
Context {T : Type}.
Implicit Types (c : Cache.CacheManager T) (e : Cache.CacheEntry T).
Implicit Types (k key : string) (now : Z).

Lemma al_set_length_present {V} k (v v0 : V) (l : list (string * V)) :
  al_lookup k l = Some v0 → length (al_set k v l) = length l.
Proof.
  induction l as [|[k1 v1] r IH]; simpl; [done|].
  destruct (bool_decide (k1 = k)); simpl; [done|].
  intros H. by rewrite IH.
Qed.

Lemma al_keys_set_present {V} k (v v0 : V) (l : list (string * V)) :
  al_lookup k l = Some v0 → al_keys (al_set k v l) = al_keys l.
Proof.
  intros H. rewrite al_keys_set. rewrite bool_decide_eq_true_2; [done|].
  destruct (decide (k ∈ al_keys l)) as [|Hn]; [done|].
  apply al_lookup_None_keys in Hn. congruence.
Qed.








End CacheCapacity.

Section CacheWellFormed.
Context {T : Type}.
Implicit Types (c : Cache.CacheManager T).

Lemma evictOldest_wf clock c : Cache.wf c → Cache.wf (Cache.evictOldest clock c).
Proof.
  intros Hwf.
  destruct (evictOldest_cases clock c) as [->|(i & k & e & _ & _ & _ & _ & ->)];
    [done|].
  unfold Cache.wf. simpl. by apply al_delete_NoDup.
Qed.

(** Every call keeps the keys of the store distinct. *)
Lemma step_wf c (o : Cache.op) : Cache.wf c → Cache.wf (Cache.step c o).
Proof.
  intros Hwf. destruct o as [now key v t|now key|now key|key| |now]; simpl.
  - unfold Cache.set, Cache.wf. simpl. apply al_set_NoDup.
    case_bool_decide; [by apply evictOldest_wf | done].
  - unfold Cache.get. destruct (al_lookup key (Cache.cache c)); [|done].
    case_bool_decide; unfold Cache.wf; simpl;
      [by apply al_delete_NoDup | by apply al_set_NoDup].
  - unfold Cache.has. destruct (al_lookup key (Cache.cache c)); [|done].
    case_bool_decide; [|done]. unfold Cache.wf. simpl.
    by apply al_delete_NoDup.
  - unfold Cache.delete. destruct (al_lookup key (Cache.cache c)); [|done].
    unfold Cache.wf. simpl. by apply al_delete_NoDup.
  - unfold Cache.wf. simpl. apply NoDup_nil_2.
  - unfold Cache.wf. rewrite cleanup_cache.
    eapply sublist_NoDup; [exact Hwf|].
    unfold al_keys. apply fmap_sublist, sweep_keys_sublist.
Qed.

Lemma run_wf (ops : list Cache.op) : ∀ c,
  Cache.wf c → Cache.wf (Cache.run c ops).
Proof.
  induction ops as [|o ops IH]; intros c Hwf; [done|].
  simpl. by apply IH, step_wf.
Qed.

Lemma new_wf M d : Cache.wf (Cache.new (T := T) M d).
Proof. unfold Cache.wf. simpl. apply NoDup_nil_2. Qed.

End CacheWellFormed.




(* --------------------------------------------------------------------- *)
(*  OptimizedFileSystem                                                  *)
(* --------------------------------------------------------------------- *)

Section CachedLayer.
Context {T : Type}.

Lemma evictOldest_defaultTTL clock (c : Cache.CacheManager T) :
  Cache.defaultTTL (Cache.evictOldest clock c) = Cache.defaultTTL c.
Proof.
  unfold Cache.evictOldest.
  destruct (Cache.scanOldest _ _ _ _); [|done]. by case_bool_decide.
Qed.

(** What [set] stores under its key. *)
Lemma set_lookup (clock : nat → Z) now key (v : T)
    (c : Cache.CacheManager T) :
  al_lookup key (Cache.cache (Cache.set clock now key v None c))
  = Some {| Cache.value := v; Cache.timestamp := now;
            Cache.ttl := Cache.defaultTTL c; Cache.hits := 0 |}.
Proof.
  unfold Cache.set. simpl. rewrite al_lookup_set_eq. do 2 f_equal.
  unfold Cache.ttl_or_default. case_bool_decide; [|done].
  apply evictOldest_defaultTTL.
Qed.

(** A [get] that follows a [set] of the same key before the entry has
    expired returns the value set. *)
Lemma get_after_set (clock : nat → Z) now now' key (v : T)
    (c : Cache.CacheManager T) :
  now' - now <= Cache.defaultTTL c →
  (Cache.get now' key (Cache.set clock now key v None c)).1 = Some v.
Proof.
  intros Hlive. unfold Cache.get. rewrite set_lookup. simpl.
  rewrite bool_decide_eq_false_2 by lia. done.
Qed.

Lemma delete_lookup key (c : Cache.CacheManager T) :
  al_lookup key (Cache.cache (Cache.delete key c).2) = None.
Proof.
  unfold Cache.delete.
  destruct (al_lookup key (Cache.cache c)) eqn:E; simpl; [|done].
  apply al_lookup_delete_eq.
Qed.

End CachedLayer.

(** C5: after a successful writeFile(p, c), a readFile(p) made before the
    cached entry expires returns exactly c, whatever the underlying store
    holds at that moment: the read is answered by the content cache, the
    store is not consulted, and the operation is recorded as a cached
    read.  writeFile also leaves no entry for p in the metadata cache. *)
Theorem writeFile_readFile_roundtrip (cwd : string) (os : Os)
    (clock : nat → Z) (now now' now'' : Z) (p c : string)
    (fs fs1 : OptFS.OptimizedFileSystem) (d d1 : disk os) :
  OptFS.writeFile cwd os clock now p c fs d = (Ok tt, fs1, d1) →
  now' - now <= Cache.defaultTTL (OptFS.cache fs) →
  (∀ (clock' : nat → Z) (d2 : disk os),
     ∃ fs2, OptFS.readFile cwd os clock' now' now'' p fs1 d2 = (Ok c, fs2, d2)
       ∧ OptFS.recorded fs2 = OptFS.recorded fs1 ++ ["read_cached"])
  ∧ al_lookup p (Cache.cache (OptFS.statsCache fs1)) = None.
Proof.
  intros Hw Hlive. unfold OptFS.writeFile in Hw.
  destruct (NodeFS.writeFile cwd os (OptFS.base fs) p c d) as [[[]|e] d'];
    [|discriminate].
  injection Hw as <- <-. split.
  - intros clock' d2. unfold OptFS.readFile. simpl.
    pose proof (get_after_set clock now now' p c (OptFS.cache fs) Hlive)
      as Hget.
    destruct (Cache.get now' p (Cache.set clock now p c None (OptFS.cache fs)))
      as [cached cache1]. simpl in Hget. subst cached.
    eexists. split; reflexivity.
  - simpl. apply delete_lookup.
Qed.

Lemma writeFile_readFile_roundtrip_witness :
  let w := OptFS.writeFile "/" MemOs.os (λ _, 1000) 1000 "notes/a.txt" "hello"
             (OptFS.new "/" "/work") (∅ : gmap string string) in
  w.1.1 = Ok tt
  ∧ (OptFS.readFile "/" MemOs.os (λ _, 61000) 61000 61001 "notes/a.txt" w.1.2
       (∅ : gmap string string)).1.1 = Ok "hello"
  ∧ al_lookup "notes/a.txt" (Cache.cache (OptFS.statsCache w.1.2)) = None.
Proof.
  intros w.
  assert (Hw : OptFS.writeFile "/" MemOs.os (λ _, 1000) 1000 "notes/a.txt"
                 "hello" (OptFS.new "/" "/work") (∅ : gmap string string)
               = (Ok tt, w.1.2, w.2)) by (vm_compute; reflexivity).
  assert (Hlive : 61000 - 1000
                  <= Cache.defaultTTL (OptFS.cache (OptFS.new "/" "/work")))
    by (vm_compute; discriminate).
  destruct (writeFile_readFile_roundtrip "/" MemOs.os (λ _, 1000) 1000 61000
              61001 "notes/a.txt" "hello" (OptFS.new "/" "/work") w.1.2
              (∅ : gmap string string) w.2 Hw Hlive) as [Hread Hstat].
  split; [vm_compute; reflexivity|]. split; [|exact Hstat].
  destruct (Hread (λ _, 61000) (∅ : gmap string string)) as (fs2 & -> & _).
  reflexivity.
Defined.

(* --------------------------------------------------------------------- *)
(*  TerminalManager                                                      *)
(* --------------------------------------------------------------------- *)

(** C3, as stated, fails: on a multiplexer that has no session "s1",
    executeCommand("s1", "pwd") throws "Terminal session s1 not found"
    and the session is still unknown afterwards. *)
Lemma executeCommand_unknown_session_throws :
  let m := Terminal.new "/work" in
  Terminal.getSession "s1" m = None
  ∧ Terminal.executeCommand Terminal.sample_host "s1" "pwd" [] m
    = (Throw (Error "Terminal session s1 not found"), m, [])
  ∧ Terminal.getSession "s1"
      (Terminal.executeCommand Terminal.sample_host "s1" "pwd" [] m).1.2
    = None.
Proof. cbv zeta. repeat split; vm_compute; reflexivity. Qed.

(** C3, amended: executeCommand on a session id that the multiplexer does
    not know fails the call with the error "Terminal session <id> not
    found", creates no session and has no other effect; a session comes
    into being only through createSession, and once the id has been
    created executeCommand resolves it and appends the invocation to its
    history. *)
Theorem executeCommand_needs_created_session (host : Terminal.Host)
    (sessionId command : string) (args : list string)
    (m : Terminal.TerminalManager) :
  Terminal.getSession sessionId m = None →
  Terminal.executeCommand host sessionId command args m
  = (Throw (Terminal.notFound sessionId), m, [])
  ∧ ∀ generated,
      let created :=
        (Terminal.createSession generated (Some sessionId) m).2 in
      sessionId ≠ "" →
      Terminal.getSessionHistory sessionId
        (Terminal.executeCommand host sessionId command args created).1.2
      = [command +:+ " " +:+ String.concat " " args].
Proof.
  intros Hnone. split.
  - unfold Terminal.executeCommand. by rewrite Hnone.
  - intros generated created Hne. subst created.
    unfold Terminal.createSession, or_else, truthy.
    rewrite bool_decide_eq_false_2 by done.
    unfold Terminal.executeCommand, Terminal.getSession at 1. simpl.
    rewrite lookup_insert_eq.
    destruct (Terminal.handleBuiltinCommand _ _ _ _ _) as [[s' effs]|] eqn:Hb.
    + unfold Terminal.getSessionHistory, Terminal.getSession. simpl.
      rewrite lookup_insert_eq.
      unfold Terminal.handleBuiltinCommand in Hb.
      repeat case_bool_decide; simplify_eq; try done.
      unfold Terminal.handleCdCommand in Hb.
      destruct (Terminal.host_isDirectory _ _) as [[]|]; by simplify_eq.
    + destruct (Terminal.host_spawn _ _ _ _);
        unfold Terminal.getSessionHistory, Terminal.getSession; simpl;
        by rewrite lookup_insert_eq.
Qed.

Lemma executeCommand_needs_created_session_witness :
  Terminal.executeCommand Terminal.sample_host "s1" "ls" ["-l"]
    (Terminal.new "/work")
  = (Throw (Error "Terminal session s1 not found"), Terminal.new "/work", [])
  ∧ Terminal.getSessionHistory "s1"
      (Terminal.executeCommand Terminal.sample_host "s1" "ls" ["-l"]
         (Terminal.createSession "terminal_0_x" (Some "s1")
            (Terminal.new "/work")).2).1.2
    = ["ls -l"].
Proof.
  destruct (executeCommand_needs_created_session Terminal.sample_host
              "s1" "ls" ["-l"] (Terminal.new "/work") eq_refl) as [Hthrow Hlazy].
  split; [exact Hthrow|].
  apply (Hlazy "terminal_0_x"). discriminate.
Defined.

(** C7: killing a live process of a session sends SIGTERM to it, removes
    exactly the entry of that pid from the session's live-process map and
    returns true; a second kill of the same pid returns false and changes
    nothing; an unknown session id or an unknown pid returns false with
    no effect and nothing thrown. *)
Theorem killProcess_removes_once (sessionId : string) (p : Z)
    (m : Terminal.TerminalManager) (session : Terminal.TerminalSession)
    (process : Terminal.Process) :
  Terminal.getSession sessionId m = Some session →
  Terminal.processes session !! p = Some process →
  let killed := Terminal.killProcess sessionId p m in
  killed.1.1 = true
  ∧ killed.2 = [Terminal.Killed (Terminal.pid process) "SIGTERM"]
  ∧ (∃ session',
       Terminal.getSession sessionId killed.1.2 = Some session'
       ∧ Terminal.processes session' = delete p (Terminal.processes session)
       ∧ Terminal.processes session' !! p = None
       ∧ (∀ q, q ≠ p →
            Terminal.processes session' !! q = Terminal.processes session !! q)
       ∧ base.size (Terminal.processes session)
         = S (base.size (Terminal.processes session')))
  ∧ (∀ other, other ≠ sessionId →
       Terminal.getSession other killed.1.2 = Terminal.getSession other m)
  ∧ Terminal.killProcess sessionId p killed.1.2 = (false, killed.1.2, [])
  ∧ (∀ unknown q,
       Terminal.getSession unknown m = None →
       Terminal.killProcess unknown q m = (false, m, []))
  ∧ (∀ q,
       Terminal.processes session !! q = None →
       Terminal.killProcess sessionId q m = (false, m, [])).
Proof.
  intros Hs Hp killed. subst killed. unfold Terminal.killProcess.
  rewrite Hs, Hp. simpl. unfold Terminal.getSession in *. simpl.
  rewrite lookup_insert_eq. simpl. rewrite lookup_delete_eq.
  split; [done|]. split; [done|]. split.
  { eexists. split; [done|]. simpl. split; [done|].
    split; [apply lookup_delete_eq|]. split.
    - intros q Hq. by apply lookup_delete_ne.
    - rewrite <- (insert_delete_id _ _ _ Hp) at 1.
      apply map_size_insert_None, lookup_delete_eq. }
  split; [intros other Hne; by apply lookup_insert_ne|].
  split; [done|]. split.
  - intros unknown q Hu. by rewrite Hu.
  - intros q Hq. by rewrite Hq.
Qed.

Lemma killProcess_removes_once_witness :
  let m := (Terminal.executeCommand Terminal.sample_host "s1" "node" ["app.js"]
              (Terminal.createSession "terminal_0_x" (Some "s1")
                 (Terminal.new "/work")).2).1.2 in
  (Terminal.killProcess "s1" 4242 m).1.1 = true
  ∧ (Terminal.killProcess "s1" 4242 m).2 = [Terminal.Killed 4242 "SIGTERM"]
  ∧ (Terminal.killProcess "s1" 4242 (Terminal.killProcess "s1" 4242 m).1.2).1.1
    = false.
Proof.
  intros m.
  assert (Hs : Terminal.getSession "s1" m
               = Some {| Terminal.id := "s1"; Terminal.terminal := "/work";
                         Terminal.processes :=
                           {[ 4242 := {| Terminal.pid := 4242;
                                         Terminal.command := "node";
                                         Terminal.args := ["app.js"];
                                         Terminal.spawnCwd := "/work" |} ]};
                         Terminal.history := ["node app.js"];
                         Terminal.cwd := "/work" |})
    by (vm_compute; reflexivity).
  destruct (killProcess_removes_once "s1" 4242 m _ _ Hs
              ltac:(vm_compute; reflexivity))
    as (Htrue & Hsig & _ & _ & Hagain & _).
  split; [exact Htrue|]. split; [exact Hsig|]. by rewrite Hagain.
Defined.

(* --------------------------------------------------------------------- *)
(*  PreviewManager                                                       *)
(* --------------------------------------------------------------------- *)

Section PreviewFacts.
Implicit Types (m : Preview.PreviewManager) (id : string).

Lemma findAvailablePort_from_unused used isPortAvailable count :
  ∀ port p,
    Preview.findAvailablePort_from used isPortAvailable port count = Ok p →
    (p ∉ used) ∧ isPortAvailable p = true
    ∧ (port <= p ∧ p < port + Z.of_nat count).
Proof.
  induction count as [|n IH]; intros port p; simpl; [done|].
  destruct (negb (bool_decide (port ∈ used)) && isPortAvailable port) eqn:E.
  - intros [= <-]. apply andb_true_iff in E as [E1 E2].
    apply negb_true_iff, bool_decide_eq_false in E1. split; [done|].
    split; [done | lia].
  - intros H. apply IH in H as (? & ? & ?). split; [done|]. split; [done|lia].
Qed.

Lemma findAvailablePort_unused isPortAvailable m p :
  Preview.findAvailablePort isPortAvailable m = Ok p →
  p ∉ Preview.usedPorts m.
Proof.
  unfold Preview.findAvailablePort. intros H.
  by apply findAvailablePort_from_unused in H as (? & _).
Qed.

Lemma nextCandidate_left used count : ∀ port p n,
  Preview.nextCandidate used port count = Some (p, n) →
  (n < count)%nat ∧ p ∉ used.
Proof.
  induction count as [|c IH]; intros port p n; simpl; [done|].
  case_bool_decide as Hin.
  - intros H. apply IH in H as [? ?]. split; [lia | done].
  - intros [= <- <-]. split; [lia | done].
Qed.

(** The loop of findAvailablePort, cut at its first bind test. *)
Lemma findAvailablePort_from_nextCandidate used isPortAvailable count :
  ∀ port,
    Preview.findAvailablePort_from used isPortAvailable port count
    = match Preview.nextCandidate used port count with
      | None => Throw Preview.noPorts
      | Some (p, n) =>
          if isPortAvailable p then Ok p
          else Preview.findAvailablePort_from used isPortAvailable (p + 1) n
      end.
Proof.
  induction count as [|c IH]; intros port; simpl; [done|].
  case_bool_decide as Hin; simpl; [apply IH|].
  by destruct (isPortAvailable port).
Qed.

Lemma register_lookup id now projectPath config port m :
  Preview.previews (Preview.register id now projectPath config port m) !! id
  = Some (Preview.instance id now projectPath config port).
Proof. simpl. apply lookup_insert_eq. Qed.

Lemma register_lookup_ne id id' now projectPath config port m :
  id ≠ id' →
  Preview.previews (Preview.register id now projectPath config port m) !! id'
  = Preview.previews m !! id'.
Proof. intros Hne. simpl. by apply lookup_insert_ne. Qed.

Lemma register_usedPorts id now projectPath config port m :
  Preview.usedPorts (Preview.register id now projectPath config port m)
  = {[port]} ∪ Preview.usedPorts m.
Proof. done. Qed.

(** What the settling of server.start() does to the registry. *)
Lemma settle_previews id (startResult : result unit) readdirOk m :
  Preview.previews
    (match startResult with
     | Ok _ => Preview.started id readdirOk m
     | Throw e => Preview.startFailed id e m
     end)
  = alter (Preview.with_status
             (match startResult with
              | Ok _ => Preview.StatusRunning
              | Throw _ => Preview.StatusError
              end)) id (Preview.previews m)
  ∧ Preview.usedPorts
      (match startResult with
       | Ok _ => Preview.started id readdirOk m
       | Throw e => Preview.startFailed id e m
       end)
    = Preview.usedPorts m.
Proof.
  destruct startResult as [[]|e]; simpl; [|done].
  unfold Preview.started. by destruct readdirOk.
Qed.

(** createPreview either fails to allocate and changes nothing, or
    registers the instance under the allocated port. *)
Lemma createPreview_cases id now projectPath config isPortAvailable
    startResult readdirOk m :
  (∃ e, Preview.allocatePort config isPortAvailable m = Throw e
        ∧ Preview.createPreview id now projectPath config isPortAvailable
            startResult readdirOk m = (Throw e, m))
  ∨ (∃ port st,
       Preview.allocatePort config isPortAvailable m = Ok port
       ∧ Preview.previews
           (Preview.createPreview id now projectPath config isPortAvailable
              startResult readdirOk m).2
         = <[id := Preview.with_status st
                     (Preview.instance id now projectPath config port)]>
             (Preview.previews m)
       ∧ Preview.usedPorts
           (Preview.createPreview id now projectPath config isPortAvailable
              startResult readdirOk m).2
         = {[port]} ∪ Preview.usedPorts m).
Proof.
  unfold Preview.createPreview.
  destruct (Preview.allocatePort config isPortAvailable m) as [port|e];
    [right | left; by exists e].
  exists port,
    (match startResult with
     | Ok _ => Preview.StatusRunning | Throw _ => Preview.StatusError end).
  split; [done|].
  pose proof (settle_previews id startResult readdirOk
                (Preview.register id now projectPath config port m))
    as [Hp Hu].
  destruct startResult as [[]|e]; simpl in *.
  - rewrite Hp, Hu. split; [|done]. by rewrite alter_insert_eq.
  - split; [|done]. by rewrite alter_insert_eq.
Qed.

End PreviewFacts.

(** C2, as stated, fails: when the supervisor's start fails, createPreview
    leaves the instance registered with status error while its port
    stays in the used-port set. *)
Lemma failed_start_keeps_instance_and_port :
  let r := Preview.createPreview "p1" 0 "." Preview.noPort (λ _, true)
             (Throw (Error "listen EACCES")) true Preview.new in
  r.1 = Throw (Error "listen EACCES")
  ∧ ∃ p, Preview.getPreview "p1" r.2 = Some p
      ∧ Preview.status p = Preview.StatusError
      ∧ Preview.status p ≠ Preview.StatusRunning
      ∧ Preview.port p ∈ Preview.usedPorts r.2.
Proof.
  cbv zeta. split; [vm_compute; reflexivity|].
  eexists. split; [vm_compute; reflexivity|]. simpl.
  split; [done|]. split; [done|]. by_compute.
Qed.

(** C2, amended: when the supervisor's start fails, createPreview
    rethrows and leaves the instance registered with status error and its
    port in the used-port set, to be released by stopPreview.  A
    stopPreview whose supervisor stop succeeds unregisters the instance
    and removes its port from the used-port set, and any further
    stopPreview of that id returns false and changes nothing, so the port
    is released once; a stopPreview whose supervisor stop fails returns
    false and leaves the registry and the used-port set as they were, and
    restartPreview never touches the used-port set. *)
Theorem failed_start_and_stop_outcomes (id : string) (now : Z)
    (projectPath : string) (config : Preview.PreviewConfig)
    (isPortAvailable : Z → bool) (e : error) (readdirOk : bool)
    (m : Preview.PreviewManager) (port : Z) :
  Preview.allocatePort config isPortAvailable m = Ok port →
  let r := Preview.createPreview id now projectPath config isPortAvailable
             (Throw e) readdirOk m in
  r.1 = Throw e
  ∧ Preview.getPreview id r.2
    = Some (Preview.with_status Preview.StatusError
              (Preview.instance id now projectPath config port))
  ∧ port ∈ Preview.usedPorts r.2
  ∧ ∀ m0 id0 p0,
      Preview.getPreview id0 m0 = Some p0 →
      (let s := Preview.stopPreview id0 (Ok tt) m0 in
       s.1 = true
       ∧ Preview.getPreview id0 s.2 = None
       ∧ Preview.usedPorts s.2 = Preview.usedPorts m0 ∖ {[Preview.port p0]}
       ∧ ∀ again, Preview.stopPreview id0 again s.2 = (false, s.2))
      ∧ (∀ e', let s := Preview.stopPreview id0 (Throw e') m0 in
               s.1 = false
               ∧ Preview.previews s.2 = Preview.previews m0
               ∧ Preview.usedPorts s.2 = Preview.usedPorts m0)
      ∧ (∀ now0 stopResult startResult,
           Preview.usedPorts
             (Preview.restartPreview id0 now0 stopResult startResult m0).2
           = Preview.usedPorts m0).
Proof.
  intros Halloc r. subst r. unfold Preview.createPreview. rewrite Halloc.
  simpl. unfold Preview.getPreview. simpl.
  split; [done|]. split; [by rewrite alter_insert_eq, lookup_insert_eq|].
  split; [set_solver|].
  intros m0 id0 p0 Hp0. unfold Preview.stopPreview, Preview.restartPreview.
  rewrite Hp0. simpl. split; [|split; [done|]].
  - split; [done|]. split; [apply lookup_delete_eq|]. split; [done|].
    intros again. by rewrite lookup_delete_eq.
  - intros now0 [[]|e1] [[]|e2]; done.
Qed.

Lemma failed_start_and_stop_outcomes_witness :
  let r := Preview.createPreview "p1" 0 "." Preview.noPort (λ _, true)
             (Throw (Error "listen EACCES")) true Preview.new in
  Preview.status <$> Preview.getPreview "p1" r.2 = Some Preview.StatusError
  ∧ 3000 ∈ Preview.usedPorts r.2
  ∧ (Preview.stopPreview "p1" (Ok tt) r.2).1 = true
  ∧ Preview.usedPorts (Preview.stopPreview "p1" (Ok tt) r.2).2
    = Preview.usedPorts r.2 ∖ {[3000]}.
Proof.
  intros r.
  destruct (failed_start_and_stop_outcomes "p1" 0 "." Preview.noPort
              (λ _, true) (Error "listen EACCES") true Preview.new 3000
              ltac:(vm_compute; reflexivity))
    as (_ & Hreg & Hport & Hstop).
  split; [subst r; by rewrite Hreg|]. split; [exact Hport|].
  destruct (Hstop r.2 "p1" _ Hreg) as ((Htrue & _ & Hrel & _) & _ & _).
  split; [exact Htrue | exact Hrel].
Defined.

Lemma drive_Finished fuel c isPortAvailable startResult readdirOk r m :
  Preview.drive fuel c isPortAvailable startResult readdirOk
    (Preview.Finished r) m = (Preview.Finished r, m).
Proof. by destruct fuel. Qed.

Section PreviewCalls.
Variables (c : Preview.Call) (isPortAvailable : Z → bool).
Variables (startResult : result unit) (readdirOk : bool).

Lemma drive_Starting fuel p m :
  (1 ≤ fuel)%nat →
  Preview.drive fuel c isPortAvailable startResult readdirOk
    (Preview.Starting p) m
  = match startResult with
    | Ok _ => (Preview.Finished (Ok tt),
               Preview.started (Preview.call_id c) readdirOk m)
    | Throw e => (Preview.Finished (Throw e),
                  Preview.startFailed (Preview.call_id c) e m)
    end.
Proof.
  intros Hf. destruct fuel as [|f]; [lia|]. simpl.
  destruct startResult as [[]|e]; apply drive_Finished.
Qed.

(** A call suspended in the bind test of [p], run alone: it ends as the
    rest of the loop of findAvailablePort says. *)
Lemma drive_Probing m : ∀ fuel n p,
  (n + 2 ≤ fuel)%nat →
  Preview.drive fuel c isPortAvailable startResult readdirOk
    (Preview.Probing p n) m
  = match (if isPortAvailable p then Ok p
           else Preview.findAvailablePort_from (Preview.usedPorts m)
                  isPortAvailable (p + 1) n) with
    | Throw e => (Preview.Finished (Throw e), m)
    | Ok port =>
        let m1 := Preview.register (Preview.call_id c) (Preview.call_now c)
                    (Preview.call_projectPath c) (Preview.call_config c)
                    port m in
        match startResult with
        | Ok _ => (Preview.Finished (Ok tt),
                   Preview.started (Preview.call_id c) readdirOk m1)
        | Throw e => (Preview.Finished (Throw e),
                      Preview.startFailed (Preview.call_id c) e m1)
        end
    end.
Proof.
  induction fuel as [|f IH]; intros n p Hf; [lia|].
  cbn [Preview.drive Preview.advance].
  destruct (isPortAvailable p) eqn:Hav.
  - by rewrite drive_Starting by lia.
  - rewrite findAvailablePort_from_nextCandidate. unfold Preview.probe.
    destruct (Preview.nextCandidate (Preview.usedPorts m) (p + 1) n)
      as [[p' n']|] eqn:Hnext.
    + apply nextCandidate_left in Hnext as [Hlt _].
      rewrite IH by lia. done.
    + apply drive_Finished.
Qed.

(** Run alone, the pieces of a call add up to createPreview. *)
Lemma drive_createPreview m fuel :
  (Preview.rangeCount m + 3 ≤ fuel)%nat →
  let r := Preview.createPreview (Preview.call_id c) (Preview.call_now c)
             (Preview.call_projectPath c) (Preview.call_config c)
             isPortAvailable startResult readdirOk m in
  Preview.drive fuel c isPortAvailable startResult readdirOk
    Preview.NotStarted m
  = (Preview.Finished (match r.1 with Ok _ => Ok tt | Throw e => Throw e end),
     r.2).
Proof.
  intros Hf r. subst r. destruct fuel as [|f]; [lia|].
  unfold Preview.createPreview, Preview.allocatePort.
  cbn [Preview.drive Preview.advance].
  destruct (Preview.explicitPort (Preview.call_config c)) as [p|].
  - rewrite drive_Starting by lia. by destruct startResult as [[]|e].
  - unfold Preview.findAvailablePort.
    rewrite findAvailablePort_from_nextCandidate. unfold Preview.probe.
    destruct (Preview.nextCandidate (Preview.usedPorts m)
                (Preview.portRange m).1 (Preview.rangeCount m))
      as [[p n]|] eqn:Hnext.
    + apply nextCandidate_left in Hnext as [Hlt _].
      rewrite drive_Probing by lia.
      destruct (if isPortAvailable p then Ok p else _) as [port|e]; [|done].
      by destruct startResult as [[]|e].
    + by rewrite drive_Finished.
Qed.

End PreviewCalls.

(** C9, as stated, fails: two createPreview calls without an explicit
    port that are both suspended in the bind test of port 3000, and whose
    tests both succeed, are both given port 3000, because neither has yet
    added it to the used-port set when the other checks the set. *)
Lemma overlapping_creates_share_port :
  let c1 := {| Preview.call_id := "p1"; Preview.call_now := 0;
               Preview.call_projectPath := "a";
               Preview.call_config := Preview.noPort |} in
  let c2 := {| Preview.call_id := "p2"; Preview.call_now := 0;
               Preview.call_projectPath := "b";
               Preview.call_config := Preview.noPort |} in
  let s := Preview.schedule c1 c2
             [Preview.First Preview.Begin;
              Preview.Second Preview.Begin;
              Preview.First (Preview.BindTested true);
              Preview.Second (Preview.BindTested true);
              Preview.First (Preview.StartSettled (Ok tt) true);
              Preview.Second (Preview.StartSettled (Ok tt) true)]
             Preview.new in
  Preview.first s = Preview.Finished (Ok tt)
  ∧ Preview.second s = Preview.Finished (Ok tt)
  ∧ Preview.port <$> Preview.getPreview "p1" (Preview.manager s) = Some 3000
  ∧ Preview.port <$> Preview.getPreview "p2" (Preview.manager s) = Some 3000
  ∧ Preview.status <$> Preview.getPreview "p1" (Preview.manager s)
    = Some Preview.StatusRunning
  ∧ Preview.status <$> Preview.getPreview "p2" (Preview.manager s)
    = Some Preview.StatusRunning.
Proof. cbv zeta. repeat split; vm_compute; reflexivity. Qed.

Section Interleavings.
Implicit Types (m : Preview.PreviewManager) (ph : Preview.phase).

Lemma clash_sym id id' m : Preview.clash id id' m ↔ Preview.clash id' id m.
Proof. split; intros (i & i' & ? & ? & ?); by exists i', i. Qed.

Lemma probe_inv id id' m port count :
  (∀ i, Preview.previews m !! id = Some i →
     Preview.port i ∈ Preview.usedPorts m) →
  Preview.previews m !! id = None →
  Preview.call_inv id id' (Preview.probe m port count) m.
Proof.
  intros Hreg Hfresh. unfold Preview.probe.
  destruct (Preview.nextCandidate _ _ _) as [[p n]|] eqn:Hnext.
  - apply nextCandidate_left in Hnext as [_ Hp].
    split; [done|]. split; [done|]. intros ? ? [= <- <-] ?. done.
  - split; [done|]. split; [done|]. intros ? ? [=].
Qed.

Lemma settled_previews id st ev m :
  Preview.previews (Preview.emit ev (Preview.setStatus id st m))
  = alter (Preview.with_status st) id (Preview.previews m).
Proof. done. Qed.

Lemma started_state id readdirOk m :
  Preview.previews (Preview.started id readdirOk m)
  = alter (Preview.with_status Preview.StatusRunning) id (Preview.previews m)
  ∧ Preview.usedPorts (Preview.started id readdirOk m) = Preview.usedPorts m.
Proof. unfold Preview.started. by destruct readdirOk. Qed.

Lemma startFailed_state id e m :
  Preview.previews (Preview.startFailed id e m)
  = alter (Preview.with_status Preview.StatusError) id (Preview.previews m)
  ∧ Preview.usedPorts (Preview.startFailed id e m) = Preview.usedPorts m.
Proof. done. Qed.

(** A change of status of the instance of [id] keeps what both calls
    know, and the ports of both instances. *)
Lemma status_change_inv id id' st ph ph' ph2 m m' :
  id ≠ id' →
  Preview.previews m' = alter (Preview.with_status st) id (Preview.previews m) →
  Preview.usedPorts m' = Preview.usedPorts m →
  match ph' with
  | Preview.NotStarted | Preview.Probing _ _ => False
  | _ => True
  end →
  Preview.call_inv id id' ph m → Preview.call_inv id' id ph2 m →
  Preview.call_inv id id' ph' m' ∧ Preview.call_inv id' id ph2 m'
  ∧ (Preview.clash id id' m' ↔ Preview.clash id id' m).
Proof.
  intros Hne Hp Hu Hph (Hreg & _ & _) (Hreg' & Hfresh' & HJ').
  assert (Hother : Preview.previews m' !! id' = Preview.previews m !! id')
    by (by rewrite Hp, lookup_alter_ne).
  assert (Hown : Preview.previews m' !! id
                 = Preview.with_status st <$> Preview.previews m !! id)
    by (by rewrite Hp, lookup_alter_eq).
  split; [|split].
  - split; [|split].
    + intros i. rewrite Hown, Hu.
      destruct (Preview.previews m !! id) as [i0|]; [|done].
      intros [= <-]. simpl. by apply (Hreg i0).
    + destruct ph'; simpl in Hph |- *; done.
    + intros p n ->. done.
  - split; [|split].
    + intros i. rewrite Hother, Hu. apply Hreg'.
    + by rewrite Hother.
    + intros p n Hph2 Hin. rewrite Hu in Hin.
      destruct (HJ' p n Hph2 Hin) as (i & Hi & Hpi).
      exists (Preview.with_status st i). by rewrite Hown, Hi.
  - unfold Preview.clash. rewrite Hother, Hown. split.
    + intros (i & i' & Hi & Hi' & Heq).
      destruct (Preview.previews m !! id) as [i0|]; [|done].
      injection Hi as <-. by exists i0, i'.
    + intros (i & i' & Hi & Hi' & Heq). rewrite Hi.
      by exists (Preview.with_status st i), i'.
Qed.

(** The registration of port [p] for [id], which had no instance. *)
Lemma register_inv id id' now projectPath config p ph2 m :
  id ≠ id' →
  Preview.previews m !! id = None →
  (p ∈ Preview.usedPorts m →
   ∃ i', Preview.previews m !! id' = Some i' ∧ Preview.port i' = p) →
  Preview.call_inv id' id ph2 m →
  let m' := Preview.register id now projectPath config p m in
  Preview.call_inv id id' (Preview.Starting p) m' ∧ Preview.call_inv id' id ph2 m'
  ∧ (Preview.clash id id' m' ↔ p ∈ Preview.usedPorts m).
Proof.
  intros Hne Hfresh HJ (Hreg' & Hfresh' & HJ') m'.
  assert (Hown : Preview.previews m' !! id
                 = Some (Preview.instance id now projectPath config p))
    by apply register_lookup.
  assert (Hother : Preview.previews m' !! id' = Preview.previews m !! id')
    by (by apply register_lookup_ne).
  assert (Hu : Preview.usedPorts m' = {[p]} ∪ Preview.usedPorts m) by done.
  split; [|split].
  - split; [|split]; [|done|done].
    intros i. rewrite Hown, Hu. intros [= <-]. simpl.
    apply elem_of_union. left. by apply elem_of_singleton.
  - split; [|split].
    + intros i. rewrite Hother, Hu. intros Hi.
      apply elem_of_union. right. by apply Hreg'.
    + by rewrite Hother.
    + intros q n Hph2 Hin. rewrite Hu in Hin. rewrite Hown.
      apply elem_of_union in Hin as [->%elem_of_singleton|Hin].
      * by eexists.
      * destruct (HJ' q n Hph2 Hin) as (i & Hi & _). congruence.
  - unfold Preview.clash. rewrite Hown, Hother. split.
    + intros (i & i' & [= <-] & Hi' & Heq). simpl in Heq. rewrite Heq.
      by apply Hreg'.
    + intros Hin. destruct (HJ Hin) as (i' & Hi' & Hp).
      eexists _, i'. split; [done|]. split; [done|]. by simpl.
Qed.

(** One piece of a call without an explicit port keeps what both calls
    know, and brings the two instances onto one port exactly when the
    call is woken by a successful bind test of a port that is used by
    then. *)
Lemma advance_inv (c : Preview.Call) id' ph r ph2 m :
  Preview.call_id c ≠ id' →
  Preview.explicitPort (Preview.call_config c) = None →
  Preview.call_inv (Preview.call_id c) id' ph m →
  Preview.call_inv id' (Preview.call_id c) ph2 m →
  let a := Preview.advance c ph r m in
  Preview.call_inv (Preview.call_id c) id' a.1 a.2
  ∧ Preview.call_inv id' (Preview.call_id c) ph2 a.2
  ∧ (Preview.clash (Preview.call_id c) id' a.2
     ↔ Preview.clash (Preview.call_id c) id' m ∨ Preview.stale ph r m = true).
Proof.
  intros Hne Hexp Hown Hoth a. subst a.
  assert (Hsame : ∀ ph0, Preview.stale ph0 r m = false → ph0 = ph →
            Preview.call_inv (Preview.call_id c) id' ph m
            ∧ Preview.call_inv id' (Preview.call_id c) ph2 m
            ∧ (Preview.clash (Preview.call_id c) id' m
               ↔ Preview.clash (Preview.call_id c) id' m ∨ Preview.stale ph r m = true)).
  { intros ph0 Hst ->. rewrite Hst. split; [done|]. split; [done|].
    split; [by left | by intros [?|?]]. }
  destruct ph as [|p n|p|res].
  - (* NotStarted *)
    destruct r as [|free|sr rd]; try by apply (Hsame Preview.NotStarted).
    simpl. rewrite Hexp. simpl. destruct Hown as (Hreg & Hfresh & _).
    split; [by apply probe_inv|]. split; [done|].
    split; [by left | by intros [?|?]].
  - (* Probing *)
    destruct r as [|[|]|sr rd]; try by apply (Hsame (Preview.Probing p n)).
    + simpl. destruct Hown as (Hreg & Hfresh & HJ).
      destruct (register_inv (Preview.call_id c) id' (Preview.call_now c)
                  (Preview.call_projectPath c) (Preview.call_config c) p
                  ph2 m Hne Hfresh (HJ p n eq_refl) Hoth)
        as (H1 & H2 & H3).
      split; [done|]. split; [done|]. rewrite H3.
      rewrite bool_decide_eq_true. split; [by right|].
      intros [(i & i' & Hi & _)|Hin]; [congruence | done].
    + simpl. destruct Hown as (Hreg & Hfresh & _).
      split; [by apply probe_inv|]. split; [done|].
      split; [by left | by intros [?|?]].
  - (* Starting *)
    destruct r as [|free|[[]|e] rd]; try by apply (Hsame (Preview.Starting p)).
    + simpl.
      destruct (started_state (Preview.call_id c) rd m) as [Hp Hu].
      destruct (status_change_inv (Preview.call_id c) id'
                  Preview.StatusRunning (Preview.Starting p)
                  (Preview.Finished (Ok tt)) ph2 m _ Hne Hp Hu I Hown Hoth)
        as (H1 & H2 & H3).
      split; [done|]. split; [done|]. rewrite H3.
      split; [by left | by intros [?|?]].
    + simpl.
      destruct (startFailed_state (Preview.call_id c) e m) as [Hp Hu].
      destruct (status_change_inv (Preview.call_id c) id'
                  Preview.StatusError (Preview.Starting p)
                  (Preview.Finished (Throw e)) ph2 m _ Hne Hp Hu I Hown Hoth)
        as (H1 & H2 & H3).
      split; [done|]. split; [done|]. rewrite H3.
      split; [by left | by intros [?|?]].
  - destruct r as [|free|sr rd]; by apply (Hsame (Preview.Finished res)).
Qed.

Lemma schedule_step_inv (c1 c2 : Preview.Call) (s : Preview.Pair)
    (t : Preview.turn) :
  Preview.call_id c1 ≠ Preview.call_id c2 →
  Preview.explicitPort (Preview.call_config c1) = None →
  Preview.explicitPort (Preview.call_config c2) = None →
  Preview.call_inv (Preview.call_id c1) (Preview.call_id c2)
    (Preview.first s) (Preview.manager s) →
  Preview.call_inv (Preview.call_id c2) (Preview.call_id c1)
    (Preview.second s) (Preview.manager s) →
  let s' := Preview.schedule_step c1 c2 s t in
  Preview.call_inv (Preview.call_id c1) (Preview.call_id c2)
    (Preview.first s') (Preview.manager s')
  ∧ Preview.call_inv (Preview.call_id c2) (Preview.call_id c1)
      (Preview.second s') (Preview.manager s')
  ∧ (Preview.clash (Preview.call_id c1) (Preview.call_id c2) (Preview.manager s')
     ↔ Preview.clash (Preview.call_id c1) (Preview.call_id c2) (Preview.manager s)
       ∨ Preview.staleAt s t = true).
Proof.
  intros Hne He1 He2 H1 H2 s'. subst s'. destruct t as [r|r]; simpl.
  - pose proof (advance_inv c1 (Preview.call_id c2) (Preview.first s) r
                  (Preview.second s) (Preview.manager s) Hne He1 H1 H2) as H.
    destruct (Preview.advance c1 (Preview.first s) r (Preview.manager s))
      as [ph m']. exact H.
  - pose proof (advance_inv c2 (Preview.call_id c1) (Preview.second s) r
                  (Preview.first s) (Preview.manager s)
                  (not_eq_sym Hne) He2 H2 H1) as H.
    destruct (Preview.advance c2 (Preview.second s) r (Preview.manager s))
      as [ph m']. simpl in *. destruct H as (Ha & Hb & Hc).
    split; [done|]. split; [done|].
    rewrite (clash_sym (Preview.call_id c1)), Hc.
    by rewrite (clash_sym (Preview.call_id c2)).
Qed.

Lemma schedule_from_inv (c1 c2 : Preview.Call) (turns : list Preview.turn) :
  Preview.call_id c1 ≠ Preview.call_id c2 →
  Preview.explicitPort (Preview.call_config c1) = None →
  Preview.explicitPort (Preview.call_config c2) = None →
  ∀ s,
    Preview.call_inv (Preview.call_id c1) (Preview.call_id c2)
      (Preview.first s) (Preview.manager s) →
    Preview.call_inv (Preview.call_id c2) (Preview.call_id c1)
      (Preview.second s) (Preview.manager s) →
    Preview.clash (Preview.call_id c1) (Preview.call_id c2)
      (Preview.manager (fold_left (Preview.schedule_step c1 c2) turns s))
    ↔ Preview.clash (Preview.call_id c1) (Preview.call_id c2) (Preview.manager s)
      ∨ Preview.staleProbe c1 c2 s turns = true.
Proof.
  intros Hne He1 He2.
  induction turns as [|t turns IH]; intros s H1 H2; simpl.
  - split; [by left | by intros [?|?]].
  - destruct (schedule_step_inv c1 c2 s t Hne He1 He2 H1 H2)
      as (H1' & H2' & Hc).
    rewrite (IH _ H1' H2'), Hc, orb_true_iff. tauto.
Qed.

(** A call that is testing a port which is not in usedPorts is not
    woken by a stale test; the port it tests next is not in usedPorts
    either, and it adds no port to usedPorts but the one it was
    testing. *)
Lemma advance_unused (c : Preview.Call) ph r m (q : Z) :
  Preview.explicitPort (Preview.call_config c) = None →
  (∀ p n, ph = Preview.Probing p n → p ∉ Preview.usedPorts m) →
  let a := Preview.advance c ph r m in
  Preview.stale ph r m = false
  ∧ (∀ p n, a.1 = Preview.Probing p n → p ∉ Preview.usedPorts a.2)
  ∧ (q ∉ Preview.usedPorts m → (∀ p n, ph = Preview.Probing p n → p ≠ q) →
     q ∉ Preview.usedPorts a.2).
Proof.
  intros Hexp Hun a. subst a.
  assert (Hprobe : ∀ port count p n,
            Preview.probe m port count = Preview.Probing p n →
            p ∉ Preview.usedPorts m).
  { intros port count p n. unfold Preview.probe.
    destruct (Preview.nextCandidate _ _ _) as [[p' n']|] eqn:Hnext; [|done].
    intros [= <- <-]. by apply nextCandidate_left in Hnext as [_ ?]. }
  destruct ph as [|p n|p|res].
  - destruct r as [|free|sr rd]; simpl; try done.
    rewrite Hexp. simpl. split; [done|]. split; [|done]. apply Hprobe.
  - destruct r as [|[|]|sr rd]; simpl.
    + split; [done|]. split; [by apply Hun|done].
    + split; [by apply bool_decide_eq_false, (Hun p n)|].
      split; [done|]. intros Hq Hne.
      rewrite elem_of_union, elem_of_singleton.
      intros [->|?]; [by apply (Hne p n) | done].
    + split; [done|]. split; [|done]. apply Hprobe.
    + split; [done|]. split; [by apply Hun|done].
  - destruct r as [|free|[[]|e] rd]; simpl; try done.
    split; [done|]. split; [done|].
    by rewrite (proj2 (started_state (Preview.call_id c) rd m)).
  - destruct r as [|free|sr rd]; simpl; done.
Qed.

Lemma never_same_probe_never_stale (c1 c2 : Preview.Call)
    (turns : list Preview.turn) :
  Preview.explicitPort (Preview.call_config c1) = None →
  Preview.explicitPort (Preview.call_config c2) = None →
  ∀ s,
    (∀ p n, Preview.first s = Preview.Probing p n →
       p ∉ Preview.usedPorts (Preview.manager s)) →
    (∀ p n, Preview.second s = Preview.Probing p n →
       p ∉ Preview.usedPorts (Preview.manager s)) →
    Preview.everSameProbe c1 c2 s turns = false →
    Preview.staleProbe c1 c2 s turns = false.
Proof.
  intros He1 He2.
  induction turns as [|t turns IH]; intros s H1 H2 Hnever; [done|].
  simpl in Hnever |- *. apply orb_false_iff in Hnever as [Hnow Hnever].
  assert (Hdiff : ∀ p n q k, Preview.first s = Preview.Probing p n →
            Preview.second s = Preview.Probing q k → p ≠ q).
  { intros p n q k Hf Hs. unfold Preview.sameProbe in Hnow.
    rewrite Hf, Hs in Hnow. by apply bool_decide_eq_false in Hnow. }
  apply orb_false_iff. destruct t as [r|r]; simpl.
  - assert (Hother : ∀ q k, Preview.second s = Preview.Probing q k →
              q ∉ Preview.usedPorts
                    (Preview.advance c1 (Preview.first s) r
                       (Preview.manager s)).2).
    { intros q k Hs.
      apply (advance_unused c1 (Preview.first s) r (Preview.manager s) q
               He1 H1); [by eapply H2|].
      intros p n Hf. by eapply Hdiff. }
    destruct (advance_unused c1 (Preview.first s) r (Preview.manager s) 0
                He1 H1) as (Hst & Hown & _).
    split; [done|]. apply IH; [| |done].
    + unfold Preview.schedule_step.
      destruct (Preview.advance c1 _ r _) as [ph m']. exact Hown.
    + unfold Preview.schedule_step.
      destruct (Preview.advance c1 _ r _) as [ph m']. exact Hother.
  - assert (Hother : ∀ q k, Preview.first s = Preview.Probing q k →
              q ∉ Preview.usedPorts
                    (Preview.advance c2 (Preview.second s) r
                       (Preview.manager s)).2).
    { intros q k Hf.
      apply (advance_unused c2 (Preview.second s) r (Preview.manager s) q
               He2 H2); [by eapply H1|].
      intros p n Hs. apply not_eq_sym. by eapply Hdiff. }
    destruct (advance_unused c2 (Preview.second s) r (Preview.manager s) 0
                He2 H2) as (Hst & Hown & _).
    split; [done|]. apply IH; [| |done].
    + unfold Preview.schedule_step.
      destruct (Preview.advance c2 _ r _) as [ph m']. exact Hother.
    + unfold Preview.schedule_step.
      destruct (Preview.advance c2 _ r _) as [ph m']. exact Hown.
Qed.

End Interleavings.

(** C9, amended: two overlapping createPreview calls without an explicit
    port, with fresh and different ids, are given one and the same port
    exactly in the interleavings in which a call is woken by a
    successful bind test of a port that was added to usedPorts while the
    call was suspended in that test (the call registers the port without
    reading usedPorts again).  In every other interleaving the two
    instances hold different ports; this covers every interleaving in
    which the two calls are at no time suspended in the bind test of one
    and the same port, whatever else overlaps. *)
Theorem creates_share_port_iff_stale_probe (c1 c2 : Preview.Call)
    (turns : list Preview.turn) (m : Preview.PreviewManager)
    (p1 p2 : Preview.PreviewInstance) :
  Preview.call_id c1 ≠ Preview.call_id c2 →
  Preview.explicitPort (Preview.call_config c1) = None →
  Preview.explicitPort (Preview.call_config c2) = None →
  Preview.getPreview (Preview.call_id c1) m = None →
  Preview.getPreview (Preview.call_id c2) m = None →
  let s0 := {| Preview.first := Preview.NotStarted;
               Preview.second := Preview.NotStarted;
               Preview.manager := m |} in
  let s := Preview.schedule c1 c2 turns m in
  Preview.getPreview (Preview.call_id c1) (Preview.manager s) = Some p1 →
  Preview.getPreview (Preview.call_id c2) (Preview.manager s) = Some p2 →
  (Preview.port p1 = Preview.port p2
   ↔ Preview.staleProbe c1 c2 s0 turns = true)
  ∧ (Preview.everSameProbe c1 c2 s0 turns = false →
     Preview.port p1 ≠ Preview.port p2).
Proof.
  intros Hne He1 He2 Hf1 Hf2 s0 s Hp1 Hp2.
  unfold Preview.getPreview in *.
  assert (Hiff : Preview.port p1 = Preview.port p2
                 ↔ Preview.staleProbe c1 c2 s0 turns = true).
  { assert (Hclash : Preview.clash (Preview.call_id c1) (Preview.call_id c2)
                       (Preview.manager s)
                     ↔ Preview.port p1 = Preview.port p2).
    { split.
      - intros (i & i' & Hi & Hi' & Heq). congruence.
      - intros Heq. by exists p1, p2. }
    rewrite <- Hclash. subst s. unfold Preview.schedule. fold s0.
    rewrite (schedule_from_inv c1 c2 turns Hne He1 He2 s0).
    - split; [|by right].
      intros [(i & i' & Hi & _)|?]; [|done]. simpl in Hi. congruence.
    - split; [|split]; simpl; [intros i; congruence | done | done].
    - split; [|split]; simpl; [intros i; congruence | done | done]. }
  split; [exact Hiff|]. intros Hnever. rewrite Hiff.
  rewrite (never_same_probe_never_stale c1 c2 turns He1 He2 s0); done.
Qed.

Lemma creates_share_port_iff_stale_probe_witness :
  let c1 := {| Preview.call_id := "p1"; Preview.call_now := 0;
               Preview.call_projectPath := "a";
               Preview.call_config := Preview.noPort |} in
  let c2 := {| Preview.call_id := "p2"; Preview.call_now := 0;
               Preview.call_projectPath := "b";
               Preview.call_config := Preview.noPort |} in
  let late := Preview.schedule c1 c2
                [Preview.First Preview.Begin;
                 Preview.First (Preview.BindTested true);
                 Preview.Second Preview.Begin;
                 Preview.Second (Preview.BindTested true);
                 Preview.Second (Preview.StartSettled (Ok tt) true);
                 Preview.First (Preview.StartSettled (Ok tt) true)]
                Preview.new in
  let busy := Preview.schedule c1 c2
                [Preview.First Preview.Begin;
                 Preview.Second Preview.Begin;
                 Preview.First (Preview.BindTested false);
                 Preview.Second (Preview.BindTested true);
                 Preview.First (Preview.BindTested true);
                 Preview.Second (Preview.StartSettled (Ok tt) true);
                 Preview.First (Preview.StartSettled (Ok tt) true)]
                Preview.new in
  (Preview.port <$> Preview.getPreview "p1" (Preview.manager late) = Some 3000
   ∧ Preview.port <$> Preview.getPreview "p2" (Preview.manager late)
     = Some 3001
   ∧ (3000 : Z) ≠ 3001)
  ∧ (Preview.port <$> Preview.getPreview "p1" (Preview.manager busy)
     = Some 3001
     ∧ Preview.port <$> Preview.getPreview "p2" (Preview.manager busy)
       = Some 3000
     ∧ (3001 : Z) ≠ 3000).
Proof.
  intros c1 c2 late busy.
  assert (L1 : Preview.getPreview "p1" (Preview.manager late)
               = Some {| Preview.id := "p1"; Preview.port := 3000;
                         Preview.url := "http://localhost:3000";
                         Preview.status := Preview.StatusRunning;
                         Preview.projectPath := "a";
                         Preview.lastActivity := 0 |})
    by (vm_compute; reflexivity).
  assert (L2 : Preview.getPreview "p2" (Preview.manager late)
               = Some {| Preview.id := "p2"; Preview.port := 3001;
                         Preview.url := "http://localhost:3001";
                         Preview.status := Preview.StatusRunning;
                         Preview.projectPath := "b";
                         Preview.lastActivity := 0 |})
    by (vm_compute; reflexivity).
  assert (B1 : Preview.getPreview "p1" (Preview.manager busy)
               = Some {| Preview.id := "p1"; Preview.port := 3001;
                         Preview.url := "http://localhost:3001";
                         Preview.status := Preview.StatusRunning;
                         Preview.projectPath := "a";
                         Preview.lastActivity := 0 |})
    by (vm_compute; reflexivity).
  assert (B2 : Preview.getPreview "p2" (Preview.manager busy)
               = Some {| Preview.id := "p2"; Preview.port := 3000;
                         Preview.url := "http://localhost:3000";
                         Preview.status := Preview.StatusRunning;
                         Preview.projectPath := "b";
                         Preview.lastActivity := 0 |})
    by (vm_compute; reflexivity).
  split.
  - split; [by rewrite L1|]. split; [by rewrite L2|].
    refine (proj2 (creates_share_port_iff_stale_probe c1 c2 _ Preview.new
                     _ _ ltac:(discriminate) eq_refl eq_refl eq_refl eq_refl
                     L1 L2) _).
    vm_compute. reflexivity.
  - split; [by rewrite B1|]. split; [by rewrite B2|].
    intros Hsame.
    apply (proj1 (creates_share_port_iff_stale_probe c1 c2 _ Preview.new
                    _ _ ltac:(discriminate) eq_refl eq_refl eq_refl eq_refl
                    B1 B2)) in Hsame.
    vm_compute in Hsame. discriminate Hsame.
Defined.

(** Two createPreview calls without an explicit port made one after the
    other, each run to completion, never hold the same port: the first
    call's port is in the used-port set when the second scans, and the
    scan skips it. *)
Lemma successive_creates_get_distinct_ports
    (id1 id2 : string) (now1 now2 : Z) (path1 path2 : string)
    (host1 host2 : option string) (avail1 avail2 : Z → bool)
    (start1 start2 : result unit) (readdir1 readdir2 : bool)
    (m : Preview.PreviewManager) (p1 p2 : Preview.PreviewInstance) :
  id1 ≠ id2 →
  Preview.getPreview id1 m = None →
  Preview.getPreview id2 m = None →
  let r1 := Preview.createPreview id1 now1 path1
              {| Preview.config_port := None; Preview.config_host := host1 |}
              avail1 start1 readdir1 m in
  let r2 := Preview.createPreview id2 now2 path2
              {| Preview.config_port := None; Preview.config_host := host2 |}
              avail2 start2 readdir2 r1.2 in
  Preview.getPreview id1 r2.2 = Some p1 →
  Preview.getPreview id2 r2.2 = Some p2 →
  Preview.port p1 ≠ Preview.port p2.
Proof.
  intros Hne Hf1 Hf2 r1 r2 H1 H2. unfold Preview.getPreview in *.
  destruct (createPreview_cases id2 now2 path2
              {| Preview.config_port := None; Preview.config_host := host2 |}
              avail2 start2 readdir2 r1.2)
    as [(e & _ & Heq)|(port2 & st2 & Ha2 & Hp2 & _)].
  { subst r2. rewrite Heq in H1, H2. simpl in H1, H2.
    destruct (createPreview_cases id1 now1 path1
                {| Preview.config_port := None; Preview.config_host := host1 |}
                avail1 start1 readdir1 m)
      as [(e1 & _ & Heq1)|(port1 & st1 & _ & Hp1 & _)]; subst r1.
    - rewrite Heq1 in H2. simpl in H2. congruence.
    - rewrite Hp1, lookup_insert_ne in H2 by done. congruence. }
  subst r2. rewrite Hp2 in H1, H2.
  rewrite lookup_insert_eq in H2. rewrite lookup_insert_ne in H1 by done.
  injection H2 as <-. simpl.
  destruct (createPreview_cases id1 now1 path1
              {| Preview.config_port := None; Preview.config_host := host1 |}
              avail1 start1 readdir1 m)
    as [(e1 & _ & Heq1)|(port1 & st1 & _ & Hp1 & Hu1)]; subst r1.
  - rewrite Heq1 in H1. simpl in H1. congruence.
  - rewrite Hp1, lookup_insert_eq in H1. injection H1 as <-. simpl.
    unfold Preview.allocatePort in Ha2. simpl in Ha2.
    apply findAvailablePort_unused in Ha2. rewrite Hu1 in Ha2.
    intros <-. apply Ha2. apply elem_of_union. left.
    by apply elem_of_singleton.
Qed.

Lemma successive_creates_get_distinct_ports_witness :
  let r1 := Preview.createPreview "p1" 0 "a" Preview.noPort (λ _, true)
              (Ok tt) true Preview.new in
  let r2 := Preview.createPreview "p2" 5 "b" Preview.noPort (λ _, true)
              (Ok tt) true r1.2 in
  Preview.port <$> Preview.getPreview "p1" r2.2 = Some 3000
  ∧ Preview.port <$> Preview.getPreview "p2" r2.2 = Some 3001
  ∧ (3000 : Z) ≠ 3001.
Proof.
  intros r1 r2.
  assert (H1 : Preview.getPreview "p1" r2.2
               = Some {| Preview.id := "p1"; Preview.port := 3000;
                         Preview.url := "http://localhost:3000";
                         Preview.status := Preview.StatusRunning;
                         Preview.projectPath := "a";
                         Preview.lastActivity := 0 |})
    by (vm_compute; reflexivity).
  assert (H2 : Preview.getPreview "p2" r2.2
               = Some {| Preview.id := "p2"; Preview.port := 3001;
                         Preview.url := "http://localhost:3001";
                         Preview.status := Preview.StatusRunning;
                         Preview.projectPath := "b";
                         Preview.lastActivity := 5 |})
    by (vm_compute; reflexivity).
  split; [by rewrite H1|]. split; [by rewrite H2|].
  exact (successive_creates_get_distinct_ports "p1" "p2" 0 5 "a" "b"
           None None (λ _, true) (λ _, true) (Ok tt) (Ok tt) true true
           Preview.new _ _ ltac:(discriminate) eq_refl eq_refl H1 H2).
Defined.

Example shouldAutoRestart_ts : Preview.shouldAutoRestart "src/server.ts" = true.
Proof. vm_compute. reflexivity. Qed.
Example shouldAutoRestart_json : Preview.shouldAutoRestart "package.json" = true.
Proof. vm_compute. reflexivity. Qed.
Example shouldAutoRestart_md : Preview.shouldAutoRestart "docs/README.md" = false.
Proof. vm_compute. reflexivity. Qed.
Example shouldAutoRestart_tsx : Preview.shouldAutoRestart "src/App.tsx" = false.
Proof. vm_compute. reflexivity. Qed.
Example shouldAutoRestart_dotenv : Preview.shouldAutoRestart "app/.env" = false.
Proof. vm_compute. reflexivity. Qed.

Lemma restartPreview_calls id now stopResult startResult
    (m : Preview.PreviewManager) p :
  Preview.getPreview id m = Some p →
  Preview.serverCalls (Preview.restartPreview id now stopResult startResult m).2
  = Preview.serverCalls m
    ++ Preview.ServerStop id
       :: match stopResult with
          | Ok _ => [Preview.ServerStart id (Preview.port p)]
          | Throw _ => []
          end.
Proof.
  unfold Preview.getPreview, Preview.restartPreview. intros ->.
  destruct stopResult as [[]|e]; [|done].
  destruct startResult as [[]|e]; simpl; by rewrite <- app_assoc.
Qed.

(** createPreview attaches a watcher to the new instance exactly when the
    port allocation, server.start() and readdir of the project path all
    succeed. *)
Lemma createPreview_watching id now projectPath config isPortAvailable
    (startResult : result unit) readdirOk (m : Preview.PreviewManager) :
  id ∉ Preview.watching m →
  id ∈ Preview.watching
         (Preview.createPreview id now projectPath config isPortAvailable
            startResult readdirOk m).2
  ↔ is_ok (Preview.allocatePort config isPortAvailable m) = true
    ∧ is_ok startResult = true ∧ readdirOk = true.
Proof.
  intros Hw. unfold Preview.createPreview.
  destruct (Preview.allocatePort config isPortAvailable m) as [port|e]; simpl.
  - destruct startResult as [[]|e]; simpl.
    + unfold Preview.started. destruct readdirOk; simpl.
      * split; [done|]. intros _. apply elem_of_union. left.
        by apply elem_of_singleton.
      * split; [done|]. by intros (_ & _ & ?).
    + split; [done|]. by intros (_ & ? & _).
  - split; [done|]. by intros (? & _).
Qed.

(** C8, as stated, fails: an instance can be running without a watcher.
    createPreview attaches the watcher only once readdir of the project
    path has resolved, and restartPreview, which brings an instance whose
    start failed to running, attaches none.  For such an instance a
    change of a .ts file restarts nothing, and a change of a .md file
    leaves lastActivity as it was. *)
Lemma running_instance_without_watcher :
  let m := (Preview.createPreview "p1" 0 "." Preview.noPort (λ _, true)
              (Ok tt) false Preview.new).2 in
  let m' := (Preview.restartPreview "p1" 5 (Ok tt) (Ok tt)
               (Preview.createPreview "p1" 0 "." Preview.noPort (λ _, true)
                  (Throw (Error "spawn failed")) true Preview.new).2).2 in
  (Preview.status <$> Preview.getPreview "p1" m = Some Preview.StatusRunning
   ∧ Preview.serverCalls m = [Preview.ServerStart "p1" 3000]
   ∧ Preview.shouldAutoRestart "src/server.ts" = true
   ∧ Preview.serverCalls
       (Preview.fileChange "p1" 10 11 "src/server.ts" (Ok tt) (Ok tt) m)
     = [Preview.ServerStart "p1" 3000]
   ∧ Preview.lastActivity
     <$> Preview.getPreview "p1"
           (Preview.fileChange "p1" 10 11 "docs/README.md" (Ok tt) (Ok tt) m)
     = Some 0)
  ∧ (Preview.status <$> Preview.getPreview "p1" m'
     = Some Preview.StatusRunning
     ∧ Preview.fileChange "p1" 10 11 "src/server.ts" (Ok tt) (Ok tt) m' = m'
     ∧ Preview.lastActivity
       <$> Preview.getPreview "p1"
             (Preview.fileChange "p1" 10 11 "docs/README.md" (Ok tt) (Ok tt)
                m')
       = Some 5).
Proof. cbv zeta. repeat apply conj; vm_compute; reflexivity. Qed.

(** C8, amended: for a running instance that has a watcher (createPreview
    attaches one exactly when server.start() and then readdir of the
    project path have resolved), a change notification sets lastActivity to the
    time of the notification and emits fileChanged, leaving every other
    field of the instance and of the manager as it was; it goes on to
    restartPreview of that instance (the supervisor is stopped and, if
    that succeeds, started again on the same port) exactly when
    path.extname of the changed file is one of .js, .ts, .json, .env,
    and otherwise does nothing more.  Every file name that ends in .ts
    after at least one other character of the name restarts, and none
    that ends so in .md does. *)
Theorem change_restarts_iff_extension_listed (id : string) (now now' : Z)
    (path : string) (stopResult startResult : result unit)
    (m : Preview.PreviewManager) (p : Preview.PreviewInstance) :
  Preview.getPreview id m = Some p →
  Preview.status p = Preview.StatusRunning →
  id ∈ Preview.watching m →
  let touched :=
    {| Preview.previews :=
         <[id := {| Preview.id := Preview.id p;
                    Preview.port := Preview.port p;
                    Preview.url := Preview.url p;
                    Preview.status := Preview.StatusRunning;
                    Preview.projectPath := Preview.projectPath p;
                    Preview.lastActivity := now |}]> (Preview.previews m);
       Preview.portRange := Preview.portRange m;
       Preview.usedPorts := Preview.usedPorts m;
       Preview.emitted := Preview.emitted m ++ [Preview.fileChanged id path];
       Preview.serverCalls := Preview.serverCalls m;
       Preview.watching := Preview.watching m |} in
  let after := Preview.fileChange id now now' path stopResult startResult m in
  (Path.extname path ∈ Preview.autoRestartExtensions →
     after = (Preview.restartPreview id now' stopResult startResult touched).2
     ∧ Preview.serverCalls after
       = Preview.serverCalls m
         ++ Preview.ServerStop id
            :: match stopResult with
               | Ok _ => [Preview.ServerStart id (Preview.port p)]
               | Throw _ => []
               end)
  ∧ (Path.extname path ∉ Preview.autoRestartExtensions → after = touched)
  ∧ (∀ stem c, c ≠ Path.slash →
       Preview.shouldAutoRestart (stem +:+ String c ".ts") = true
       ∧ Preview.shouldAutoRestart (stem +:+ String c ".md") = false)
  ∧ (∀ id0 t0 projectPath config isPortAvailable startResult0 readdirOk m0,
       id0 ∉ Preview.watching m0 →
       id0 ∈ Preview.watching
               (Preview.createPreview id0 t0 projectPath config
                  isPortAvailable startResult0 readdirOk m0).2
       ↔ is_ok (Preview.allocatePort config isPortAvailable m0) = true
         ∧ is_ok startResult0 = true ∧ readdirOk = true).
Proof.
  intros Hp Hrun Hwatch touched after.
  assert (Htouched :
    Preview.emit (Preview.fileChanged id path) (Preview.touch id now m)
    = touched).
  { subst touched. unfold Preview.emit, Preview.touch, Preview.with_previews.
    simpl. f_equal. unfold Preview.getPreview in Hp.
    apply map_eq. intros j. rewrite lookup_alter.
    destruct (decide (id = j)) as [<-|Hne].
    - rewrite Hp, lookup_insert_eq. simpl.
      unfold Preview.with_lastActivity. by rewrite Hrun.
    - by rewrite lookup_insert_ne. }
  subst after. unfold Preview.fileChange, Preview.onChange.
  rewrite bool_decide_eq_true_2 by done.
  unfold Preview.shouldAutoRestart. rewrite Htouched.
  split; [|split; [|split]].
  - intros Hext. rewrite bool_decide_eq_true_2 by done. split; [done|].
    rewrite (restartPreview_calls id now' stopResult startResult touched
               {| Preview.id := Preview.id p; Preview.port := Preview.port p;
                  Preview.url := Preview.url p;
                  Preview.status := Preview.StatusRunning;
                  Preview.projectPath := Preview.projectPath p;
                  Preview.lastActivity := now |}); [done|].
    unfold Preview.getPreview. subst touched. simpl.
    by rewrite lookup_insert_eq.
  - intros Hext. by rewrite bool_decide_eq_false_2.
  - intros stem c Hc. unfold Preview.shouldAutoRestart.
    change ".ts" with (String Path.dot "ts").
    change ".md" with (String Path.dot "md").
    rewrite (extname_suffix stem c "ts" Hc plain_ts) by done.
    rewrite (extname_suffix stem c "md" Hc plain_md) by done.
    split; vm_compute; reflexivity.
  - intros id0 t0 projectPath config isPortAvailable startResult0 readdirOk
      m0. apply createPreview_watching.
Qed.

Lemma change_restarts_iff_extension_listed_witness :
  let m := (Preview.createPreview "p1" 0 "." Preview.noPort (λ _, true)
              (Ok tt) true Preview.new).2 in
  let ts := Preview.fileChange "p1" 10 11 "src/server.ts" (Ok tt) (Ok tt) m in
  let md := Preview.fileChange "p1" 10 11 "docs/README.md" (Ok tt) (Ok tt) m in
  Preview.serverCalls ts
  = Preview.serverCalls m
    ++ [Preview.ServerStop "p1"; Preview.ServerStart "p1" 3000]
  ∧ Preview.lastActivity <$> Preview.getPreview "p1" md = Some 10
  ∧ Preview.status <$> Preview.getPreview "p1" md = Some Preview.StatusRunning
  ∧ Preview.serverCalls md = Preview.serverCalls m
  ∧ Preview.emitted md
    = Preview.emitted m ++ [Preview.fileChanged "p1" "docs/README.md"].
Proof.
  intros m ts md.
  assert (Hp : Preview.getPreview "p1" m
               = Some {| Preview.id := "p1"; Preview.port := 3000;
                         Preview.url := "http://localhost:3000";
                         Preview.status := Preview.StatusRunning;
                         Preview.projectPath := ".";
                         Preview.lastActivity := 0 |})
    by (vm_compute; reflexivity).
  assert (Hw : "p1" ∈ Preview.watching m) by by_compute.
  split.
  - destruct (change_restarts_iff_extension_listed "p1" 10 11 "src/server.ts"
                (Ok tt) (Ok tt) m _ Hp eq_refl Hw) as (Hrestart & _).
    apply Hrestart. by_compute.
  - destruct (change_restarts_iff_extension_listed "p1" 10 11 "docs/README.md"
                (Ok tt) (Ok tt) m _ Hp eq_refl Hw) as (_ & Hquiet & _).
    subst md. rewrite Hquiet by (intros Hin; by_compute_false Hin).
    unfold Preview.getPreview.
    cbn [Preview.previews Preview.serverCalls Preview.emitted].
    rewrite lookup_insert_eq. repeat apply conj; reflexivity.
Defined.

(* ===================================================================== *)
(*  Further properties of the cache store                                *)
(* ===================================================================== *)

Section CacheFurther.
Context {T : Type}.
Implicit Types (c : Cache.CacheManager T) (e : Cache.CacheEntry T).
Implicit Types (k key : string) (now : Z).

Lemma evictOldest_maxSize clock c :
  Cache.maxSize (Cache.evictOldest clock c) = Cache.maxSize c.
Proof.
  unfold Cache.evictOldest.
  destruct (Cache.scanOldest _ _ _ _); [|done]. by case_bool_decide.
Qed.

(** What [set] stores under its key, for any ttl argument. *)
Lemma set_lookup_ttl (clock : nat → Z) now key (v : T) t c :
  al_lookup key (Cache.cache (Cache.set clock now key v t c))
  = Some {| Cache.value := v; Cache.timestamp := now;
            Cache.ttl := Cache.ttl_or_default t c; Cache.hits := 0 |}.
Proof.
  unfold Cache.set. simpl. rewrite al_lookup_set_eq. do 2 f_equal.
  unfold Cache.ttl_or_default. case_bool_decide; [|done].
  by rewrite evictOldest_defaultTTL.
Qed.

Lemma filter_ext_in {A} (P Q : A → Prop)
    `{∀ x, Decision (P x)} `{∀ x, Decision (Q x)} (l : list A) :
  (∀ x, x ∈ l → P x ↔ Q x) → filter P l = filter Q l.
Proof.
  induction l as [|a l IH]; intros Hl; [done|].
  rewrite !filter_cons.
  assert (Ha : P a ↔ Q a) by (apply Hl; left).
  rewrite IH by (intros x Hx; apply Hl; by right).
  destruct (decide (P a)), (decide (Q a)); tauto || done.
Qed.

Lemma filter_all {A} (P : A → Prop) `{∀ x, Decision (P x)} (l : list A) :
  (∀ x, x ∈ l → P x) → filter P l = l.
Proof.
  induction l as [|a l IH]; intros Hl; [done|].
  rewrite filter_cons_True by (apply Hl; left).
  f_equal. apply IH. intros x Hx. apply Hl. by right.
Qed.

Lemma filter_not_elem_cons k0 (ks : list string)
    (l : list (string * Cache.CacheEntry T)) :
  filter (λ kv, kv.1 ∉ ks) (al_delete k0 l)
  = filter (λ kv, kv.1 ∉ k0 :: ks) l.
Proof.
  unfold al_delete. induction l as [|[k1 e1] l IH]; [done|].
  rewrite !filter_cons. simpl.
  destruct (decide (k1 ≠ k0)) as [Hne|Heq].
  - rewrite filter_cons. simpl. rewrite IH.
    destruct (decide (k1 ∉ ks)) as [Hks|Hks].
    + rewrite decide_True; [done|].
      rewrite not_elem_of_cons. done.
    + rewrite decide_False; [done|].
      rewrite not_elem_of_cons. tauto.
  - rewrite IH. rewrite decide_False; [done|].
    rewrite not_elem_of_cons. tauto.
Qed.

Lemma sweep_keys_cache keys : ∀ c,
  Cache.cache (Cache.sweep_keys keys c)
  = filter (λ kv, kv.1 ∉ keys) (Cache.cache c).
Proof.
  induction keys as [|k0 ks IH]; intros c.
  - simpl. symmetry. apply filter_all. intros x _. apply not_elem_of_nil.
  - rewrite sweep_keys_cons, IH. simpl. apply filter_not_elem_cons.
Qed.

Lemma sweep_keys_emitted keys : ∀ c,
  Cache.emitted (Cache.sweep_keys keys c)
  = Cache.emitted c ++ (Cache.EvExpired <$> keys).
Proof.
  induction keys as [|k0 ks IH]; intros c.
  - simpl. by rewrite app_nil_r.
  - rewrite sweep_keys_cons, IH. simpl. by rewrite <- app_assoc.
Qed.

End CacheFurther.

Section CacheOrder.
Context {T : Type}.
Implicit Types (c : Cache.CacheManager T) (e : Cache.CacheEntry T).
Implicit Types (k key : string) (now : Z).

Lemma al_set_absent {V} k (v : V) (l : list (string * V)) :
  al_lookup k l = None → al_set k v l = l ++ [(k, v)].
Proof.
  induction l as [|[k1 v1] r IH]; simpl; [done|].
  destruct (bool_decide (k1 = k)); [done|]. intros H. by rewrite IH.
Qed.

Lemma al_delete_middle {V} k (v : V) (l1 l2 : list (string * V)) :
  NoDup (al_keys (l1 ++ (k, v) :: l2)) →
  al_delete k (l1 ++ (k, v) :: l2) = l1 ++ l2.
Proof.
  unfold al_keys, al_delete. rewrite fmap_app, fmap_cons. simpl.
  intros Hnd. apply NoDup_app in Hnd as (_ & Hl1 & Hnd).
  apply NoDup_cons in Hnd as [Hl2 _].
  rewrite filter_app, filter_cons_False by (simpl; tauto).
  rewrite !filter_all; [done| |].
  - intros [k' v'] Hin. simpl. intros ->. apply Hl2.
    apply list_elem_of_fmap. by exists (k, v').
  - intros [k' v'] Hin. simpl. intros ->. apply (Hl1 k); [|left].
    apply list_elem_of_fmap. by exists (k, v').
Qed.

End CacheOrder.

(** X1: a get that follows a set of the same key returns the value set
    exactly when the entry has not outlived its ttl, where a ttl argument
    that is absent or 0 stands for the store's default; the first such
    get leaves the entry with one hit, a late one removes it. *)
Theorem set_then_get {T : Type} (clock : nat → Z) (now now' : Z)
    (key : string) (v : T) (t : option Z) (c : Cache.CacheManager T) :
  let ttl := match t with
             | Some x => if bool_decide (x = 0) then Cache.defaultTTL c else x
             | None => Cache.defaultTTL c
             end in
  let r := Cache.get now' key (Cache.set clock now key v t c) in
  r.1 = (if bool_decide (now' - now > ttl) then None else Some v)
  ∧ al_lookup key (Cache.cache r.2)
    = (if bool_decide (now' - now > ttl) then None
       else Some {| Cache.value := v; Cache.timestamp := now;
                    Cache.ttl := ttl; Cache.hits := 1 |}).
Proof.
  cbv zeta. unfold Cache.get. rewrite set_lookup_ttl.
  change (Cache.ttl_or_default t c) with
    (match t with
     | Some x => if bool_decide (x = 0) then Cache.defaultTTL c else x
     | None => Cache.defaultTTL c
     end).
  simpl. case_bool_decide; simpl.
  - split; [done|]. apply al_lookup_delete_eq.
  - split; [done|]. by rewrite al_lookup_set_eq.
Qed.

(** X2: the sweep removes exactly the entries with now - timestamp > ttl
    and keeps all others in their order; it emits one expired event per
    removed key, then the count if any was removed; a second sweep at the
    same time removes nothing more. *)
Theorem cleanup_keeps_exactly_live {T : Type} (now : Z)
    (c : Cache.CacheManager T) :
  Cache.wf c →
  let live := λ kv : string * Cache.CacheEntry T,
                ¬ (now - Cache.timestamp kv.2 > Cache.ttl kv.2) in
  let gone := Cache.expiredKeys now c in
  Cache.cache (Cache.cleanup now c) = filter live (Cache.cache c)
  ∧ Cache.emitted (Cache.cleanup now c)
    = Cache.emitted c ++ (Cache.EvExpired <$> gone)
      ++ (if bool_decide (gone = []) then []
          else [Cache.EvCleanup (Z.of_nat (length gone))])
  ∧ Cache.cache (Cache.cleanup now (Cache.cleanup now c))
    = Cache.cache (Cache.cleanup now c).
Proof.
  intros Hwf live gone.
  assert (Hcache : ∀ c0 : Cache.CacheManager T, Cache.wf c0 →
            Cache.cache (Cache.cleanup now c0) = filter live (Cache.cache c0)).
  { intros c0 Hwf0. rewrite cleanup_cache, sweep_keys_cache.
    apply filter_ext_in. intros [k e] Hin. simpl.
    rewrite expiredKeys_elem. split.
    - intros Hn Hexp. apply Hn. by exists e.
    - intros Hlive (e0 & Hin0 & Hexp).
      apply (al_lookup_elem_NoDup _ _ _ Hwf0) in Hin, Hin0.
      assert (e0 = e) as -> by congruence. done. }
  split; [by apply Hcache|]. split.
  - unfold Cache.cleanup. fold gone. case_bool_decide as Hlen.
    + rewrite bool_decide_eq_false_2 by (intros Hg; rewrite Hg in Hlen; simpl in Hlen; lia).
      simpl. by rewrite sweep_keys_emitted, <- app_assoc.
    + rewrite bool_decide_eq_true_2
        by (destruct gone; [done | simpl in Hlen; lia]).
      by rewrite sweep_keys_emitted, app_nil_r.
  - rewrite (Hcache (Cache.cleanup now c)) by (by apply (step_wf c (Cache.OpCleanup now))).
    rewrite Hcache by done. apply filter_all.
    intros x Hx. by apply list_elem_of_filter in Hx as [? _].
Qed.

Lemma cleanup_keeps_exactly_live_witness :
  Cache.cache (Cache.cleanup 60500 two_entries)
  = [("b", {| Cache.value := "B"; Cache.timestamp := 1000;
              Cache.ttl := 60000; Cache.hits := 0 |})]
  ∧ Cache.emitted (Cache.cleanup 60500 two_entries)
    = [Cache.EvExpired "a"; Cache.EvCleanup 1].
Proof.
  destruct (cleanup_keeps_exactly_live 60500 two_entries two_entries_wf)
    as (Hc & He & _).
  split; [rewrite Hc | rewrite He]; vm_compute; reflexivity.
Defined.

(** X3: successful gets are counted one by one: after any number of gets
    of a key made before its entry expires, the entry's hit count has
    grown by that number, its value, timestamp and ttl are unchanged, and
    no other entry and no position in the store has changed. *)
Theorem hits_count_successful_gets {T : Type} (key : string)
    (e : Cache.CacheEntry T) (nows : list Z) (c : Cache.CacheManager T) :
  al_lookup key (Cache.cache c) = Some e →
  Forall (λ now, now - Cache.timestamp e <= Cache.ttl e) nows →
  let c' := Cache.run c ((λ now, Cache.OpGet now key) <$> nows) in
  al_lookup key (Cache.cache c')
  = Some {| Cache.value := Cache.value e; Cache.timestamp := Cache.timestamp e;
            Cache.ttl := Cache.ttl e;
            Cache.hits := Cache.hits e + Z.of_nat (length nows) |}
  ∧ al_keys (Cache.cache c') = al_keys (Cache.cache c)
  ∧ (∀ k, k ≠ key →
       al_lookup k (Cache.cache c') = al_lookup k (Cache.cache c))
  ∧ Cache.emitted c' = Cache.emitted c ++ ((λ _, Cache.EvHit key) <$> nows).
Proof.
  revert e c. induction nows as [|now nows IH]; intros e c Hk Hlive; cbv zeta.
  - simpl. rewrite Z.add_0_r, app_nil_r. by destruct e.
  - apply Forall_cons in Hlive as [Hnow Hlive].
    rewrite fmap_cons. cbn [Cache.run fold_left Cache.step].
    assert (Hget : (Cache.get now key c).2
              = Cache.emit (Cache.EvHit key)
                  (Cache.with_cache
                     (al_set key (Cache.bump e) (Cache.cache c)) c)).
    { unfold Cache.get. rewrite Hk.
      by rewrite bool_decide_eq_false_2 by lia. }
    rewrite Hget.
    destruct (IH (Cache.bump e)
                (Cache.emit (Cache.EvHit key)
                   (Cache.with_cache
                      (al_set key (Cache.bump e) (Cache.cache c)) c)))
      as (H1 & H2 & H3 & H4).
    { simpl. apply al_lookup_set_eq. }
    { done. }
    unfold Cache.run in *. rewrite H1, H2, H4. simpl.
    split; [do 2 f_equal; lia|].
    split; [by apply (al_keys_set_present _ _ e)|].
    split; [|by rewrite <- app_assoc].
    intros k Hne. rewrite H3 by done. simpl. by apply al_lookup_set_ne.
Qed.

Lemma hits_count_successful_gets_witness :
  al_lookup "a"
    (Cache.cache (Cache.run two_entries
                    [Cache.OpGet 100 "a"; Cache.OpGet 2000 "a";
                     Cache.OpGet 60000 "a"]))
  = Some {| Cache.value := "A"; Cache.timestamp := 0;
            Cache.ttl := 60000; Cache.hits := 8 |}.
Proof.
  exact (proj1 (hits_count_successful_gets "a"
                  {| Cache.value := "A"; Cache.timestamp := 0;
                     Cache.ttl := 60000; Cache.hits := 5 |}
                  [100; 2000; 60000] two_entries eq_refl
                  ltac:(repeat constructor; vm_compute; discriminate))).
Defined.

(** X4: among several entries of the same least score the eviction
    removes the one inserted first.  With each score computed in double
    arithmetic at the clock reading of the iteration that visits the
    entry, the evicted entry scores strictly less than every entry
    before it in insertion order and at most as much as every entry
    after it; the others stay in their order and one 'evicted' event is
    emitted. *)
Theorem eviction_takes_earliest_of_least {T : Type} (clock : nat → Z)
    (c : Cache.CacheManager T) :
  Cache.wf c →
  Cache.cache c ≠ [] →
  "" ∉ al_keys (Cache.cache c) →
  let computed (reading : Z) (e : Cache.CacheEntry T) : spec_float :=
    Double.add (Double.number (Cache.hits e))
      (Double.div
         (Double.sub (Double.number reading)
                     (Double.number (Cache.timestamp e)))
         (Double.number 1000)) in
  ∃ l1 k e l2,
    Cache.cache c = l1 ++ (k, e) :: l2
    ∧ (∀ j k' e', l1 !! j = Some (k', e') →
         Double.lt (computed (clock (length l1)) e) (computed (clock j) e')
         = true)
    ∧ (∀ j k' e', l2 !! j = Some (k', e') →
         Double.le (computed (clock (length l1)) e)
                   (computed (clock (S (length l1 + j))) e')
         = true)
    ∧ Cache.cache (Cache.evictOldest clock c) = l1 ++ l2
    ∧ Cache.emitted (Cache.evictOldest clock c)
      = Cache.emitted c ++ [Cache.EvEvicted k].
Proof.
  intros Hwf Hne Hkeys computed. change computed with (@Cache.score T).
  destruct (evictOldest_evicts clock c Hne Hkeys)
    as (i & k & e & Hi & Hmin & Hfirst & Hev).
  pose proof (lookup_lt_Some _ _ _ Hi) as Hlt.
  pose proof (take_drop_middle _ _ _ Hi) as Hl.
  assert (Hlen : length (take i (Cache.cache c)) = i)
    by (rewrite length_take; lia).
  exists (take i (Cache.cache c)), k, e, (drop (S i) (Cache.cache c)).
  rewrite Hlen. split; [done|]. split; [|split; [|split]].
  - intros j k' e' Hj.
    pose proof (lookup_lt_Some _ _ _ Hj) as Hji. rewrite Hlen in Hji.
    rewrite lookup_take_lt in Hj by done.
    eapply not_le_lt; [apply score_within | apply score_within|].
    by apply (Hfirst j k').
  - intros j k' e' Hj. rewrite lookup_drop in Hj.
    eapply not_lt_le; [apply score_within | apply score_within|].
    by apply (Hmin (S i + j)%nat k').
  - rewrite Hev. simpl. rewrite <- Hl at 1. apply al_delete_middle.
    unfold Cache.wf in Hwf. by rewrite Hl.
  - by rewrite Hev.
Qed.

Example evictOldest_tied :
  Cache.cache (Cache.evictOldest (λ _, 2000) tied_entries)
  = [("y", {| Cache.value := "Y"; Cache.timestamp := 1000;
              Cache.ttl := 60000; Cache.hits := 1 |});
     ("z", {| Cache.value := "Z"; Cache.timestamp := 2000;
              Cache.ttl := 60000; Cache.hits := 2 |})].
Proof. vm_compute. reflexivity. Qed.

(** Scores that are equal as exact sums need not be equal as doubles:
    1 + 118/1000 is computed as 1.1179999999999999, below 1118/1000, so
    the second entry is the one evicted. *)
Example evictOldest_rounding :
  Cache.cache (Cache.evictOldest (λ _, 1118) rounded_entries)
  = [("p", {| Cache.value := "P"; Cache.timestamp := 0;
              Cache.ttl := 60000; Cache.hits := 0 |})].
Proof. vm_compute. reflexivity. Qed.

Lemma eviction_takes_earliest_of_least_witness :
  Cache.cache (Cache.evictOldest (λ _, 2000) tied_entries)
  = [("y", {| Cache.value := "Y"; Cache.timestamp := 1000;
              Cache.ttl := 60000; Cache.hits := 1 |});
     ("z", {| Cache.value := "Z"; Cache.timestamp := 2000;
              Cache.ttl := 60000; Cache.hits := 2 |})]
  ∧ Cache.emitted (Cache.evictOldest (λ _, 2000) tied_entries)
    = [Cache.EvEvicted "x"].
Proof.
  destruct (eviction_takes_earliest_of_least (λ _, 2000) tied_entries
              ltac:(by_compute) ltac:(discriminate) ltac:(by_compute))
    as (l1 & k & e & l2 & Hl & Hbefore & _ & Hcache & Hemitted).
  assert (l1 = []) as ->.
  { destruct l1 as [|[k1 e1] l1]; [done|]. exfalso.
    injection Hl as <- <- Hl.
    destruct l1 as [|[k2 e2] l1].
    - injection Hl as <- <- _.
      specialize (Hbefore 0%nat _ _ eq_refl). vm_compute in Hbefore.
      discriminate.
    - injection Hl as <- <- Hl. destruct l1 as [|[k3 e3] l1].
      + injection Hl as <- <- _.
        specialize (Hbefore 0%nat _ _ eq_refl). vm_compute in Hbefore.
        discriminate.
      + injection Hl as <- <- Hl. by destruct l1. }
  injection Hl as <- <- <-. split; [exact Hcache | exact Hemitted].
Defined.

(** X5: a set made while the store is below its capacity evicts nothing;
    a new key goes to the end of the insertion order, an existing key
    keeps its place and gets a fresh entry (hit count 0, timestamp now),
    and every other entry is untouched. *)
Theorem set_below_capacity_keeps_order {T : Type} (clock : nat → Z)
    (now : Z) (key : string) (v : T) (t : option Z)
    (c : Cache.CacheManager T) :
  Cache.size c < Cache.maxSize c →
  let fresh := {| Cache.value := v; Cache.timestamp := now;
                  Cache.ttl := Cache.ttl_or_default t c; Cache.hits := 0 |} in
  let c' := Cache.set clock now key v t c in
  Cache.emitted c' = Cache.emitted c ++ [Cache.EvSet key v]
  ∧ al_lookup key (Cache.cache c') = Some fresh
  ∧ (∀ k, k ≠ key →
       al_lookup k (Cache.cache c') = al_lookup k (Cache.cache c))
  ∧ (al_lookup key (Cache.cache c) = None →
       Cache.cache c' = Cache.cache c ++ [(key, fresh)])
  ∧ (is_Some (al_lookup key (Cache.cache c)) →
       al_keys (Cache.cache c') = al_keys (Cache.cache c)
       ∧ Cache.size c' = Cache.size c).
Proof.
  intros Hroom fresh c'. subst c'. unfold Cache.set.
  rewrite bool_decide_eq_false_2 by lia. simpl. fold fresh.
  split; [done|]. split; [apply al_lookup_set_eq|].
  split; [intros k Hne; by apply al_lookup_set_ne|].
  split; [intros Hnone; by apply al_set_absent|].
  intros [e0 He0]. split; [by apply (al_keys_set_present _ _ e0)|].
  unfold Cache.size. simpl. by rewrite (al_set_length_present _ _ e0).
Qed.

Lemma set_below_capacity_keeps_order_witness :
  Cache.cache (Cache.set (λ _, 7) 7 "b" "B" None
                 (Cache.set (λ _, 5) 5 "a" "A" (Some 10) (Cache.new 8 300)))
  = [("a", {| Cache.value := "A"; Cache.timestamp := 5;
              Cache.ttl := 10; Cache.hits := 0 |});
     ("b", {| Cache.value := "B"; Cache.timestamp := 7;
              Cache.ttl := 300; Cache.hits := 0 |})].
Proof.
  destruct (set_below_capacity_keeps_order (λ _, 7) 7 "b" "B" None
              (Cache.set (λ _, 5) 5 "a" "A" (Some 10) (Cache.new 8 300))
              ltac:(vm_compute; reflexivity)) as (_ & _ & _ & Happ & _).
  rewrite Happ by (vm_compute; reflexivity). vm_compute. reflexivity.
Defined.

(** X6: delete returns true exactly when the key was stored; afterwards
    the key is absent (get misses, has is false, a second delete returns
    false and changes nothing) and every other key is as before. *)
Theorem delete_then_absent {T : Type} (key : string)
    (c : Cache.CacheManager T) :
  let r := Cache.delete key c in
  (r.1 = true ↔ key ∈ al_keys (Cache.cache c))
  ∧ al_lookup key (Cache.cache r.2) = None
  ∧ (∀ k, k ≠ key →
       al_lookup k (Cache.cache r.2) = al_lookup k (Cache.cache c))
  ∧ Cache.delete key r.2 = (false, r.2)
  ∧ (∀ now, (Cache.get now key r.2).1 = None
            ∧ (Cache.has now key r.2).1 = false).
Proof.
  cbv zeta. unfold Cache.delete.
  destruct (al_lookup key (Cache.cache c)) as [e|] eqn:Hk; simpl.
  - assert (Hin : key ∈ al_keys (Cache.cache c)).
    { destruct (decide (key ∈ al_keys (Cache.cache c))) as [|Hn]; [done|].
      apply al_lookup_None_keys in Hn. congruence. }
    split; [done|]. rewrite al_lookup_delete_eq.
    split; [done|]. split; [intros k Hne; by apply al_lookup_delete_ne|].
    split; [done|]. intros now. unfold Cache.get, Cache.has. simpl.
    by rewrite al_lookup_delete_eq.
  - split; [split; [done|]; by intros ?%al_lookup_None_keys|].
    split; [done|]. split; [done|]. rewrite Hk. split; [done|].
    intros now. unfold Cache.get, Cache.has. by rewrite Hk.
Qed.

(* ===================================================================== *)
(*  Further properties of the file-system adapter                        *)
(* ===================================================================== *)

Section SegmentFacts.

Lemma append_nil_r s : s +:+ "" = s.
Proof. induction s as [|a s IH]; [done|]. by rewrite append_cons, IH. Qed.

Lemma append_assoc s1 s2 s3 : (s1 +:+ s2) +:+ s3 = s1 +:+ (s2 +:+ s3).
Proof.
  induction s1 as [|a s1 IH]; [done|]. by rewrite !append_cons, IH.
Qed.

Lemma prefix_append s t : String.prefix s (s +:+ t) = true.
Proof.
  induction s as [|a s IH]; [by destruct t|].
  rewrite append_cons. simpl. by destruct (ascii_dec a a).
Qed.

Lemma segments_from_slashFree s : ∀ cur,
  slashFree s = true → Path.segments_from cur s = [cur +:+ s].
Proof.
  induction s as [|a s IH]; intros cur Hs; simpl in *.
  - by rewrite append_nil_r.
  - apply andb_true_iff in Hs as [Ha Hs]. apply negb_true_iff in Ha.
    rewrite Ha, IH by done. by rewrite <- append_cons_mid.
Qed.

Lemma segments_from_app a b : ∀ cur,
  Path.segments_from cur (a +:+ String Path.slash b)
  = Path.segments_from cur a ++ Path.segments b.
Proof.
  induction a as [|x a IH]; intros cur.
  - rewrite append_nil_l. simpl. by rewrite ?bool_decide_eq_true_2.
  - rewrite append_cons. simpl. case_bool_decide; by rewrite IH.
Qed.

Lemma segments_from_all_slashFree s : ∀ cur,
  slashFree cur = true →
  Forall (λ x, slashFree x = true) (Path.segments_from cur s).
Proof.
  assert (Hsnoc : ∀ cur a, slashFree cur = true → a ≠ Path.slash →
            slashFree (cur +:+ String a "") = true).
  { induction cur as [|c cur IH]; intros a Hcur Ha.
    - rewrite append_nil_l. simpl. by rewrite bool_decide_eq_false_2.
    - rewrite append_cons. simpl in *.
      apply andb_true_iff in Hcur as [-> Hcur]. simpl. by apply IH. }
  induction s as [|a s IH]; intros cur Hcur; simpl.
  - by constructor.
  - case_bool_decide as Ha.
    + constructor; [done|]. by apply IH.
    + apply IH. by apply Hsnoc.
Qed.

Lemma segments_all_slashFree s :
  Forall (λ x, slashFree x = true) (Path.segments s).
Proof. by apply segments_from_all_slashFree. Qed.

Lemma concat_cons_cons sep x y r :
  String.concat sep (x :: y :: r)
  = x +:+ (sep +:+ String.concat sep (y :: r)).
Proof. reflexivity. Qed.

(** Joining names with "/" and splitting again gives the names back. *)
Lemma segments_concat xs :
  xs ≠ [] → Forall (λ x, slashFree x = true) xs →
  Path.segments (String.concat "/" xs) = xs.
Proof.
  induction xs as [|x xs IH]; intros Hne Hxs; [done|].
  apply Forall_cons in Hxs as [Hx Hxs].
  destruct xs as [|y r].
  - simpl. unfold Path.segments. rewrite segments_from_slashFree by done.
    by rewrite append_nil_l.
  - rewrite concat_cons_cons.
    change ("/" +:+ String.concat "/" (y :: r))
      with (String Path.slash (String.concat "/" (y :: r))).
    unfold Path.segments at 1. rewrite segments_from_app.
    rewrite segments_from_slashFree by done. rewrite append_nil_l.
    simpl. f_equal. by apply IH.
Qed.

Lemma concat_app_prefix sep xs : ∀ ys,
  ∃ t, String.concat sep (xs ++ ys) = String.concat sep xs +:+ t.
Proof.
  induction xs as [|x xs IH]; intros ys.
  - exists (String.concat sep ys). by rewrite append_nil_l.
  - destruct xs as [|y r].
    + destruct ys as [|z ys].
      * exists "". simpl. by rewrite append_nil_r.
      * exists (sep +:+ String.concat sep (z :: ys)). done.
    + destruct (IH ys) as [t Ht]. exists t.
      change ((x :: y :: r) ++ ys) with (x :: y :: (r ++ ys)).
      rewrite !concat_cons_cons.
      change (y :: r ++ ys) with ((y :: r) ++ ys). rewrite Ht.
      by rewrite !append_assoc.
Qed.

Lemma properSegment_spec s :
  properSegment s = true ↔
  slashFree s = true ∧ s ≠ "" ∧ s ≠ "." ∧ s ≠ "..".
Proof.
  unfold properSegment. rewrite !andb_true_iff, !negb_true_iff.
  rewrite !bool_decide_eq_false. tauto.
Qed.

(** Without ".." among the segments, normalizeString keeps the named
    segments in their order on top of what it already holds. *)
Lemma normalize_without_dotdot allowAboveRoot segs : ∀ res,
  ".." ∉ segs →
  fold_left (Path.normalize_step allowAboveRoot) segs res
  = rev (filter (λ s, s ≠ "" ∧ s ≠ ".") segs) ++ res.
Proof.
  induction segs as [|s segs IH]; intros res Hdd; [done|].
  apply not_elem_of_cons in Hdd as [Hs Hdd].
  simpl. rewrite IH by done. rewrite filter_cons.
  unfold Path.normalize_step.
  destruct (decide (s ≠ "" ∧ s ≠ ".")) as [Hkeep|Hskip].
  - rewrite bool_decide_eq_false_2 by tauto.
    rewrite bool_decide_eq_false_2 by done.
    simpl. by rewrite <- app_assoc.
  - rewrite bool_decide_eq_true_2; [done|].
    destruct (decide (s = "")), (decide (s = ".")); tauto.
Qed.

(** normalizeString that may not go above the root only ever holds
    proper segments. *)
Lemma normalize_proper segs : ∀ res,
  Forall (λ x, slashFree x = true) segs →
  Forall (λ x, properSegment x = true) res →
  Forall (λ x, properSegment x = true)
    (fold_left (Path.normalize_step false) segs res).
Proof.
  induction segs as [|s segs IH]; intros res Hsegs Hres; [done|].
  apply Forall_cons in Hsegs as [Hs Hsegs]. simpl. apply IH; [done|].
  unfold Path.normalize_step. case_bool_decide as H1; [done|].
  case_bool_decide as H2.
  - destruct res as [|last rest]; [done|].
    case_bool_decide; [done|]. by apply Forall_cons in Hres as [_ Hrest].
  - constructor; [|done]. apply properSegment_spec. tauto.
Qed.

Lemma components_of_joined xs :
  Forall (λ x, properSegment x = true) xs →
  NodeFS.components ("/" +:+ String.concat "/" xs) = xs.
Proof.
  intros Hxs. unfold NodeFS.components.
  change ("/" +:+ String.concat "/" xs)
    with (String Path.slash (String.concat "/" xs)).
  unfold Path.segments. simpl. rewrite ?bool_decide_eq_true_2 by done.
  rewrite filter_cons_False by (simpl; tauto).
  destruct xs as [|x xs]; [done|].
  fold (Path.segments (String.concat "/" (x :: xs))).
  rewrite segments_concat; [|done|].
  - apply filter_all. intros y Hy.
    rewrite Forall_forall in Hxs. apply Hxs in Hy.
    apply properSegment_spec in Hy. tauto.
  - eapply Forall_impl; [exact Hxs|]. intros y Hy.
    apply properSegment_spec in Hy. tauto.
Qed.

End SegmentFacts.

Section SandboxSoundness.
Variable cwd : string.

Lemma segments_of_base bs :
  Forall (λ x, properSegment x = true) bs →
  (".." ∉ Path.segments ("/" +:+ String.concat "/" bs))
  ∧ filter (λ s, s ≠ "" ∧ s ≠ ".")
      (Path.segments ("/" +:+ String.concat "/" bs)) = bs.
Proof.
  intros Hbs.
  change ("/" +:+ String.concat "/" bs)
    with (String Path.slash (String.concat "/" bs)).
  unfold Path.segments. simpl. rewrite ?bool_decide_eq_true_2 by done.
  fold (Path.segments (String.concat "/" bs)).
  destruct bs as [|b bs].
  - split; by_compute.
  - rewrite segments_concat; [|done|].
    + split.
      * rewrite not_elem_of_cons. split; [done|]. intros Hin.
        rewrite Forall_forall in Hbs. apply Hbs in Hin.
        apply properSegment_spec in Hin. tauto.
      * rewrite filter_cons_False by tauto. apply filter_all.
        intros y Hy. rewrite Forall_forall in Hbs. apply Hbs in Hy.
        apply properSegment_spec in Hy. tauto.
    + eapply Forall_impl; [exact Hbs|]. intros y Hy.
      apply properSegment_spec in Hy. tauto.
Qed.

Lemma isAbsolute_joined bs :
  Path.isAbsolute ("/" +:+ String.concat "/" bs) = true.
Proof. done. Qed.

(** Resolving a relative path without ".." against a normalized base
    appends its named segments to the base. *)
Lemma resolve_under_base bs p :
  Forall (λ x, properSegment x = true) bs →
  Path.isAbsolute p = false →
  ".." ∉ Path.segments p →
  Path.resolve cwd ["/" +:+ String.concat "/" bs; p]
  = "/" +:+ String.concat "/" (bs ++ namedSegments p).
Proof.
  intros Hbs Hrel Hdd.
  destruct (segments_of_base bs Hbs) as [Hbdd Hbkeep].
  assert (Hloop : ∃ tail,
            Path.resolve_loop cwd [p; "/" +:+ String.concat "/" bs] ""
            = (("/" +:+ String.concat "/" bs) +:+ String Path.slash tail, true)
            ∧ (".." ∉ Path.segments tail)
            ∧ filter (λ s, s ≠ "" ∧ s ≠ ".") (Path.segments tail)
              = namedSegments p).
  { simpl. case_bool_decide as Hp.
    - exists "". split; [done|]. subst p. split; by_compute.
    - rewrite Hrel. rewrite ?bool_decide_eq_false_2 by done.
      rewrite ?isAbsolute_joined.
      exists (p +:+ String Path.slash ""). split; [done|].
      unfold Path.segments at 1 2. rewrite segments_from_app.
      fold (Path.segments p). split.
      + rewrite elem_of_app. intros [?|Hin]; [done|].
        apply elem_of_cons in Hin as [?|Hin]; [done|].
        by apply elem_of_nil in Hin.
      + rewrite filter_app. unfold namedSegments.
        rewrite <- (app_nil_r (filter _ (Path.segments p))) at 2. done. }
  destruct Hloop as (tail & Hloop & Htdd & Htkeep).
  unfold Path.resolve. change (rev ["/" +:+ String.concat "/" bs; p])
    with [p; "/" +:+ String.concat "/" bs].
  rewrite Hloop. simpl negb. cbv iota. f_equal.
  unfold Path.normalizeString, Path.normalizeSegments. f_equal.
  unfold Path.segments at 1. rewrite segments_from_app.
  fold (Path.segments ("/" +:+ String.concat "/" bs)).
  rewrite normalize_without_dotdot
    by (rewrite elem_of_app; tauto).
  rewrite app_nil_r, rev_involutive, filter_app.
  by rewrite Hbkeep, Htkeep.
Qed.

Lemma namedSegments_proper p :
  ".." ∉ Path.segments p →
  Forall (λ x, properSegment x = true) (namedSegments p).
Proof.
  intros Hdd. apply Forall_forall. intros x Hx.
  unfold namedSegments in Hx. apply list_elem_of_filter in Hx as [[H1 H2] Hin].
  apply properSegment_spec. split; [|split; [done|split; [done|]]].
  - pose proof (segments_all_slashFree p) as Hall.
    rewrite Forall_forall in Hall. by apply Hall.
  - intros ->. done.
Qed.

(** The base path that the constructor stores is normalized when the
    process has an absolute working directory. *)
Lemma new_basePath_normal base :
  Path.isAbsolute cwd = true →
  ∃ bs, Forall (λ x, properSegment x = true) bs
    ∧ NodeFS.basePath (NodeFS.new cwd base) = "/" +:+ String.concat "/" bs.
Proof.
  intros Hcwd.
  assert (Hcwd' : cwd ≠ "") by (intros ->; done).
  assert (Habs : ∃ rp, Path.resolve_loop cwd [base] "" = (rp, true)).
  { simpl. case_bool_decide.
    - rewrite bool_decide_eq_false_2 by done. rewrite Hcwd. by eexists.
    - destruct (Path.isAbsolute base); [by eexists|].
      rewrite bool_decide_eq_false_2 by done. rewrite Hcwd. by eexists. }
  destruct Habs as [rp Hrp].
  exists (Path.normalizeSegments false rp). split.
  - unfold Path.normalizeSegments.
    assert (H : ∀ l : list string, Forall (λ x, properSegment x = true) l →
              Forall (λ x, properSegment x = true) (rev l)).
    { intros l Hl. apply Forall_forall. intros x Hx.
      rewrite Forall_forall in Hl. apply Hl.
      apply list_elem_of_In. apply in_rev. by apply list_elem_of_In. }
    apply H, normalize_proper; [apply segments_all_slashFree | constructor].
  - unfold NodeFS.new. simpl. unfold Path.resolve.
    change (rev [base]) with [base]. by rewrite Hrp.
Qed.

End SandboxSoundness.

(** X7: in a file system whose root was resolved in a process with an
    absolute working directory, every relative path that has no ".."
    segment is accepted by resolvePath and resolves to the root followed
    by the path's named segments, which lies inside the root directory
    component by component. *)
Theorem path_without_dotdot_stays_inside (cwd base p : string) :
  Path.isAbsolute cwd = true →
  Path.isAbsolute p = false →
  ".." ∉ Path.segments p →
  let fs := NodeFS.new cwd base in
  ∃ bs,
    NodeFS.basePath fs = "/" +:+ String.concat "/" bs
    ∧ NodeFS.resolvePath cwd fs p
      = Ok ("/" +:+ String.concat "/" (bs ++ namedSegments p))
    ∧ NodeFS.isWithin (NodeFS.basePath fs)
        ("/" +:+ String.concat "/" (bs ++ namedSegments p)) = true.
Proof.
  intros Hcwd Hrel Hdd fs.
  destruct (new_basePath_normal cwd base Hcwd) as (bs & Hbs & Hbase).
  exists bs. fold fs in Hbase. split; [done|].
  assert (Hall : Forall (λ x, properSegment x = true) (bs ++ namedSegments p)).
  { apply Forall_app. split; [done | by apply namedSegments_proper]. }
  split.
  - unfold NodeFS.resolvePath. rewrite Hbase.
    rewrite (resolve_under_base cwd bs p Hbs Hrel Hdd).
    destruct (concat_app_prefix "/" bs (namedSegments p)) as [t Ht].
    rewrite Ht, <- append_assoc. by rewrite prefix_append.
  - unfold NodeFS.isWithin. rewrite Hbase.
    rewrite !components_of_joined by done.
    apply bool_decide_eq_true. by eexists.
Qed.

Lemma path_without_dotdot_stays_inside_witness :
  ∃ bs,
    NodeFS.basePath (NodeFS.new "/srv" "work/") = "/" +:+ String.concat "/" bs
    ∧ NodeFS.resolvePath "/srv" (NodeFS.new "/srv" "work/") "src/./lib//a.ts"
      = Ok ("/" +:+ String.concat "/" (bs ++ ["src"; "lib"; "a.ts"]))
    ∧ NodeFS.isWithin (NodeFS.basePath (NodeFS.new "/srv" "work/"))
        ("/" +:+ String.concat "/" (bs ++ ["src"; "lib"; "a.ts"])) = true.
Proof.
  apply (path_without_dotdot_stays_inside "/srv" "work/" "src/./lib//a.ts");
    [reflexivity | reflexivity | by_compute].
Defined.

Example resolvePath_named_segments :
  NodeFS.resolvePath "/srv" (NodeFS.new "/srv" "work/") "src/./lib//a.ts"
  = Ok "/srv/work/src/lib/a.ts".
Proof. vm_compute. reflexivity. Qed.

(** X8: a path whose resolution does not start with the root is refused
    by every operation before the operating system is involved: the six
    throwing operations fail with the out-of-bounds error that names the
    path as given and leave the disk as it was, and exists answers false,
    also without touching the disk. *)
Theorem rejected_path_reaches_no_os (cwd : string) (os : Os)
    (fs : NodeFS.NodeFileSystem) (p : string) (d : disk os) :
  String.prefix (NodeFS.basePath fs)
    (Path.resolve cwd [NodeFS.basePath fs; p]) = false →
  let e := Error ("Path " +:+ p +:+ " is outside of allowed directory") in
  NodeFS.readFile cwd os fs p d = (Throw e, d)
  ∧ (∀ c, NodeFS.writeFile cwd os fs p c d = (Throw e, d))
  ∧ NodeFS.readdir cwd os fs p d = (Throw e, d)
  ∧ (∀ r, NodeFS.mkdir cwd os fs p r d = (Throw e, d))
  ∧ NodeFS.remove cwd os fs p d = (Throw e, d)
  ∧ NodeFS.stat cwd os fs p d = (Throw e, d)
  ∧ NodeFS.exists_ cwd os fs p d = (Ok false, d).
Proof.
  intros Hpre e.
  assert (H : NodeFS.resolvePath cwd fs p = Throw e).
  { unfold NodeFS.resolvePath. by rewrite Hpre. }
  unfold NodeFS.readFile, NodeFS.writeFile, NodeFS.readdir, NodeFS.mkdir,
    NodeFS.remove, NodeFS.stat, NodeFS.exists_,
    mbind, io_mbind, io_bind, io_of_result.
  rewrite H. done.
Qed.

Lemma rejected_path_reaches_no_os_witness :
  let fs := NodeFS.new "/" "/work" in
  let d : disk MemOs.os := {[ "/etc/passwd" := "root" ]} in
  let e := Error "Path ../etc/passwd is outside of allowed directory" in
  NodeFS.readFile "/" MemOs.os fs "../etc/passwd" d = (Throw e, d)
  ∧ (∀ c, NodeFS.writeFile "/" MemOs.os fs "../etc/passwd" c d = (Throw e, d))
  ∧ NodeFS.readdir "/" MemOs.os fs "../etc/passwd" d = (Throw e, d)
  ∧ (∀ r, NodeFS.mkdir "/" MemOs.os fs "../etc/passwd" r d = (Throw e, d))
  ∧ NodeFS.remove "/" MemOs.os fs "../etc/passwd" d = (Throw e, d)
  ∧ NodeFS.stat "/" MemOs.os fs "../etc/passwd" d = (Throw e, d)
  ∧ NodeFS.exists_ "/" MemOs.os fs "../etc/passwd" d = (Ok false, d).
Proof.
  intros fs d e.
  apply (rejected_path_reaches_no_os "/" MemOs.os fs "../etc/passwd" d).
  vm_compute. reflexivity.
Defined.

(** X9: exists never rejects: whatever the path and the host, it returns
    a boolean and leaves the disk unchanged; the answer is true exactly
    when the path passes the root check and the host grants access to
    the resolved path. *)
Theorem exists_never_throws (cwd : string) (os : Os)
    (fs : NodeFS.NodeFileSystem) (p : string) (d : disk os) :
  ∃ b, NodeFS.exists_ cwd os fs p d = (Ok b, d)
    ∧ (b = true ↔ ∃ r, NodeFS.resolvePath cwd fs p = Ok r
                       ∧ os_access os r d = Ok ()).
Proof.
  unfold NodeFS.exists_, mbind, io_mbind, io_bind, io_of_result, io_lift.
  destruct (NodeFS.resolvePath cwd fs p) as [r|e] eqn:Hr.
  - destruct (os_access os r d) as [[]|e] eqn:Ha.
    + exists true. split; [done|]. split; [|done]. intros _. by exists r.
    + exists false. split; [done|]. split; [done|].
      intros (r' & Hr' & Ha'). congruence.
  - exists false. split; [done|]. split; [done|]. by intros (r' & Hr' & _).
Qed.

(** X10: an absolute path is not taken relative to the root: its
    resolution ignores both the root and the working directory of the
    process, so it is accepted exactly when its own normal form starts
    with the root. *)
Theorem absolute_path_not_rerooted (cwd cwd' : string)
    (fs : NodeFS.NodeFileSystem) (p : string) :
  Path.isAbsolute p = true →
  Path.resolve cwd [NodeFS.basePath fs; p] = Path.resolve cwd' [p]
  ∧ NodeFS.resolvePath cwd fs p
    = (if String.prefix (NodeFS.basePath fs) (Path.resolve cwd' [p])
       then Ok (Path.resolve cwd' [p])
       else Throw (Error ("Path " +:+ p +:+ " is outside of allowed directory"))).
Proof.
  intros Habs.
  assert (Hne : p ≠ "") by (intros ->; done).
  assert (H : Path.resolve cwd [NodeFS.basePath fs; p] = Path.resolve cwd' [p]).
  { unfold Path.resolve. simpl.
    rewrite !(bool_decide_eq_false_2 (p = "")) by done.
    by rewrite Habs. }
  split; [done|]. unfold NodeFS.resolvePath. rewrite H.
  by destruct (String.prefix _ _).
Qed.

Lemma absolute_path_not_rerooted_witness :
  Path.resolve "/home/u" ["/work"; "/work/a.ts"] = Path.resolve "" ["/work/a.ts"]
  ∧ NodeFS.resolvePath "/home/u" (NodeFS.new "/home/u" "/work") "/work/a.ts"
    = (if String.prefix "/work" (Path.resolve "" ["/work/a.ts"])
       then Ok (Path.resolve "" ["/work/a.ts"])
       else Throw (Error "Path /work/a.ts is outside of allowed directory")).
Proof.
  apply (absolute_path_not_rerooted "/home/u" ""
           (NodeFS.new "/home/u" "/work") "/work/a.ts").
  reflexivity.
Defined.
(* ===================================================================== *)
(*  Further properties of the caching file-system adapter                *)
(* ===================================================================== *)

Section CacheKeys.
Context {T : Type}.
Implicit Types (c : Cache.CacheManager T) (e : Cache.CacheEntry T).
Implicit Types (k key : string) (now : Z).

Lemma evictOldest_keys clock c :
  al_keys (Cache.cache (Cache.evictOldest clock c)) ⊆ al_keys (Cache.cache c).
Proof.
  unfold Cache.evictOldest.
  destruct (Cache.scanOldest _ _ _ _); [|done].
  case_bool_decide; [|done]. simpl. apply al_keys_delete_subseteq.
Qed.

Lemma set_keys (clock : nat → Z) now key (v : T) t c x :
  x ∈ al_keys (Cache.cache (Cache.set clock now key v t c)) →
  x = key ∨ x ∈ al_keys (Cache.cache c).
Proof.
  unfold Cache.set. simpl. intros [->|Hin]%al_keys_set_subseteq; [by left|].
  right. case_bool_decide; [|done]. by apply evictOldest_keys in Hin.
Qed.

Lemma get_keys now key c :
  al_keys (Cache.cache (Cache.get now key c).2) ⊆ al_keys (Cache.cache c).
Proof.
  unfold Cache.get. destruct (al_lookup key (Cache.cache c)) as [e|] eqn:E;
    [|done].
  case_bool_decide; simpl.
  - apply al_keys_delete_subseteq.
  - by rewrite (al_keys_set_present _ _ e).
Qed.

Lemma delete_keys key c :
  al_keys (Cache.cache (Cache.delete key c).2) ⊆ al_keys (Cache.cache c).
Proof.
  unfold Cache.delete. destruct (al_lookup key (Cache.cache c)); [|done].
  simpl. apply al_keys_delete_subseteq.
Qed.


Lemma get_lookup_ne now key k c :
  key ≠ k →
  al_lookup k (Cache.cache (Cache.get now key c).2) = al_lookup k (Cache.cache c).
Proof.
  intros Hne. unfold Cache.get.
  destruct (al_lookup key (Cache.cache c)); [|done].
  case_bool_decide; simpl.
  - by apply al_lookup_delete_ne.
  - by apply al_lookup_set_ne.
Qed.

(** After a get that returned undefined the key is not stored. *)
Lemma get_None_lookup now key c :
  (Cache.get now key c).1 = None →
  al_lookup key (Cache.cache (Cache.get now key c).2) = None.
Proof.
  unfold Cache.get. destruct (al_lookup key (Cache.cache c)) eqn:E; [|done].
  case_bool_decide; simpl; [|done]. intros _. apply al_lookup_delete_eq.
Qed.


Lemma get_of_absent now key c :
  al_lookup key (Cache.cache c) = None →
  Cache.get now key c = (None, Cache.emit (Cache.EvMiss key) c).
Proof. unfold Cache.get. by intros ->. Qed.

Lemma get_live now key c e :
  al_lookup key (Cache.cache c) = Some e →
  now - Cache.timestamp e <= Cache.ttl e →
  (Cache.get now key c).1 = Some (Cache.value e).
Proof.
  intros He Hlive. unfold Cache.get. rewrite He.
  by rewrite bool_decide_eq_false_2 by lia.
Qed.

End CacheKeys.

Section AdapterFacts.
Variables (cwd : string) (os : Os).
Implicit Types (fs : OptFS.OptimizedFileSystem) (d : disk os).

Lemma NodeFS_readFile_disk nfs p d :
  (NodeFS.readFile cwd os nfs p d).2 = d.
Proof.
  unfold NodeFS.readFile, mbind, io_mbind, io_bind, io_of_result, io_lift.
  by destruct (NodeFS.resolvePath cwd nfs p).
Qed.

Lemma NodeFS_stat_disk nfs p d :
  (NodeFS.stat cwd os nfs p d).2 = d.
Proof.
  unfold NodeFS.stat, mbind, io_mbind, io_bind, io_of_result, io_lift.
  by destruct (NodeFS.resolvePath cwd nfs p).
Qed.

Lemma NodeFS_readFile_checked nfs p d c d' :
  NodeFS.readFile cwd os nfs p d = (Ok c, d') →
  is_ok (NodeFS.resolvePath cwd nfs p) = true.
Proof.
  unfold NodeFS.readFile, mbind, io_mbind, io_bind, io_of_result, io_lift.
  by destruct (NodeFS.resolvePath cwd nfs p).
Qed.

Lemma NodeFS_stat_checked nfs p d c d' :
  NodeFS.stat cwd os nfs p d = (Ok c, d') →
  is_ok (NodeFS.resolvePath cwd nfs p) = true.
Proof.
  unfold NodeFS.stat, mbind, io_mbind, io_bind, io_of_result, io_lift.
  by destruct (NodeFS.resolvePath cwd nfs p).
Qed.

Lemma NodeFS_writeFile_checked nfs p c d u d' :
  NodeFS.writeFile cwd os nfs p c d = (Ok u, d') →
  is_ok (NodeFS.resolvePath cwd nfs p) = true.
Proof.
  unfold NodeFS.writeFile, mbind, io_mbind, io_bind, io_of_result.
  by destruct (NodeFS.resolvePath cwd nfs p).
Qed.

(** A read of a path that the content cache does not hold is answered
    by the host. *)
Lemma readFile_of_absent (clock : nat → Z) now now' p fs d :
  al_lookup p (Cache.cache (OptFS.cache fs)) = None →
  (OptFS.readFile cwd os clock now now' p fs d).1.1
  = (NodeFS.readFile cwd os (OptFS.base fs) p d).1
  ∧ (OptFS.readFile cwd os clock now now' p fs d).2 = d.
Proof.
  intros Hnone. unfold OptFS.readFile. rewrite (get_of_absent _ _ _ Hnone).
  pose proof (NodeFS_readFile_disk (OptFS.base fs) p d) as Hd. simpl.
  destruct (NodeFS.readFile cwd os (OptFS.base fs) p d) as [[c|e] d'];
    simpl in *; by subst.
Qed.

Lemma stat_of_absent (clock : nat → Z) now now' p fs d :
  al_lookup p (Cache.cache (OptFS.statsCache fs)) = None →
  (OptFS.stat cwd os clock now now' p fs d).1.1
  = (NodeFS.stat cwd os (OptFS.base fs) p d).1
  ∧ (OptFS.stat cwd os clock now now' p fs d).2 = d.
Proof.
  intros Hnone. unfold OptFS.stat. rewrite (get_of_absent _ _ _ Hnone).
  pose proof (NodeFS_stat_disk (OptFS.base fs) p d) as Hd. simpl.
  destruct (NodeFS.stat cwd os (OptFS.base fs) p d) as [[c|e] d'];
    simpl in *; by subst.
Qed.

(** A read of a path whose cached entry has not expired is answered by
    the cache. *)
Lemma readFile_of_live (clock : nat → Z) now now' p fs d e :
  al_lookup p (Cache.cache (OptFS.cache fs)) = Some e →
  now - Cache.timestamp e <= Cache.ttl e →
  ∃ fs', OptFS.readFile cwd os clock now now' p fs d = (Ok (Cache.value e), fs', d)
    ∧ OptFS.recorded fs' = OptFS.recorded fs ++ ["read_cached"].
Proof.
  intros He Hlive. unfold OptFS.readFile.
  pose proof (get_live now p _ e He Hlive) as Hget.
  destruct (Cache.get now p (OptFS.cache fs)) as [cached cache1].
  simpl in Hget. subst cached. by eexists.
Qed.


End AdapterFacts.



(** X12: a successful remove drops the path from both caches, so the
    next readFile and the next stat of that path are answered by the
    host; a failed remove leaves both caches as they were. *)
Theorem remove_forgets_path (cwd : string) (os : Os) (p : string)
    (fs : OptFS.OptimizedFileSystem) (d : disk os) :
  let r := OptFS.remove cwd os p fs d in
  match r.1.1 with
  | Ok _ =>
      (p ∉ OptFS.cachedKeys r.1.2)
      ∧ ∀ (clock : nat → Z) now now' (d2 : disk os),
          (OptFS.readFile cwd os clock now now' p r.1.2 d2).1.1
          = (NodeFS.readFile cwd os (OptFS.base fs) p d2).1
          ∧ (OptFS.stat cwd os clock now now' p r.1.2 d2).1.1
            = (NodeFS.stat cwd os (OptFS.base fs) p d2).1
  | Throw _ =>
      OptFS.cache r.1.2 = OptFS.cache fs
      ∧ OptFS.statsCache r.1.2 = OptFS.statsCache fs
  end.
Proof.
  cbv zeta. unfold OptFS.remove.
  destruct (NodeFS.remove cwd os (OptFS.base fs) p d) as [[[]|e] d'];
    simpl; [|done].
  set (fs1 := OptFS.record "remove" _).
  assert (Hc : al_lookup p (Cache.cache (OptFS.cache fs1)) = None)
    by apply delete_lookup.
  assert (Hs : al_lookup p (Cache.cache (OptFS.statsCache fs1)) = None)
    by apply delete_lookup.
  split.
  - unfold OptFS.cachedKeys. rewrite elem_of_app.
    intros [Hin|Hin]; [by apply al_lookup_None_keys in Hc
                      | by apply al_lookup_None_keys in Hs].
  - intros clock now now' d2. split.
    + apply (readFile_of_absent cwd os clock now now' p fs1 d2 Hc).
    + apply (stat_of_absent cwd os clock now now' p fs1 d2 Hs).
Qed.



(** X14: the caches are keyed by the path as given, not by the file it
    resolves to: a successful writeFile of p, made while the content
    cache is below its capacity, leaves the entry of every other path
    string q as it was, so a readFile of q before that entry expires
    still returns the content cached earlier, whatever the disk holds
    (also when p and q are two spellings of one file). *)
Theorem write_keeps_other_spellings (cwd : string) (os : Os)
    (clock : nat → Z) (now t t' : Z) (p q c : string)
    (e : Cache.CacheEntry string)
    (fs fs1 : OptFS.OptimizedFileSystem) (d d1 : disk os) :
  q ≠ p →
  al_lookup q (Cache.cache (OptFS.cache fs)) = Some e →
  t - Cache.timestamp e <= Cache.ttl e →
  Cache.size (OptFS.cache fs) < Cache.maxSize (OptFS.cache fs) →
  OptFS.writeFile cwd os clock now p c fs d = (Ok tt, fs1, d1) →
  al_lookup q (Cache.cache (OptFS.cache fs1)) = Some e
  ∧ ∀ (clock' : nat → Z) (d2 : disk os),
      ∃ fs2, OptFS.readFile cwd os clock' t t' q fs1 d2
             = (Ok (Cache.value e), fs2, d2).
Proof.
  intros Hne He Hlive Hroom Hwrite. unfold OptFS.writeFile in Hwrite.
  destruct (NodeFS.writeFile cwd os _ p c d) as [[[]|err] d']; [|discriminate].
  injection Hwrite as <- <-.
  assert (Hq : al_lookup q
                 (Cache.cache (Cache.set clock now p c None (OptFS.cache fs)))
               = Some e).
  { unfold Cache.set. rewrite bool_decide_eq_false_2 by lia. simpl.
    rewrite al_lookup_set_ne by done. exact He. }
  split; [exact Hq|]. intros clock' d2.
  destruct (readFile_of_live cwd os clock' t t' q
              (OptFS.record "write"
                 (OptFS.with_statsCache
                    (Cache.delete p (OptFS.statsCache fs)).2
                    (OptFS.with_cache
                       (Cache.set clock now p c None (OptFS.cache fs)) fs)))
              d2 e Hq Hlive) as (fs2 & Hr & _).
  by exists fs2.
Qed.

Lemma write_keeps_other_spellings_witness :
  let d0 : disk MemOs.os := {[ "/work/a.txt" := "old" ]} in
  let r := OptFS.readFile "/" MemOs.os (λ _, 1000) 1000 1001 "a.txt"
             (OptFS.new "/" "/work") d0 in
  let w := OptFS.writeFile "/" MemOs.os (λ _, 2000) 2000 "./a.txt" "new"
             r.1.2 d0 in
  NodeFS.resolvePath "/" (NodeFS.new "/" "/work") "./a.txt"
  = NodeFS.resolvePath "/" (NodeFS.new "/" "/work") "a.txt"
  ∧ w.2 !! "/work/a.txt" = Some "new"
  ∧ (OptFS.readFile "/" MemOs.os (λ _, 3000) 3000 3001 "a.txt"
       w.1.2 w.2).1.1 = Ok "old".
Proof.
  intros d0 r w.
  destruct (write_keeps_other_spellings "/" MemOs.os (λ _, 2000)
              2000 3000 3001
              "./a.txt" "a.txt" "new"
              {| Cache.value := "old"; Cache.timestamp := 1001;
                 Cache.ttl := 60000; Cache.hits := 0 |}
              r.1.2 w.1.2 d0 w.2) as [_ Hread].
  - by_compute.
  - vm_compute. reflexivity.
  - vm_compute. discriminate.
  - vm_compute. reflexivity.
  - vm_compute. reflexivity.
  - split; [vm_compute; reflexivity|]. split; [vm_compute; reflexivity|].
    destruct (Hread (λ _, 3000) w.2) as (fs2 & ->). reflexivity.
Defined.

(** X15: a readFile that fails stores nothing: the path has no entry in
    the content cache afterwards, so the next readFile asks the host
    again and sees a file that has appeared in the meantime. *)
Theorem failed_read_is_not_cached (cwd : string) (os : Os)
    (clock : nat → Z) (now now' : Z) (p : string) (e : error)
    (fs fs1 : OptFS.OptimizedFileSystem) (d d1 : disk os) :
  OptFS.readFile cwd os clock now now' p fs d = (Throw e, fs1, d1) →
  NodeFS.readFile cwd os (OptFS.base fs) p d = (Throw e, d1)
  ∧ al_lookup p (Cache.cache (OptFS.cache fs1)) = None
  ∧ OptFS.recorded fs1 = OptFS.recorded fs ++ ["read_error"]
  ∧ ∀ (clock' : nat → Z) t t' (d2 : disk os),
      (OptFS.readFile cwd os clock' t t' p fs1 d2).1.1
      = (NodeFS.readFile cwd os (OptFS.base fs) p d2).1.
Proof.
  intros Hread. unfold OptFS.readFile in Hread.
  pose proof (get_None_lookup now p (OptFS.cache fs)) as Hnone.
  destruct (Cache.get now p (OptFS.cache fs)) as [[content|] cache1];
    [discriminate|].
  destruct (NodeFS.readFile cwd os (OptFS.base fs) p d) as [[c|e'] d'];
    [discriminate|].
  injection Hread as -> <- <-. simpl in Hnone.
  split; [done|]. split; [by apply Hnone|]. split; [done|].
  intros clock' t t' d2.
  refine (proj1 (readFile_of_absent cwd os clock' t t' p _ d2 _)).
  simpl. by apply Hnone.
Qed.

Lemma failed_read_is_not_cached_witness :
  let r := OptFS.readFile "/" MemOs.os (λ _, 1000) 1000 1001 "a.txt"
             (OptFS.new "/" "/work") (∅ : gmap string string) in
  r.1.1 = Throw (OsError "ENOENT")
  ∧ (OptFS.readFile "/" MemOs.os (λ _, 1002) 1002 1003 "a.txt" r.1.2
       ({[ "/work/a.txt" := "new" ]} : gmap string string)).1.1 = Ok "new".
Proof.
  intros r.
  destruct (failed_read_is_not_cached "/" MemOs.os (λ _, 1000)
              1000 1001 "a.txt"
              (OsError "ENOENT") (OptFS.new "/" "/work") r.1.2
              (∅ : gmap string string) r.2) as (_ & _ & _ & Hnext).
  - vm_compute. reflexivity.
  - split; [vm_compute; reflexivity|]. rewrite Hnext. vm_compute. reflexivity.
Defined.

Section AdapterInvariant.
Variables (cwd : string) (os : Os) (root : NodeFS.NodeFileSystem).

Local Abbreviation checked := (OptFS.checked cwd root).
Local Arguments Cache.set : simpl never.
Local Arguments Cache.delete : simpl never.
Local Arguments Cache.clear : simpl never.

Lemma checked_intro fs ks1 ks2 :
  OptFS.base fs = root →
  al_keys (Cache.cache (OptFS.cache fs)) = ks1 →
  al_keys (Cache.cache (OptFS.statsCache fs)) = ks2 →
  (∀ k, k ∈ ks1 → is_ok (NodeFS.resolvePath cwd root k) = true) →
  (∀ k, k ∈ ks2 → is_ok (NodeFS.resolvePath cwd root k) = true) →
  checked fs.
Proof.
  intros Hb <- <- H1 H2. split; [done|]. intros k.
  unfold OptFS.cachedKeys. rewrite elem_of_app. intros [?|?]; auto.
Qed.

Lemma checked_elim fs :
  checked fs →
  OptFS.base fs = root
  ∧ (∀ k, k ∈ al_keys (Cache.cache (OptFS.cache fs)) →
       is_ok (NodeFS.resolvePath cwd root k) = true)
  ∧ (∀ k, k ∈ al_keys (Cache.cache (OptFS.statsCache fs)) →
       is_ok (NodeFS.resolvePath cwd root k) = true).
Proof.
  intros [Hb H]. split; [done|].
  split; intros k Hk; apply H; unfold OptFS.cachedKeys; rewrite elem_of_app;
    auto.
Qed.

Lemma step_checked (st : OptFS.OptimizedFileSystem * disk os) (o : OptFS.op os) :
  checked st.1 → checked (OptFS.step cwd os st o).1.
Proof.
  destruct st as [fs d]. simpl.
  intros (Hb & Hc & Hs)%checked_elim.
  destruct o as [clock now now' p|clock now p c|clock now now' p|p| |change];
    simpl.
  - unfold OptFS.readFile.
    pose proof (get_keys now p (OptFS.cache fs)) as Hsub.
    destruct (Cache.get now p (OptFS.cache fs)) as [[content|] cache1];
      simpl in Hsub.
    + eapply checked_intro; cbn; eauto.
    + destruct (NodeFS.readFile cwd os (OptFS.base fs) p d)
        as [[content|e] d'] eqn:Hr; simpl.
      * eapply checked_intro; cbn; eauto.
        intros k [->|Hk]%set_keys; [|by auto].
        rewrite <- Hb. by eapply NodeFS_readFile_checked.
      * eapply checked_intro; cbn; eauto.
  - unfold OptFS.writeFile.
    destruct (NodeFS.writeFile cwd os (OptFS.base fs) p c d)
      as [[[]|e] d'] eqn:Hw; simpl.
    + eapply checked_intro; cbn; eauto.
      * intros k [->|Hk]%set_keys; [|by auto].
        rewrite <- Hb. by eapply NodeFS_writeFile_checked.
      * intros k Hk%delete_keys. auto.
    + eapply checked_intro; cbn; eauto.
  - unfold OptFS.stat.
    pose proof (get_keys now p (OptFS.statsCache fs)) as Hsub.
    destruct (Cache.get now p (OptFS.statsCache fs)) as [[stats|] cache1];
      simpl in Hsub.
    + eapply checked_intro; cbn; eauto.
    + destruct (NodeFS.stat cwd os (OptFS.base fs) p d)
        as [[stats|e] d'] eqn:Hr; simpl.
      * eapply checked_intro; cbn; eauto.
        intros k [->|Hk]%set_keys; [|by auto].
        rewrite <- Hb. by eapply NodeFS_stat_checked.
      * eapply checked_intro; cbn; eauto.
  - unfold OptFS.remove.
    destruct (NodeFS.remove cwd os (OptFS.base fs) p d) as [[[]|e] d']; simpl.
    + eapply checked_intro; cbn; eauto.
      * intros k Hk%delete_keys. auto.
      * intros k Hk%delete_keys. auto.
    + eapply checked_intro; cbn; eauto.
  - eapply checked_intro; cbn; eauto; by intros k ?%elem_of_nil.
  - eapply checked_intro; cbn; eauto.
Qed.

Lemma run_checked (ops : list (OptFS.op os)) : ∀ st,
  checked st.1 → checked (OptFS.run cwd os st ops).1.
Proof.
  induction ops as [|o ops IH]; intros st Hst; [done|].
  simpl. apply IH. by apply step_checked.
Qed.

Lemma step_recorded (st : OptFS.OptimizedFileSystem * disk os) (o : OptFS.op os) :
  length (OptFS.recorded (OptFS.step cwd os st o).1)
  = (length (OptFS.recorded st.1)
     + (if OptFS.isFileOperation os o then 1 else 0))%nat.
Proof.
  destruct st as [fs d].
  destruct o as [clock now now' p|clock now p c|clock now now' p|p| |change];
    simpl.
  - unfold OptFS.readFile.
    destruct (Cache.get now p (OptFS.cache fs)) as [[content|] cache1];
      [simpl; by rewrite List.length_app|].
    destruct (NodeFS.readFile cwd os (OptFS.base fs) p d) as [[content|e] d'];
      simpl; by rewrite List.length_app.
  - unfold OptFS.writeFile.
    destruct (NodeFS.writeFile cwd os (OptFS.base fs) p c d) as [[[]|e] d'];
      simpl; by rewrite List.length_app.
  - unfold OptFS.stat.
    destruct (Cache.get now p (OptFS.statsCache fs)) as [[stats|] cache1];
      [simpl; by rewrite List.length_app|].
    destruct (NodeFS.stat cwd os (OptFS.base fs) p d) as [[stats|e] d'];
      simpl; by rewrite List.length_app.
  - unfold OptFS.remove.
    destruct (NodeFS.remove cwd os (OptFS.base fs) p d) as [[[]|e] d'];
      simpl; by rewrite List.length_app.
  - lia.
  - lia.
Qed.

End AdapterInvariant.

(** X16: whatever sequence of readFile, writeFile, stat, remove and
    clearCache calls is made on a new adapter, interleaved with changes
    of the disk made by others, the adapter keeps the root it was built
    with and the two caches only ever hold paths that passed the root
    check of resolvePath: nothing is cached for a rejected path. *)
Theorem cached_paths_passed_root_check (cwd : string) (os : Os)
    (basePath : string) (ops : list (OptFS.op os)) (d : disk os) :
  let fs := (OptFS.run cwd os (OptFS.new cwd basePath, d) ops).1 in
  OptFS.base fs = NodeFS.new cwd basePath
  ∧ ∀ k, k ∈ OptFS.cachedKeys fs →
      is_ok (NodeFS.resolvePath cwd (NodeFS.new cwd basePath) k) = true.
Proof.
  cbv zeta.
  apply (run_checked cwd os (NodeFS.new cwd basePath) ops
           (OptFS.new cwd basePath, d)).
  split; [done|]. intros k Hk. by apply elem_of_nil in Hk.
Qed.

(** X17: each readFile, writeFile, stat and remove call reports exactly
    one operation to the performance monitor, whether it is answered
    from a cache, by the host, or fails; clearCache reports none. *)
Theorem one_record_per_file_operation (cwd : string) (os : Os)
    (ops : list (OptFS.op os)) (st : OptFS.OptimizedFileSystem * disk os) :
  length (OptFS.recorded (OptFS.run cwd os st ops).1)
  = (length (OptFS.recorded st.1)
     + length (filter (λ o, OptFS.isFileOperation os o = true) ops))%nat.
Proof.
  revert st. induction ops as [|o ops IH]; intros st; simpl; [lia|].
  rewrite IH, step_recorded, filter_cons.
  destruct (decide (OptFS.isFileOperation os o = true)) as [->|Hn]; simpl.
  - lia.
  - destruct (OptFS.isFileOperation os o); [done|]. lia.
Qed.
(* ===================================================================== *)
(*  Further properties of the terminal manager                           *)
(* ===================================================================== *)

Section TerminalFacts.
Variable host : Terminal.Host.
Implicit Types (m : Terminal.TerminalManager) (s : Terminal.TerminalSession).

Lemma resolve_nonempty cwd args : Path.resolve cwd args ≠ "".
Proof.
  unfold Path.resolve. destruct (Path.resolve_loop _ _ _) as [rp [|]].
  - done.
  - by case_bool_decide.
Qed.

(** What executeCommand leaves under the session id, in every case. *)
Lemma executeCommand_session sessionId command args m s :
  Terminal.getSession sessionId m = Some s →
  ∃ s',
    Terminal.getSession sessionId
      (Terminal.executeCommand host sessionId command args m).1.2 = Some s'
    ∧ Terminal.history s'
      = Terminal.history s ++ [command +:+ " " +:+ String.concat " " args]
    ∧ Terminal.id s' = Terminal.id s
    ∧ Terminal.terminal s' = Terminal.terminal s.
Proof.
  intros Hs. unfold Terminal.executeCommand. rewrite Hs.
  destruct (Terminal.handleBuiltinCommand _ _ _ _ _) as [[s' effs]|] eqn:Hb.
  - unfold Terminal.getSession. simpl. rewrite lookup_insert_eq.
    exists s'. split; [done|].
    unfold Terminal.handleBuiltinCommand in Hb.
    repeat case_bool_decide; simplify_eq; try done.
    unfold Terminal.handleCdCommand in Hb.
    destruct (Terminal.host_isDirectory _ _) as [[]|]; by simplify_eq.
  - destruct (Terminal.host_spawn _ _ _ _) as [pid|e];
      unfold Terminal.getSession; simpl; rewrite lookup_insert_eq;
      by eexists.
Qed.

Lemma executeCommand_other sessionId other command args m :
  other ≠ sessionId →
  Terminal.getSession other
    (Terminal.executeCommand host sessionId command args m).1.2
  = Terminal.getSession other m.
Proof.
  intros Hne. unfold Terminal.executeCommand.
  destruct (Terminal.getSession sessionId m) as [s|]; [|done].
  destruct (Terminal.handleBuiltinCommand _ _ _ _ _) as [[s' effs]|].
  - unfold Terminal.getSession. simpl. by rewrite lookup_insert_ne.
  - destruct (Terminal.host_spawn _ _ _ _);
      unfold Terminal.getSession; simpl; by rewrite lookup_insert_ne.
Qed.

Lemma not_builtin command :
  command ∉ ["cd"; "pwd"; "clear"] →
  ∀ m s args, Terminal.handleBuiltinCommand host m s command args = None.
Proof.
  intros Hn m s args. unfold Terminal.handleBuiltinCommand.
  rewrite !not_elem_of_cons in Hn. destruct Hn as (? & ? & ? & _).
  by rewrite !bool_decide_eq_false_2.
Qed.

End TerminalFacts.

(** X18: cd, pwd and clear are handled inside the manager: for a known
    session executeCommand returns the mock process (pid -1), spawns
    nothing and only writes to the console, leaves the session's live
    processes as they were, and still appends the invocation to the
    history; pwd logs the session's directory and clear does nothing
    else. *)
Theorem builtin_commands_spawn_nothing (host : Terminal.Host)
    (sessionId command : string) (args : list string)
    (m : Terminal.TerminalManager) (s : Terminal.TerminalSession) :
  Terminal.getSession sessionId m = Some s →
  command ∈ ["cd"; "pwd"; "clear"] →
  ∃ s' effects,
    Terminal.executeCommand host sessionId command args m
    = (Ok {| Terminal.exec_pid := -1; Terminal.exec_builtin := true |},
       Terminal.with_sessions (<[sessionId := s']> (Terminal.sessions m)) m,
       effects)
    ∧ Terminal.processes s' = Terminal.processes s
    ∧ Terminal.history s'
      = Terminal.history s ++ [command +:+ " " +:+ String.concat " " args]
    ∧ (∀ e, e ∈ effects →
         ∃ line, e = Terminal.ConsoleLog line ∨ e = Terminal.ConsoleError line)
    ∧ (command = "pwd" →
         effects = [Terminal.ConsoleLog (Terminal.cwd s)]
         ∧ Terminal.cwd s' = Terminal.cwd s)
    ∧ (command = "clear" → effects = [] ∧ Terminal.cwd s' = Terminal.cwd s).
Proof.
  intros Hs Hin. unfold Terminal.executeCommand. rewrite Hs.
  rewrite !elem_of_cons in Hin.
  destruct Hin as [->|[->|[->|Hin]]]; [| | |by apply elem_of_nil in Hin].
  - unfold Terminal.handleBuiltinCommand. simpl.
    unfold Terminal.handleCdCommand.
    destruct (Terminal.host_isDirectory _ _) as [[]|]; simpl;
      do 2 eexists; (split; [reflexivity|]); simpl;
      (split; [done|]); (split; [done|]);
      (split; [|done]); intros e ->%list_elem_of_singleton; eauto.
  - unfold Terminal.handleBuiltinCommand. simpl.
    do 2 eexists. split; [reflexivity|]. simpl.
    split; [done|]. split; [done|]. split; [|done].
    intros e ->%list_elem_of_singleton; eauto.
  - unfold Terminal.handleBuiltinCommand. simpl.
    do 2 eexists. split; [reflexivity|]. simpl.
    split; [done|]. split; [done|]. split; [|done].
    by intros e ?%elem_of_nil.
Qed.

Lemma builtin_commands_spawn_nothing_witness :
  let m := (Terminal.createSession "terminal_0_x" (Some "s1")
              (Terminal.new "/work")).2 in
  (Terminal.executeCommand Terminal.sample_host "s1" "pwd" [] m).1.1
  = Ok {| Terminal.exec_pid := -1; Terminal.exec_builtin := true |}
  ∧ (Terminal.executeCommand Terminal.sample_host "s1" "pwd" [] m).2
    = [Terminal.ConsoleLog "/work"].
Proof.
  intros m.
  destruct (builtin_commands_spawn_nothing Terminal.sample_host "s1" "pwd" []
              m _ eq_refl ltac:(by_compute))
    as (s' & effects & Hex & _ & _ & _ & Hpwd & _).
  rewrite Hex. split; [reflexivity|]. simpl.
  by destruct (Hpwd eq_refl) as [-> _].
Defined.

(** X19: a cd whose target exists as a directory moves the session: the
    target is the argument itself when it is absolute and otherwise the
    argument resolved against the session's directory; a later pwd logs
    it and a later external command is spawned there and tracked under
    its pid. *)
Theorem cd_moves_later_commands (host : Terminal.Host)
    (sessionId dir command : string) (args : list string) (pid : Z)
    (m : Terminal.TerminalManager) (s : Terminal.TerminalSession) :
  Terminal.getSession sessionId m = Some s →
  dir ≠ "" →
  let target :=
    if Path.isAbsolute dir then dir
    else Path.resolve (Terminal.host_cwd host) [Terminal.cwd s; dir] in
  Terminal.host_isDirectory host target = Some true →
  command ∉ ["cd"; "pwd"; "clear"] →
  Terminal.host_spawn host command args target = Ok pid →
  let m1 := (Terminal.executeCommand host sessionId "cd" [dir] m).1.2 in
  let process := {| Terminal.pid := pid; Terminal.command := command;
                    Terminal.args := args; Terminal.spawnCwd := target |} in
  (Terminal.executeCommand host sessionId "pwd" [] m1).2
  = [Terminal.ConsoleLog target]
  ∧ (Terminal.executeCommand host sessionId command args m1).2
    = [Terminal.Spawned process]
  ∧ ∃ s2,
      Terminal.getSession sessionId
        (Terminal.executeCommand host sessionId command args m1).1.2 = Some s2
      ∧ Terminal.processes s2 !! pid = Some process
      ∧ Terminal.cwd s2 = target.
Proof.
  intros Hs Hdir target Hisdir Hext Hspawn m1 process.
  assert (Htarget : target ≠ "").
  { subst target. destruct (Path.isAbsolute dir); [done|].
    apply resolve_nonempty. }
  assert (Hm1 : ∃ s1, Terminal.getSession sessionId m1 = Some s1
                      ∧ Terminal.cwd s1 = target).
  { subst m1. unfold Terminal.executeCommand. rewrite Hs.
    unfold Terminal.handleBuiltinCommand. simpl.
    unfold Terminal.handleCdCommand. simpl.
    assert (Hor : ∀ x, or_else (Some dir) x = dir).
    { intros x. unfold or_else, truthy.
      by rewrite bool_decide_eq_false_2. }
    rewrite !Hor.
    assert (Ht : (if negb (Path.isAbsolute dir)
                  then Path.resolve (Terminal.host_cwd host)
                         [Terminal.cwd s; dir]
                  else dir) = target)
      by (subst target; by destruct (Path.isAbsolute dir)).
    rewrite !Ht, Hisdir. unfold Terminal.getSession. simpl.
    rewrite lookup_insert_eq. by eexists. }
  destruct Hm1 as (s1 & Hs1 & Hcwd).
  split; [|split].
  - unfold Terminal.executeCommand. rewrite Hs1.
    unfold Terminal.handleBuiltinCommand. simpl. by rewrite Hcwd.
  - unfold Terminal.executeCommand. rewrite Hs1.
    rewrite (not_builtin host command Hext). simpl.
    unfold or_else, truthy. rewrite Hcwd.
    rewrite bool_decide_eq_false_2 by done. by rewrite Hspawn.
  - unfold Terminal.executeCommand. rewrite Hs1.
    rewrite (not_builtin host command Hext). simpl.
    unfold or_else, truthy. rewrite Hcwd.
    rewrite bool_decide_eq_false_2 by done. rewrite Hspawn.
    unfold Terminal.getSession. simpl. rewrite lookup_insert_eq.
    eexists. split; [done|]. simpl. by rewrite lookup_insert_eq.
Qed.

Lemma cd_moves_later_commands_witness :
  let m := (Terminal.createSession "terminal_0_x" (Some "s1")
              (Terminal.new "/work")).2 in
  let m1 := (Terminal.executeCommand Terminal.sample_host "s1" "cd" ["../tmp"]
               m).1.2 in
  (Terminal.executeCommand Terminal.sample_host "s1" "pwd" [] m1).2
  = [Terminal.ConsoleLog "/tmp"]
  ∧ (Terminal.executeCommand Terminal.sample_host "s1" "ls" ["-l"] m1).2
    = [Terminal.Spawned {| Terminal.pid := 4242; Terminal.command := "ls";
                           Terminal.args := ["-l"];
                           Terminal.spawnCwd := "/tmp" |}].
Proof.
  intros m m1.
  destruct (cd_moves_later_commands Terminal.sample_host "s1" "../tmp" "ls"
              ["-l"] 4242 m _ eq_refl ltac:(discriminate) eq_refl
              ltac:(by_compute) eq_refl) as (Hpwd & Hls & _).
  split; [exact Hpwd | exact Hls].
Defined.

(** X20: the history of a session is append-only and complete: after
    any list of commands issued on a known session, built-in or not,
    spawned or failed to spawn, the history is the old one followed by
    one line 'command args' per command in order; the other sessions
    are not touched. *)
Theorem history_records_every_command (host : Terminal.Host)
    (sessionId : string) (commands : list (string * list string))
    (m : Terminal.TerminalManager) (s : Terminal.TerminalSession) :
  Terminal.getSession sessionId m = Some s →
  Terminal.getSessionHistory sessionId
    (Terminal.executeAll host sessionId commands m)
  = Terminal.history s
    ++ ((λ c, c.1 +:+ " " +:+ String.concat " " c.2) <$> commands)
  ∧ ∀ other, other ≠ sessionId →
      Terminal.getSession other (Terminal.executeAll host sessionId commands m)
      = Terminal.getSession other m.
Proof.
  revert m s. induction commands as [|[c a] cs IH]; intros m s Hs.
  - simpl. unfold Terminal.getSessionHistory. rewrite Hs.
    by rewrite app_nil_r.
  - destruct (executeCommand_session host sessionId c a m s Hs)
      as (s' & Hs' & Hh & _).
    destruct (IH _ _ Hs') as [IHh IHo]. simpl. split.
    + rewrite IHh, Hh. by rewrite <- app_assoc.
    + intros other Hne. rewrite IHo by done.
      by apply executeCommand_other.
Qed.

Lemma history_records_every_command_witness :
  Terminal.getSessionHistory "s1"
    (Terminal.executeAll Terminal.sample_host "s1"
       [("cd", ["/nowhere"]); ("ls", ["-l"; "src"]); ("pwd", [])]
       (Terminal.createSession "terminal_0_x" (Some "s1")
          (Terminal.new "/work")).2)
  = ["cd /nowhere"; "ls -l src"; "pwd "].
Proof.
  apply (history_records_every_command Terminal.sample_host "s1"
           [("cd", ["/nowhere"]); ("ls", ["-l"; "src"]); ("pwd", [])]
           (Terminal.createSession "terminal_0_x" (Some "s1")
              (Terminal.new "/work")).2 _ eq_refl).
Defined.

(** X21: an external command that spawns is tracked under its pid for
    as long as it lives: killProcess on that pid then succeeds with one
    SIGTERM, but once the process's exit callback has run the pid is no
    longer tracked, killProcess returns false and no signal is sent. *)
Theorem process_tracked_until_exit (host : Terminal.Host)
    (sessionId command : string) (args : list string) (pid : Z)
    (m : Terminal.TerminalManager) (s : Terminal.TerminalSession) :
  Terminal.getSession sessionId m = Some s →
  command ∉ ["cd"; "pwd"; "clear"] →
  Terminal.host_spawn host command args
    (or_else (Some (Terminal.cwd s)) (Terminal.terminal s)) = Ok pid →
  let r := Terminal.executeCommand host sessionId command args m in
  r.1.1 = Ok {| Terminal.exec_pid := pid; Terminal.exec_builtin := false |}
  ∧ (Terminal.killProcess sessionId pid r.1.2).1.1 = true
  ∧ (Terminal.killProcess sessionId pid r.1.2).2
    = [Terminal.Killed pid "SIGTERM"]
  ∧ Terminal.killProcess sessionId pid (Terminal.onExit sessionId pid r.1.2)
    = (false, Terminal.onExit sessionId pid r.1.2, []).
Proof.
  intros Hs Hext Hspawn r. subst r. unfold Terminal.executeCommand.
  rewrite Hs, (not_builtin host command Hext). simpl. rewrite Hspawn. simpl.
  split; [done|].
  unfold Terminal.killProcess, Terminal.onExit, Terminal.getSession. simpl.
  rewrite lookup_insert_eq. simpl. rewrite lookup_insert_eq.
  split; [done|]. split; [done|].
  rewrite lookup_alter_eq, lookup_insert_eq. simpl.
  by rewrite lookup_delete_eq.
Qed.

Lemma process_tracked_until_exit_witness :
  let m := (Terminal.createSession "terminal_0_x" (Some "s1")
              (Terminal.new "/work")).2 in
  let r := Terminal.executeCommand Terminal.sample_host "s1" "node" ["app.js"]
             m in
  r.1.1 = Ok {| Terminal.exec_pid := 4242; Terminal.exec_builtin := false |}
  ∧ (Terminal.killProcess "s1" 4242 r.1.2).1.1 = true
  ∧ (Terminal.killProcess "s1" 4242 r.1.2).2 = [Terminal.Killed 4242 "SIGTERM"]
  ∧ Terminal.killProcess "s1" 4242 (Terminal.onExit "s1" 4242 r.1.2)
    = (false, Terminal.onExit "s1" 4242 r.1.2, []).
Proof.
  intros m.
  apply (process_tracked_until_exit Terminal.sample_host "s1" "node"
           ["app.js"] 4242 m _ eq_refl ltac:(by_compute) eq_refl).
Defined.

(** X22: destroySession returns true exactly for a known session; it
    then sends one SIGTERM per live process of that session, forgets the
    session and leaves the others alone, after which executeCommand on
    the id throws, killProcess and a second destroySession return false
    and the history reads empty. *)
Theorem destroySession_forgets_session (host : Terminal.Host)
    (sessionId : string) (m : Terminal.TerminalManager) :
  let r := Terminal.destroySession sessionId m in
  (r.1.1 = true ↔ is_Some (Terminal.getSession sessionId m))
  ∧ Terminal.getSession sessionId r.1.2 = None
  ∧ (∀ other, other ≠ sessionId →
       Terminal.getSession other r.1.2 = Terminal.getSession other m)
  ∧ (∀ s, Terminal.getSession sessionId m = Some s →
       length r.2 = base.size (Terminal.processes s)
       ∧ ∀ pid, Terminal.Killed pid "SIGTERM" ∈ r.2
                ↔ ∃ p, p ∈ map_to_list (Terminal.processes s)
                       ∧ Terminal.pid p.2 = pid)
  ∧ (Terminal.getSession sessionId m = None → r = (false, m, []))
  ∧ (∀ command args,
       Terminal.executeCommand host sessionId command args r.1.2
       = (Throw (Terminal.notFound sessionId), r.1.2, []))
  ∧ (∀ pid, Terminal.killProcess sessionId pid r.1.2 = (false, r.1.2, []))
  ∧ Terminal.destroySession sessionId r.1.2 = (false, r.1.2, [])
  ∧ Terminal.getSessionHistory sessionId r.1.2 = [].
Proof.
  cbv zeta.
  assert (Hgone : Terminal.getSession sessionId
                    (Terminal.destroySession sessionId m).1.2 = None).
  { unfold Terminal.destroySession.
    destruct (Terminal.getSession sessionId m) eqn:Hs; simpl; [|done].
    unfold Terminal.getSession. simpl. apply lookup_delete_eq. }
  split.
  { unfold Terminal.destroySession.
    destruct (Terminal.getSession sessionId m); simpl.
    - split; [by eexists | done].
    - split; [done | by intros [? ?]]. }
  split; [exact Hgone|]. split.
  { intros other Hne. unfold Terminal.destroySession.
    destruct (Terminal.getSession sessionId m); simpl; [|done].
    unfold Terminal.getSession. simpl. by apply lookup_delete_ne. }
  split.
  { intros s Hs. unfold Terminal.destroySession. rewrite Hs. simpl.
    split.
    - rewrite length_fmap. apply length_map_to_list.
    - intros pid. rewrite list_elem_of_fmap. split.
      + intros (p & Heq & Hin). exists p. split; [done|]. by simplify_eq.
      + intros (p & Hin & <-). by exists p. }
  split.
  { intros Hs. unfold Terminal.destroySession. by rewrite Hs. }
  split.
  { intros command args. unfold Terminal.executeCommand. by rewrite Hgone. }
  split.
  { intros pid. unfold Terminal.killProcess. by rewrite Hgone. }
  split.
  { unfold Terminal.destroySession at 1. by rewrite Hgone. }
  unfold Terminal.getSessionHistory. by rewrite Hgone.
Qed.

(** X23: createSession on an id that is already in use replaces the
    session: the new one starts in the manager's working directory with
    an empty history and no tracked process, so the processes of the
    replaced session can no longer be killed through the manager; an
    absent or empty id argument makes the generated id the key. *)
Theorem createSession_replaces_session (generated : string)
    (sessionId : option string) (m : Terminal.TerminalManager) :
  let id := or_else sessionId generated in
  let r := Terminal.createSession generated sessionId m in
  Terminal.getSession id r.2 = Some r.1
  ∧ Terminal.id r.1 = id
  ∧ Terminal.cwd r.1 = Terminal.workingDirectory m
  ∧ Terminal.getSessionHistory id r.2 = []
  ∧ (∀ pid, Terminal.killProcess id pid r.2 = (false, r.2, []))
  ∧ (∀ other, other ≠ id →
       Terminal.getSession other r.2 = Terminal.getSession other m)
  ∧ (sessionId = None ∨ sessionId = Some "" → id = generated)
  ∧ (∀ x, sessionId = Some x → x ≠ "" → id = x).
Proof.
  cbv zeta. unfold Terminal.createSession, Terminal.getSessionHistory,
    Terminal.killProcess, Terminal.getSession. simpl.
  rewrite lookup_insert_eq. simpl.
  split; [done|]. split; [done|]. split; [done|]. split; [done|].
  split; [done|].
  split; [intros other Hne; by apply lookup_insert_ne|].
  split.
  - by intros [->| ->].
  - intros x -> Hx. unfold or_else, truthy.
    by rewrite bool_decide_eq_false_2.
Qed.
(* ===================================================================== *)
(*  Further properties of the preview manager                            *)
(* ===================================================================== *)

Section PortSearch.
Implicit Types (m : Preview.PreviewManager) (used : gset Z).

(** The loop of findAvailablePort returns the first port from [port]
    that is neither used nor refused by the bind test. *)
Lemma findAvailablePort_from_least used isPortAvailable count : ∀ port,
  match Preview.findAvailablePort_from used isPortAvailable port count with
  | Ok p =>
      (port <= p < port + Z.of_nat count)
      ∧ (p ∉ used) ∧ isPortAvailable p = true
      ∧ ∀ q, port <= q < p → q ∈ used ∨ isPortAvailable q = false
  | Throw e =>
      e = Preview.noPorts
      ∧ ∀ q, port <= q < port + Z.of_nat count →
          q ∈ used ∨ isPortAvailable q = false
  end.
Proof.
  induction count as [|n IH]; intros port; simpl.
  - split; [done|]. intros q Hq. lia.
  - destruct (negb (bool_decide (port ∈ used)) && isPortAvailable port) eqn:E.
    + apply andb_true_iff in E as [E1 E2].
      apply negb_true_iff, bool_decide_eq_false in E1.
      split; [lia|]. split; [done|]. split; [done|]. intros q Hq. lia.
    + assert (Hport : port ∈ used ∨ isPortAvailable port = false).
      { apply andb_false_iff in E as [E|E]; [left | by right].
        by apply negb_false_iff, bool_decide_eq_true in E. }
      specialize (IH (port + 1)).
      destruct (Preview.findAvailablePort_from used isPortAvailable
                  (port + 1) n) as [p|e].
      * destruct IH as (Hr & Hu & Ha & Hleast). split; [lia|].
        split; [done|]. split; [done|]. intros q Hq.
        destruct (decide (q = port)) as [->|Hne]; [done|].
        apply Hleast. lia.
      * destruct IH as [-> Hall]. split; [done|]. intros q Hq.
        destruct (decide (q = port)) as [->|Hne]; [done|].
        apply Hall. lia.
Qed.

End PortSearch.

(** X24: findAvailablePort returns the least port of the range that is
    not in the used-port set and passes the bind test, and throws 'No
    available ports in range' exactly when the range has no such port. *)
Theorem findAvailablePort_least_free (isPortAvailable : Z → bool)
    (m : Preview.PreviewManager) :
  match Preview.findAvailablePort isPortAvailable m with
  | Ok p =>
      ((Preview.portRange m).1 <= p <= (Preview.portRange m).2)
      ∧ (p ∉ Preview.usedPorts m) ∧ isPortAvailable p = true
      ∧ ∀ q, (Preview.portRange m).1 <= q < p →
          q ∈ Preview.usedPorts m ∨ isPortAvailable q = false
  | Throw e =>
      e = Preview.noPorts
      ∧ ∀ q, (Preview.portRange m).1 <= q <= (Preview.portRange m).2 →
          q ∈ Preview.usedPorts m ∨ isPortAvailable q = false
  end.
Proof.
  unfold Preview.findAvailablePort.
  pose proof (findAvailablePort_from_least (Preview.usedPorts m)
                isPortAvailable (Preview.rangeCount m) (Preview.portRange m).1)
    as H.
  unfold Preview.rangeCount in *.
  destruct (Preview.findAvailablePort_from _ _ _ _) as [p|e].
  - destruct H as (Hr & Hrest). split; [lia | exact Hrest].
  - destruct H as [-> Hall]. split; [done|]. intros q Hq. apply Hall. lia.
Qed.

(** X25: when every port of the range is in use or refused by the bind
    test, a createPreview that names no port fails with 'No available
    ports in range' before anything is registered: no instance, no used
    port, no event and no call on a dev server. *)
Theorem createPreview_without_free_port (id : string) (now : Z)
    (projectPath : string) (config : Preview.PreviewConfig)
    (isPortAvailable : Z → bool) (startResult : result unit)
    (readdirOk : bool) (m : Preview.PreviewManager) :
  Preview.explicitPort config = None →
  (∀ q, (Preview.portRange m).1 <= q <= (Preview.portRange m).2 →
     q ∈ Preview.usedPorts m ∨ isPortAvailable q = false) →
  Preview.createPreview id now projectPath config isPortAvailable
    startResult readdirOk m
  = (Throw Preview.noPorts, m).
Proof.
  intros Hcfg Hall. unfold Preview.createPreview, Preview.allocatePort.
  rewrite Hcfg.
  unfold Preview.findAvailablePort.
  pose proof (findAvailablePort_from_least (Preview.usedPorts m)
                isPortAvailable (Preview.rangeCount m) (Preview.portRange m).1)
    as H.
  unfold Preview.rangeCount in *.
  destruct (Preview.findAvailablePort_from _ _ _ _) as [p|e].
  - destruct H as (Hr & Hu & Ha & _).
    destruct (Hall p ltac:(lia)) as [?|?]; [done | congruence].
  - by destruct H as [-> _].
Qed.

Lemma createPreview_without_free_port_witness :
  Preview.createPreview "preview_1_a" 1000 "/work/app" Preview.noPort
    (λ _, false) (Ok tt) true Preview.new
  = (Throw (Error "No available ports in range"), Preview.new).
Proof.
  apply (createPreview_without_free_port "preview_1_a" 1000 "/work/app"
           Preview.noPort (λ _, false) (Ok tt) true Preview.new eq_refl).
  intros q _. by right.
Defined.

Section PortsKept.
Implicit Types (m : Preview.PreviewManager) (id : string).

Lemma keepsPorts_refl m : Preview.keepsPorts m m.
Proof. split; [done|]. split; [done|]. intros k p Hk. by exists p. Qed.

Lemma keepsPorts_trans m1 m2 m3 :
  Preview.keepsPorts m1 m2 → Preview.keepsPorts m2 m3 →
  Preview.keepsPorts m1 m3.
Proof.
  intros (Hu1 & Hr1 & Hp1) (Hu2 & Hr2 & Hp2).
  split; [congruence|]. split; [congruence|].
  intros k p Hk. destruct (Hp2 k p Hk) as (p2 & Hk2 & Hport2).
  destruct (Hp1 k p2 Hk2) as (p1 & Hk1 & Hport1).
  exists p1. split; [done | congruence].
Qed.

Lemma keepsPorts_alter (f : Preview.PreviewInstance → Preview.PreviewInstance)
    id m :
  (∀ p, Preview.port (f p) = Preview.port p) →
  Preview.keepsPorts m
    (Preview.with_previews (alter f id (Preview.previews m)) m).
Proof.
  intros Hf. split; [done|]. split; [done|]. simpl. intros k p.
  destruct (decide (id = k)) as [->|Hne].
  - rewrite lookup_alter_eq.
    destruct (Preview.previews m !! k) as [p0|]; simpl; [|done].
    intros [= <-]. exists p0. by rewrite Hf.
  - rewrite lookup_alter_ne by done. intros Hk. by exists p.
Qed.

Lemma keepsPorts_setStatus id st m :
  Preview.keepsPorts m (Preview.setStatus id st m).
Proof. by apply keepsPorts_alter. Qed.

Lemma keepsPorts_touch id now m :
  Preview.keepsPorts m (Preview.touch id now m).
Proof. by apply keepsPorts_alter. Qed.

Lemma keepsPorts_emit ev m : Preview.keepsPorts m (Preview.emit ev m).
Proof. split; [done|]. split; [done|]. intros k p Hk. by exists p. Qed.

Lemma keepsPorts_call c m : Preview.keepsPorts m (Preview.call c m).
Proof. split; [done|]. split; [done|]. intros k p Hk. by exists p. Qed.

Lemma keepsPorts_watch id m : Preview.keepsPorts m (Preview.watch id m).
Proof. split; [done|]. split; [done|]. intros k p Hk. by exists p. Qed.

Lemma keepsPorts_started id readdirOk m :
  Preview.keepsPorts m (Preview.started id readdirOk m).
Proof.
  unfold Preview.started.
  assert (H : Preview.keepsPorts m
                (Preview.emit (Preview.previewStarted id)
                   (Preview.setStatus id Preview.StatusRunning m))).
  { eapply keepsPorts_trans; [apply keepsPorts_setStatus|].
    apply keepsPorts_emit. }
  destruct readdirOk; [|done].
  eapply keepsPorts_trans; [exact H | apply keepsPorts_watch].
Qed.

Lemma keepsPorts_startFailed id e m :
  Preview.keepsPorts m (Preview.startFailed id e m).
Proof.
  unfold Preview.startFailed.
  eapply keepsPorts_trans; [apply keepsPorts_setStatus|].
  apply keepsPorts_emit.
Qed.

Lemma keepsPorts_restartPreview id now stopResult startResult m :
  Preview.keepsPorts m
    (Preview.restartPreview id now stopResult startResult m).2.
Proof.
  unfold Preview.restartPreview.
  destruct (Preview.previews m !! id) as [preview|];
    [|apply keepsPorts_refl].
  destruct stopResult as [[]|e]; simpl.
  - destruct startResult as [[]|e]; simpl.
    + repeat (eapply keepsPorts_trans;
        [|first [apply keepsPorts_emit | apply keepsPorts_touch
                | apply keepsPorts_setStatus | apply keepsPorts_call]]).
      apply keepsPorts_refl.
    + repeat (eapply keepsPorts_trans;
        [|first [apply keepsPorts_emit | apply keepsPorts_touch
                | apply keepsPorts_setStatus | apply keepsPorts_call]]).
      apply keepsPorts_refl.
  - repeat (eapply keepsPorts_trans;
      [|first [apply keepsPorts_emit | apply keepsPorts_touch
              | apply keepsPorts_setStatus | apply keepsPorts_call]]).
    apply keepsPorts_refl.
Qed.

Lemma keepsPorts_fileChange id now now' path stopResult startResult m :
  Preview.keepsPorts m
    (Preview.fileChange id now now' path stopResult startResult m).
Proof.
  unfold Preview.fileChange. case_bool_decide; [|apply keepsPorts_refl].
  unfold Preview.onChange.
  assert (Hkept : Preview.keepsPorts m
                    (Preview.emit (Preview.fileChanged id path)
                       (Preview.touch id now m))).
  { eapply keepsPorts_trans; [apply keepsPorts_touch|apply keepsPorts_emit]. }
  destruct (Preview.shouldAutoRestart path); [|done].
  eapply keepsPorts_trans; [exact Hkept | apply keepsPorts_restartPreview].
Qed.

Lemma portsDistinct_kept m m' :
  Preview.keepsPorts m m' → Preview.portsDistinct m → Preview.portsDistinct m'.
Proof.
  intros (Hu & Hr & Hp) [Hin Hdist]. split.
  - intros k p Hk. destruct (Hp k p Hk) as (p0 & Hk0 & Hport).
    rewrite Hu, Hr, <- Hport. by apply (Hin k).
  - intros k1 k2 p1 p2 Hne Hk1 Hk2.
    destruct (Hp k1 p1 Hk1) as (q1 & Hq1 & <-).
    destruct (Hp k2 p2 Hk2) as (q2 & Hq2 & <-).
    by apply (Hdist k1 k2).
Qed.

Lemma portsDistinct_register id now projectPath config port m :
  port ∉ Preview.usedPorts m →
  (Preview.portRange m).1 <= port <= (Preview.portRange m).2 →
  Preview.portsDistinct m →
  Preview.portsDistinct (Preview.register id now projectPath config port m).
Proof.
  intros Hfree Hrange [Hin Hdist]. split.
  - intros k p. simpl. destruct (decide (id = k)) as [<-|Hne].
    + rewrite lookup_insert_eq. intros [= <-]. simpl.
      split; [|done]. apply elem_of_union. left.
      by apply elem_of_singleton.
    + rewrite lookup_insert_ne by done. intros Hk.
      destruct (Hin k p Hk) as [? ?]. split; [|done].
      apply elem_of_union. by right.
  - intros k1 k2 p1 p2 Hne. simpl.
    destruct (decide (id = k1)) as [<-|Hne1].
    + rewrite lookup_insert_eq, lookup_insert_ne by done.
      intros [= <-] Hk2. simpl. intros ->.
      by destruct (Hin k2 p2 Hk2) as [? _].
    + rewrite (lookup_insert_ne _ id k1) by done.
      destruct (decide (id = k2)) as [<-|Hne2].
      * rewrite lookup_insert_eq. intros Hk1 [= <-]. simpl. intros <-.
        by destruct (Hin k1 p1 Hk1) as [? _].
      * rewrite lookup_insert_ne by done. by apply Hdist.
Qed.

Lemma portsDistinct_createPreview id now projectPath config isPortAvailable
    startResult readdirOk m :
  Preview.explicitPort config = None →
  Preview.portsDistinct m →
  Preview.portsDistinct
    (Preview.createPreview id now projectPath config isPortAvailable
       startResult readdirOk m).2.
Proof.
  intros Hcfg Hm. unfold Preview.createPreview, Preview.allocatePort.
  rewrite Hcfg. unfold Preview.findAvailablePort.
  pose proof (findAvailablePort_from_least (Preview.usedPorts m)
                isPortAvailable (Preview.rangeCount m) (Preview.portRange m).1)
    as H.
  unfold Preview.rangeCount in *.
  destruct (Preview.findAvailablePort_from _ _ _ _) as [port|e]; [|done].
  destruct H as (Hr & Hu & _).
  assert (Hreg : Preview.portsDistinct
                   (Preview.register id now projectPath config port m))
    by (apply portsDistinct_register; [done | lia | done]).
  destruct startResult as [[]|e]; simpl.
  - eapply portsDistinct_kept; [apply keepsPorts_started | exact Hreg].
  - eapply portsDistinct_kept; [apply keepsPorts_startFailed | exact Hreg].
Qed.

Lemma portsDistinct_stopPreview id stopResult m :
  Preview.portsDistinct m →
  Preview.portsDistinct (Preview.stopPreview id stopResult m).2.
Proof.
  intros Hm. unfold Preview.stopPreview.
  destruct (Preview.previews m !! id) as [preview|] eqn:Hid; [|done].
  destruct stopResult as [[]|e]; simpl.
  - destruct Hm as [Hin Hdist]. split.
    + intros k p. simpl. destruct (decide (id = k)) as [->|Hne].
      * by rewrite lookup_delete_eq.
      * rewrite lookup_delete_ne by done. intros Hk.
        destruct (Hin k p Hk) as [? ?]. split; [|done].
        pose proof (Hdist id k preview p Hne Hid Hk) as Hports.
        apply elem_of_difference. split; [done|].
        intros Heq%elem_of_singleton. congruence.
    + intros k1 k2 p1 p2 Hne. simpl.
      destruct (decide (id = k1)) as [->|Hne1];
        [by rewrite lookup_delete_eq|].
      destruct (decide (id = k2)) as [->|Hne2];
        [by rewrite lookup_delete_eq|].
      rewrite !lookup_delete_ne by done. by apply Hdist.
  - eapply portsDistinct_kept; [|exact Hm].
    eapply keepsPorts_trans; [apply keepsPorts_call | apply keepsPorts_emit].
Qed.

Lemma portsDistinct_step m o :
  Preview.managedPort o →
  Preview.portsDistinct m → Preview.portsDistinct (Preview.step m o).
Proof.
  destruct o; simpl; intros Ho Hm.
  - by apply portsDistinct_createPreview.
  - by apply portsDistinct_stopPreview.
  - eapply portsDistinct_kept; [apply keepsPorts_restartPreview | done].
  - eapply portsDistinct_kept; [apply keepsPorts_fileChange | done].
Qed.

Lemma step_portRange m o :
  Preview.portRange (Preview.step m o) = Preview.portRange m.
Proof.
  destruct o; simpl.
  - unfold Preview.createPreview.
    destruct (Preview.allocatePort _ _ _); [|done].
    destruct startResult as [[]|e]; simpl; [|done].
    unfold Preview.started. by destruct readdirOk.
  - unfold Preview.stopPreview.
    destruct (Preview.previews m !! previewId); [|done].
    by destruct stopResult as [[]|e].
  - apply (keepsPorts_restartPreview previewId now stopResult startResult m).
  - apply (keepsPorts_fileChange id now now' path stopResult startResult m).
Qed.

End PortsKept.

(** X26: as long as calls are made one after another and every
    createPreview leaves the choice of the port to the manager, the
    registry stays consistent after any sequence of createPreview,
    stopPreview, restartPreview calls and watcher notifications, however
    starts, stops and bind tests turn out: every registered instance
    holds a port of the range 3000..9000 that is in the used-port set,
    and no two registered instances hold the same port. *)
Theorem registered_ports_distinct (ops : list Preview.op) :
  Forall Preview.managedPort ops →
  let m := Preview.run Preview.new ops in
  (∀ k p, Preview.previews m !! k = Some p →
     Preview.port p ∈ Preview.usedPorts m ∧ 3000 <= Preview.port p <= 9000)
  ∧ ∀ k1 k2 p1 p2,
      k1 ≠ k2 →
      Preview.previews m !! k1 = Some p1 →
      Preview.previews m !! k2 = Some p2 →
      Preview.port p1 ≠ Preview.port p2.
Proof.
  intros Hops.
  assert (H : ∀ m, Preview.portsDistinct m →
              Preview.portRange m = (3000, 9000) →
              Preview.portsDistinct (Preview.run m ops)
              ∧ Preview.portRange (Preview.run m ops) = (3000, 9000)).
  { induction Hops as [|o ops Ho Hops IH]; intros m Hm Hr; [done|].
    simpl. apply IH.
    - by apply portsDistinct_step.
    - by rewrite step_portRange. }
  intros m. subst m.
  destruct (H Preview.new) as [[Hin Hdist] Hr].
  - split; [|by intros k1 k2 p1 p2 _ Hk1]. by intros k p Hk.
  - done.
  - split; [|exact Hdist]. intros k p Hk.
    destruct (Hin k p Hk) as [? Hrange]. split; [done|].
    by rewrite Hr in Hrange.
Qed.

Lemma registered_ports_distinct_witness :
  let m := Preview.run Preview.new
             [Preview.OpCreate "preview_1_a" 1000 "/work/app" Preview.noPort
                (λ p, negb (bool_decide (p = 3000))) (Ok tt) true;
              Preview.OpCreate "preview_2_b" 2000 "/work/api" Preview.noPort
                (λ _, true) (Throw (Error "spawn failed")) true;
              Preview.OpStop "preview_1_a" (Ok tt);
              Preview.OpCreate "preview_3_c" 3000 "/work/web" Preview.noPort
                (λ _, true) (Ok tt) false] in
  (∀ k p, Preview.previews m !! k = Some p →
     Preview.port p ∈ Preview.usedPorts m ∧ 3000 <= Preview.port p <= 9000)
  ∧ ∀ k1 k2 p1 p2,
      k1 ≠ k2 →
      Preview.previews m !! k1 = Some p1 →
      Preview.previews m !! k2 = Some p2 →
      Preview.port p1 ≠ Preview.port p2.
Proof.
  apply registered_ports_distinct.
  repeat (constructor; [reflexivity|]). constructor.
Defined.

(** X27: a port named in the configuration is taken as it is: the
    used-port set and the bind test are not consulted, so a second
    instance can be registered on a port that another one holds; when
    one of the two is then stopped the port leaves the used-port set
    although the other instance is still registered on it. *)
Theorem explicit_port_is_not_checked (id other : string) (now : Z)
    (projectPath : string) (config : Preview.PreviewConfig) (port : Z)
    (isPortAvailable : Z → bool) (readdirOk : bool)
    (holder : Preview.PreviewInstance) (m : Preview.PreviewManager) :
  Preview.explicitPort config = Some port →
  other ≠ id →
  Preview.previews m !! other = Some holder →
  Preview.port holder = port →
  let r := Preview.createPreview id now projectPath config isPortAvailable
             (Ok tt) readdirOk m in
  let m2 := (Preview.stopPreview id (Ok tt) r.2).2 in
  r.1 = Ok (Preview.with_status Preview.StatusRunning
              (Preview.instance id now projectPath config port))
  ∧ Preview.port <$> Preview.previews r.2 !! id = Some port
  ∧ Preview.previews r.2 !! other = Some holder
  ∧ Preview.previews m2 !! other = Some holder
  ∧ port ∉ Preview.usedPorts m2.
Proof.
  intros Hcfg Hne Hother Hport r m2. subst r m2.
  unfold Preview.createPreview, Preview.allocatePort. rewrite Hcfg. simpl.
  assert (Hreg : ∀ k, Preview.previews
                        (Preview.started id readdirOk
                           (Preview.register id now projectPath config port m))
                      !! k
                      = if decide (id = k)
                        then Some (Preview.with_status Preview.StatusRunning
                                     (Preview.instance id now projectPath
                                        config port))
                        else Preview.previews m !! k).
  { intros k. unfold Preview.started.
    assert (Hw : ∀ x, Preview.previews (if readdirOk
                                         then Preview.watch id x else x)
                      = Preview.previews x) by (by destruct readdirOk).
    rewrite Hw. simpl. destruct (decide (id = k)) as [<-|Hk].
    - by rewrite lookup_alter_eq, lookup_insert_eq.
    - by rewrite lookup_alter_ne, lookup_insert_ne. }
  split; [done|]. split.
  { rewrite Hreg. by rewrite decide_True. }
  split.
  { rewrite Hreg. by rewrite decide_False. }
  unfold Preview.stopPreview. rewrite Hreg, decide_True by done. simpl.
  split.
  - rewrite lookup_delete_ne by done. rewrite Hreg.
    by rewrite decide_False.
  - intros Hin%elem_of_difference. destruct Hin as [_ Hn]. apply Hn.
    by apply elem_of_singleton.
Qed.

Lemma explicit_port_is_not_checked_witness :
  let cfg := {| Preview.config_port := Some 4000;
                Preview.config_host := None |} in
  let m := (Preview.createPreview "preview_1_a" 1000 "/work/app" cfg
              (λ _, true) (Ok tt) true Preview.new).2 in
  let r := Preview.createPreview "preview_2_b" 2000 "/work/api" cfg
             (λ _, false) (Ok tt) true m in
  let m2 := (Preview.stopPreview "preview_2_b" (Ok tt) r.2).2 in
  r.1 = Ok (Preview.with_status Preview.StatusRunning
              (Preview.instance "preview_2_b" 2000 "/work/api" cfg 4000))
  ∧ Preview.port <$> Preview.previews m2 !! "preview_1_a" = Some 4000
  ∧ 4000 ∉ Preview.usedPorts m2.
Proof.
  intros cfg m r m2.
  destruct (explicit_port_is_not_checked "preview_2_b" "preview_1_a" 2000
              "/work/api" cfg 4000 (λ _, false) true
              (Preview.with_status Preview.StatusRunning
                 (Preview.instance "preview_1_a" 1000 "/work/app" cfg 4000))
              m eq_refl ltac:(discriminate) ltac:(vm_compute; reflexivity)
              eq_refl) as (Hr & _ & _ & Hheld & Hfree).
  split; [exact Hr|]. split; [|exact Hfree].
  subst m2 r. by rewrite Hheld.
Defined.

(** X28: the watcher of an instance is never detached: after a
    successful createPreview that attached one and a successful
    stopPreview the instance is gone but still watched, so a later
    change notification still appends a fileChanged event to what the
    manager has emitted, while the restart it asks for finds no instance:
    no dev server is called and nothing else of the manager changes. *)
Theorem watcher_outlives_preview (id : string) (now : Z)
    (projectPath : string) (config : Preview.PreviewConfig) (port : Z)
    (isPortAvailable : Z → bool) (m : Preview.PreviewManager) :
  Preview.allocatePort config isPortAvailable m = Ok port →
  let m1 := (Preview.createPreview id now projectPath config isPortAvailable
               (Ok tt) true m).2 in
  let m2 := (Preview.stopPreview id (Ok tt) m1).2 in
  (Preview.stopPreview id (Ok tt) m1).1 = true
  ∧ Preview.getPreview id m2 = None
  ∧ id ∈ Preview.watching m2
  ∧ ∀ t t' path stopResult startResult,
      Preview.fileChange id t t' path stopResult startResult m2
      = {| Preview.previews := Preview.previews m2;
           Preview.portRange := Preview.portRange m2;
           Preview.usedPorts := Preview.usedPorts m2;
           Preview.emitted :=
             Preview.emitted m2 ++ [Preview.fileChanged id path];
           Preview.serverCalls := Preview.serverCalls m2;
           Preview.watching := Preview.watching m2 |}.
Proof.
  intros Halloc m1 m2. subst m1 m2.
  unfold Preview.createPreview. rewrite Halloc. simpl.
  unfold Preview.stopPreview. simpl.
  rewrite lookup_alter_eq, lookup_insert_eq. simpl.
  split; [done|]. unfold Preview.getPreview. simpl.
  split; [apply lookup_delete_eq|].
  split; [apply elem_of_union; left; by apply elem_of_singleton|].
  intros t t' path stopResult startResult.
  unfold Preview.fileChange. simpl.
  rewrite bool_decide_eq_true_2
    by (apply elem_of_union; left; by apply elem_of_singleton).
  unfold Preview.onChange, Preview.touch. simpl.
  rewrite (alter_id (Preview.with_lastActivity t) _ id)
    by (intros x; by rewrite lookup_delete_eq).
  destruct (Preview.shouldAutoRestart path); [|done].
  unfold Preview.restartPreview. simpl. by rewrite lookup_delete_eq.
Qed.

Lemma watcher_outlives_preview_witness :
  let m1 := (Preview.createPreview "preview_1_a" 1000 "/work/app"
               Preview.noPort (λ _, true) (Ok tt) true Preview.new).2 in
  let m2 := (Preview.stopPreview "preview_1_a" (Ok tt) m1).2 in
  let m3 := Preview.fileChange "preview_1_a" 5000 5001 "src/server.ts"
              (Ok tt) (Ok tt) m2 in
  Preview.getPreview "preview_1_a" m2 = None
  ∧ Preview.emitted m3
    = [Preview.previewStarted "preview_1_a";
       Preview.previewStopped "preview_1_a";
       Preview.fileChanged "preview_1_a" "src/server.ts"]
  ∧ Preview.serverCalls m3
    = [Preview.ServerStart "preview_1_a" 3000;
       Preview.ServerStop "preview_1_a"].
Proof.
  intros m1 m2 m3.
  destruct (watcher_outlives_preview "preview_1_a" 1000 "/work/app"
              Preview.noPort 3000 (λ _, true) Preview.new
              ltac:(vm_compute; reflexivity)) as (_ & Hgone & _ & Hchange).
  split; [exact Hgone|]. subst m3 m2 m1. rewrite Hchange.
  split; vm_compute; reflexivity.
Defined.

(** X29: an instance whose first start failed stays registered in
    status error and can be brought up with restartPreview on the port
    it holds, which sets its status to running and its lastActivity to
    the time of the restart; but no watcher is attached on that path:
    unless the id was watched before, change notifications for it do
    nothing. *)
Theorem restarted_preview_is_not_watched (id : string) (now now' : Z)
    (projectPath : string) (config : Preview.PreviewConfig) (port : Z)
    (isPortAvailable : Z → bool) (e : error) (readdirOk : bool)
    (m : Preview.PreviewManager) :
  Preview.allocatePort config isPortAvailable m = Ok port →
  id ∉ Preview.watching m →
  let m1 := (Preview.createPreview id now projectPath config isPortAvailable
               (Throw e) readdirOk m).2 in
  let r := Preview.restartPreview id now' (Ok tt) (Ok tt) m1 in
  Preview.status <$> Preview.getPreview id m1 = Some Preview.StatusError
  ∧ r.1 = true
  ∧ Preview.getPreview id r.2
    = Some {| Preview.id := id; Preview.port := port;
              Preview.url :=
                "http://" +:+ or_else (Preview.config_host config) "localhost"
                +:+ ":" +:+ pretty port;
              Preview.status := Preview.StatusRunning;
              Preview.projectPath := projectPath;
              Preview.lastActivity := now' |}
  ∧ Preview.usedPorts r.2 = {[port]} ∪ Preview.usedPorts m
  ∧ (id ∉ Preview.watching r.2)
  ∧ ∀ t t' path stopResult startResult,
      Preview.fileChange id t t' path stopResult startResult r.2 = r.2.
Proof.
  intros Halloc Hw m1 r. subst m1 r.
  unfold Preview.createPreview. rewrite Halloc. simpl.
  unfold Preview.getPreview, Preview.restartPreview. simpl.
  rewrite !lookup_alter_eq, !lookup_insert_eq. simpl.
  rewrite !lookup_alter_eq, !lookup_insert_eq. simpl.
  split; [done|]. split; [done|]. split; [done|]. split; [done|].
  split; [done|]. intros t t' path stopResult startResult.
  unfold Preview.fileChange. simpl. by rewrite bool_decide_eq_false_2.
Qed.

Lemma restarted_preview_is_not_watched_witness :
  let m1 := (Preview.createPreview "preview_1_a" 1000 "/work/app"
               Preview.noPort (λ _, true) (Throw (Error "spawn failed")) true
               Preview.new).2 in
  let r := Preview.restartPreview "preview_1_a" 2000 (Ok tt) (Ok tt) m1 in
  Preview.status <$> Preview.getPreview "preview_1_a" r.2
  = Some Preview.StatusRunning
  ∧ Preview.lastActivity <$> Preview.getPreview "preview_1_a" r.2
    = Some 2000
  ∧ Preview.fileChange "preview_1_a" 5000 5001 "src/server.ts"
      (Ok tt) (Ok tt) r.2 = r.2.
Proof.
  intros m1 r.
  destruct (restarted_preview_is_not_watched "preview_1_a" 1000 2000
              "/work/app" Preview.noPort 3000 (λ _, true)
              (Error "spawn failed") true Preview.new
              ltac:(vm_compute; reflexivity) ltac:(by_compute))
    as (_ & _ & Hup & _ & _ & Hchange).
  split; [|split; [|apply Hchange]]; subst r m1; by rewrite Hup.
Defined.
(* ===================================================================== *)
(*  Properties of the performance monitor                                *)
(* ===================================================================== *)

Section CappedBuffers.
Context {A : Type}.
Implicit Types (l : list A) (x : A) (n cap : nat).

Lemma lastN_length n l : (length (Monitor.lastN n l) ≤ n)%nat.
Proof. unfold Monitor.lastN. rewrite length_drop. lia. Qed.

Lemma lastN_short n l : (length l ≤ n)%nat → Monitor.lastN n l = l.
Proof.
  intros Hle. unfold Monitor.lastN.
  by replace (length l - n)%nat with 0%nat by lia.
Qed.

(** Pushing onto a capped buffer keeps the last [cap] elements of
    everything pushed so far. *)
Lemma pushCapped_lastN cap x l :
  (1 ≤ cap)%nat →
  Monitor.pushCapped cap x (Monitor.lastN cap l) = Monitor.lastN cap (l ++ [x]).
Proof.
  intros Hcap. unfold Monitor.pushCapped. simpl.
  destruct (decide (length l < cap)%nat) as [Hlt|Hge].
  - rewrite (lastN_short cap l) by lia.
    rewrite bool_decide_eq_false_2 by (rewrite List.length_app; simpl; lia).
    symmetry. apply lastN_short. rewrite List.length_app. simpl. lia.
  - assert (Hlen : length (Monitor.lastN cap l) = cap)
      by (unfold Monitor.lastN; rewrite length_drop; lia).
    rewrite bool_decide_eq_true_2 by (rewrite List.length_app, Hlen; simpl; lia).
    unfold Monitor.lastN at 1. rewrite List.length_app, Hlen. simpl.
    replace (cap + 1 - cap)%nat with 1%nat by lia.
    unfold Monitor.lastN. rewrite List.length_app. simpl.
    rewrite !drop_app_le by (rewrite ?length_drop; lia).
    rewrite drop_drop. f_equal. f_equal. lia.
Qed.

End CappedBuffers.

(** getMetrics returns stored metrics only, in their order, and all of
    them when neither filter is given or both are falsy. *)
Lemma getMetrics_sublist {V : Type} (metricName : option string)
    (since : option Z) (m : Monitor.PerformanceMonitor (V := V)) :
  Monitor.getMetrics metricName since m `sublist_of` Monitor.metrics m
  ∧ Monitor.getMetrics None None m = Monitor.metrics m
  ∧ Monitor.getMetrics (Some "") (Some 0) m = Monitor.metrics m.
Proof.
  split; [|done]. unfold Monitor.getMetrics.
  assert (H1 : match truthy metricName with
               | Some n => filter (λ x, Monitor.name x = n) (Monitor.metrics m)
               | None => Monitor.metrics m
               end `sublist_of` Monitor.metrics m).
  { destruct (truthy metricName); [apply sublist_filter | done]. }
  destruct since as [s|]; [|done].
  case_bool_decide; [done|].
  etrans; [apply sublist_filter | exact H1].
Qed.

(** X30: the monitor's buffers are bounded windows: after any sequence
    of recordMetric, recordFileOperation, recordTerminalCommand and
    setActiveSessions calls on a new monitor, every call has emitted
    exactly one metric, the metric list holds the last 1000 of them in
    order and the operation-time list the last 100 durations passed to
    recordFileOperation, while the fileOperations counter counts all of
    those calls without a cap. *)
Theorem monitor_keeps_bounded_windows {V : Type} (zero one : V)
    (ops : list (Monitor.op (V := V))) :
  let m := Monitor.run one (Monitor.new zero) ops in
  length (Monitor.emitted m) = length ops
  ∧ Monitor.metrics m = Monitor.lastN 1000 (Monitor.emitted m)
  ∧ (length (Monitor.metrics m) ≤ 1000)%nat
  ∧ Monitor.fileOperationTimes m
    = Monitor.lastN 100 (Monitor.durations ops)
  ∧ (length (Monitor.fileOperationTimes m) ≤ 100)%nat
  ∧ Monitor.fileOperations m = Z.of_nat (length (Monitor.durations ops)).
Proof.
  cbv zeta.
  assert (H : ∀ (done : list (Monitor.op (V := V))) m,
            length (Monitor.emitted m) = length done →
            Monitor.metrics m
              = Monitor.lastN Monitor.maxMetrics (Monitor.emitted m) →
            Monitor.fileOperationTimes m
              = Monitor.lastN Monitor.maxFileOperationTimes
                  (Monitor.durations done) →
            Monitor.fileOperations m
              = Z.of_nat (length (Monitor.durations done)) →
            let m' := Monitor.run one m ops in
            length (Monitor.emitted m') = length (done ++ ops)
            ∧ Monitor.metrics m'
              = Monitor.lastN Monitor.maxMetrics (Monitor.emitted m')
            ∧ Monitor.fileOperationTimes m'
              = Monitor.lastN Monitor.maxFileOperationTimes
                  (Monitor.durations (done ++ ops))
            ∧ Monitor.fileOperations m'
              = Z.of_nat (length (Monitor.durations (done ++ ops)))).
  { induction ops as [|o ops IH]; intros done m He Hm Ht Hc.
    - rewrite app_nil_r. done.
    - replace (done ++ o :: ops) with ((done ++ [o]) ++ ops)
        by (by rewrite <- app_assoc).
      simpl. apply IH.
      + rewrite List.length_app. simpl.
        destruct o; simpl; rewrite List.length_app; simpl; lia.
      + destruct o; simpl; rewrite Hm;
          apply pushCapped_lastN; unfold Monitor.maxMetrics; lia.
      + unfold Monitor.durations. rewrite omap_app. simpl.
        fold (Monitor.durations done).
        destruct o; simpl; rewrite ?app_nil_r; try done.
        rewrite Ht. apply pushCapped_lastN.
        unfold Monitor.maxFileOperationTimes. lia.
      + unfold Monitor.durations. rewrite omap_app. simpl.
        fold (Monitor.durations done).
        destruct o; simpl; rewrite ?app_nil_r; try done.
        rewrite Hc, List.length_app. simpl. lia. }
  destruct (H [] (Monitor.new zero)) as (He & Hm & Ht & Hc); try done.
  simpl in He, Ht, Hc.
  split; [done|]. split; [done|].
  split; [rewrite Hm; apply lastN_length|].
  split; [done|]. split; [rewrite Ht; apply lastN_length | done].
Qed.
